(** * Delivery-log dispatch layer of the communication gateway

    A shallow embedding of the email and SMS dispatch code:

    - the classes [EmailRepository] and [SmsRepository]
      (the delivery log store, over Prisma),
    - the classes [EmailService] and [SmsService], in
      [backend/src/modules/services/emailService.js] and [smsService.js]
      (single send, bulk send, retry sweep, retention cleanup),
    - the classes [EmailConfig], [SmsConfig] and [PushConfig]
      (the provider adapter registries),
    - the template engine of the class [Mailer], which [EmailService] uses
      for its templated emails.

    The email and the SMS code are the same text up to the names of the
    persisted fields ([to]/[subject]/[body] against [phone]/[message]), so the
    repository and the service are embedded once, over a [Channel] that
    carries what differs, and instantiated twice.

    Asynchronous code is embedded with explicit state passing: a computation
    is a function from the world (database table, clock, adapter registry,
    trace) to a result or a thrown error, and a new world.  The bulk send,
    which starts several batches without awaiting them, is embedded as a
    pool of tasks that an arbitrary schedule interleaves. *)

From Stdlib Require Import Ascii.
From stdpp Require Import gmap strings list sorting pretty.

Local Open Scope Z_scope.

(* ===================================================================== *)
(** ** JavaScript values used by the code *)
(* ===================================================================== *)

(** A thrown [Error]: its class name and its [message]. *)
Record JsError := mkError { err_name : string; message : string }.

Global Instance JsError_eq_dec : EqDecision JsError.
Proof. solve_decision. Defined.

(** [new Error(msg)] *)
Definition Error (msg : string) : JsError := mkError "Error" msg.

(** A [TypeError] that the runtime throws. *)
Definition TypeError (msg : string) : JsError := mkError "TypeError" msg.

(** Truthiness of an optional string ([undefined], [null] and [""] are
    falsy) and of an optional number ([undefined] and [0] are falsy). *)
Definition truthy (o : option string) : bool :=
  match o with
  | Some s => negb (String.eqb s EmptyString)
  | None => false
  end.

Definition truthy_num (o : option Z) : bool :=
  match o with
  | Some z => negb (z =? 0)
  | None => false
  end.

(** [a || b] on optional strings. *)
Definition js_or (a b : option string) : option string :=
  if truthy a then a else b.

(** [a || d] where [d] is a string. *)
Definition js_or_str (a : option string) (d : string) : string :=
  default d (js_or a (Some d)).

(** [`${x}`] for an optional string. *)
Definition template (a : option string) : string := default "undefined" a.

(** [a ?? b] *)
Definition js_nullish {A} (a b : option A) : option A :=
  match a with
  | Some _ => a
  | None => b
  end.

(** [String.prototype.toLowerCase], on ASCII letters. *)
Definition lower_ascii (c : Ascii.ascii) : Ascii.ascii :=
  let n := Ascii.N_of_ascii c in
  if ((65 <=? n) && (n <=? 90))%N then Ascii.ascii_of_N (n + 32) else c.

Fixpoint toLowerCase (s : string) : string :=
  match s with
  | EmptyString => EmptyString
  | String c s' => String (lower_ascii c) (toLowerCase s')
  end.

(** [String.prototype.toUpperCase], on ASCII letters. *)
Definition upper_ascii (c : Ascii.ascii) : Ascii.ascii :=
  let n := Ascii.N_of_ascii c in
  if ((97 <=? n) && (n <=? 122))%N then Ascii.ascii_of_N (n - 32) else c.

Fixpoint toUpperCase (s : string) : string :=
  match s with
  | EmptyString => EmptyString
  | String c s' => String (upper_ascii c) (toUpperCase s')
  end.

(** [s.includes(sub)] *)
Fixpoint includes (sub s : string) : bool :=
  String.prefix sub s ||
  match s with
  | EmptyString => false
  | String _ s' => includes sub s'
  end.

(** Prisma's [{ contains: sub, mode: 'insensitive' }]. *)
Definition contains_insensitive (sub s : string) : bool :=
  includes (toLowerCase sub) (toLowerCase s).

(** The results of [Math.ceil(total / limit)] that can occur. *)
Inductive JsNumber := Num (z : Z) | Infinity | NaN.

Definition ceil_div (total limit : nat) : JsNumber :=
  match limit, total with
  | O, O => NaN
  | O, S _ => Infinity
  | S _, _ => Num ((Z.of_nat total + Z.of_nat limit - 1) / Z.of_nat limit)
  end.

(* ===================================================================== *)
(** ** Computations: state, and errors that unwind *)
(* ===================================================================== *)

(** An [async] function over a world [W]: it returns a value or throws, and
    in both cases leaves a world behind. *)
Definition M (W A : Type) : Type := W → (JsError + A) * W.

Definition ret {W A} (a : A) : M W A := λ w, (inr a, w).

Definition throw {W A} (e : JsError) : M W A := λ w, (inl e, w).

Definition bind {W A B} (m : M W A) (k : A → M W B) : M W B :=
  λ w, match m w with
       | (inr a, w') => k a w'
       | (inl e, w') => (inl e, w')
       end.

(** [try { m } catch (error) { h error }] *)
Definition try_catch {W A} (m : M W A) (h : JsError → M W A) : M W A :=
  λ w, match m w with
       | (inr a, w') => (inr a, w')
       | (inl e, w') => h e w'
       end.

Notation "x <~ m ;; k" := (bind m (λ x, k))
  (at level 100, m at next level, right associativity,
   format "'[v' x  <~  m  ;;  '/' k ']'").

(** A synchronous call that returns or throws, inside an [async] function. *)
Definition of_result {W A} (r : JsError + A) : M W A := λ w, (r, w).

(** [for (const x of xs) { body }], the body pushing onto [results]. *)
Fixpoint for_of {W A R} (xs : list A) (body : A → M W R) : M W (list R) :=
  match xs with
  | [] => ret []
  | x :: xs' => r <~ body x ;; rs <~ for_of xs' body ;; ret (r :: rs)
  end.

(** What [emailConfig.sendEmail] / [smsConfig.sendSms] resolve to:
    [{ success: true, messageId, provider }]. *)
Record SendResult := mkSendResult {
  sr_messageId : option string;
  sr_provider : option string;
}.

(* ===================================================================== *)
(** ** A channel: what differs between email and SMS *)
(* ===================================================================== *)

Class ChannelTypes := {
  (** the destination and content columns of a log row *)
  Content : Type;
  (** the options of a send request that are not persisted *)
  Extra : Type;
  (** the state of the config singleton: adapter cache, environment, and
      the vendors behind it *)
  Cfg : Type;
}.

Class Channel (ty : ChannelTypes) := {
  (** a request with no options *)
  noExtra : Extra;
  (** the [to] / [phone] column *)
  destination : Content → string;
  (** [emailConfig.sendEmail] / [smsConfig.sendSms], at a given [Date.now()] *)
  config_send : Z → option string → Content → Extra → Cfg → (JsError + SendResult) * Cfg;
}.

Section Engine.
Context {ty : ChannelTypes} {ch : Channel ty}.

(* --------------------------------------------------------------------- *)
(** *** The log table *)
(* --------------------------------------------------------------------- *)

(** The columns of [EmailLog] / [SmsLog] (migration.sql) other than the
    primary key.  Timestamps are milliseconds since the epoch. *)
Record Columns := mkColumns {
  tenantId : Z;
  content : Content;
  status : string;
  provider : option string;
  errorMessage : option string;
  createdAt : Z;
  updatedAt : Z;
}.

(** A row, as Prisma hands it over. *)
Record Log := mkLog {
  id : Z;
  columns :> Columns;
}.

(** The argument of [config.sendEmail] / [config.sendSms]. *)
Record Request := mkRequest {
  rq_provider : option string;
  rq_content : Content;
  rq_extra : Extra;
}.

(** What happened, in order: rows created, statuses written (with the status
    overwritten), and adapter calls issued (with the table as it was then). *)
Inductive Event :=
  | EvCreate (row : Log)
  | EvStatus (log_id : Z) (old new : string)
  | EvSend (rq : Request) (table : gmap Z Columns).

Record World := mkWorld {
  rows : gmap Z Columns;     (* the table, by primary key *)
  nextId : Z;                (* next value of the SERIAL id *)
  tenants : gset Z;          (* ids present in Tenant (foreign key) *)
  now : Z;                   (* Date.now() *)
  cfg : Cfg;                 (* the config singleton *)
  trace : list Event;
}.

Definition set_rows (f : gmap Z Columns → gmap Z Columns) (w : World) : World :=
  mkWorld (f (rows w)) (nextId w) (tenants w) (now w) (cfg w) (trace w).
Definition set_nextId (s : Z) (w : World) : World :=
  mkWorld (rows w) s (tenants w) (now w) (cfg w) (trace w).
Definition set_now (t : Z) (w : World) : World :=
  mkWorld (rows w) (nextId w) (tenants w) t (cfg w) (trace w).
Definition set_cfg (c : Cfg) (w : World) : World :=
  mkWorld (rows w) (nextId w) (tenants w) (now w) c (trace w).
Definition emit (ev : Event) (w : World) : World :=
  mkWorld (rows w) (nextId w) (tenants w) (now w) (cfg w) (trace w ++ [ev]).

(* --------------------------------------------------------------------- *)
(** *** The Prisma client, as far as the repositories use it *)
(* --------------------------------------------------------------------- *)

(** Prisma and the database behind it are libraries, not code of the
    repository.  The calls that the repositories make are given the
    behaviour that Prisma documents for them on a table whose constraints
    are those of migration.sql: a serial primary key, a foreign key to the
    tenant.  A call fails on a constraint, on a missing row, or on an
    argument that Prisma rejects, and on nothing else. *)

Inductive StatusCond :=
  | StatusIs (s : string)            (* status: s *)
  | StatusIn (l : list string).      (* status: { in: l } *)

(** A [Date] object: a time value, or Invalid Date. *)
Inductive JsDate := DateAt (t : Z) | InvalidDate.

Record DateCond := mkDateCond {
  gte : option JsDate;
  lte : option JsDate;
  lt : option JsDate;
}.

(** A [where] object; an absent key is [None]. *)
Record Where := mkWhere {
  where_tenantId : option Z;
  where_status : option StatusCond;
  where_destination : option string;   (* { contains, mode: 'insensitive' } *)
  where_provider : option string;
  where_createdAt : option DateCond;
}.

Definition opt_holds {A} (o : option A) (p : A → bool) : bool :=
  match o with
  | Some a => p a
  | None => true
  end.

Definition status_matches (c : StatusCond) (s : string) : bool :=
  match c with
  | StatusIs s' => String.eqb s s'
  | StatusIn l => existsb (String.eqb s) l
  end.

Definition date_cmp (cmp : Z → Z → bool) (t : Z) (d : JsDate) : bool :=
  match d with
  | DateAt b => cmp t b
  | InvalidDate => false
  end.

Definition date_matches (c : DateCond) (t : Z) : bool :=
  opt_holds (gte c) (date_cmp Z.geb t) &&
  opt_holds (lte c) (date_cmp Z.leb t) &&
  opt_holds (lt c) (date_cmp Z.ltb t).

Definition date_valid (d : JsDate) : bool :=
  match d with
  | DateAt _ => true
  | InvalidDate => false
  end.

(** Prisma validates the arguments of a query before running it: a bound
    that is an Invalid Date is rejected. *)
Definition where_valid (wh : Where) : bool :=
  opt_holds (where_createdAt wh)
    (λ c, opt_holds (gte c) date_valid && opt_holds (lte c) date_valid &&
          opt_holds (lt c) date_valid).

Definition invalid_date_error : JsError :=
  mkError "PrismaClientValidationError" "Provided Date object is invalid. Expected Date.".

Definition matches (wh : Where) (r : Columns) : bool :=
  opt_holds (where_tenantId wh) (λ t, tenantId r =? t) &&
  opt_holds (where_status wh) (λ c, status_matches c (status r)) &&
  opt_holds (where_destination wh) (λ s, contains_insensitive s (destination (content r))) &&
  opt_holds (where_provider wh) (λ p, bool_decide (provider r = Some p)) &&
  opt_holds (where_createdAt wh) (λ c, date_matches c (createdAt r)).

Inductive Order := Asc | Desc.

(** [orderBy: { createdAt: ... }].  Rows with equal [createdAt] come in the
    order of their ids (PostgreSQL leaves it open). *)
Definition ordered (o : Order) (a b : Log) : Prop :=
  match o with
  | Asc => createdAt a < createdAt b ∨ (createdAt a = createdAt b ∧ id a ≤ id b)
  | Desc => createdAt b < createdAt a ∨ (createdAt a = createdAt b ∧ id a ≤ id b)
  end.

Global Instance ordered_dec o a b : Decision (ordered o a b).
Proof. destruct o; simpl; apply _. Defined.

Definition table_rows (w : World) : list Log :=
  (λ kc, mkLog kc.1 kc.2) <$> map_to_list (rows w).

(** [findMany({ where, orderBy, skip, take })]; Prisma rejects a negative
    [skip]. *)
Definition prisma_findMany (wh : Where) (o : Order) (skip : Z) (take_ : nat)
  : M World (list Log) :=
  λ w,
    if negb (where_valid wh) then (inl invalid_date_error, w)
    else if skip <? 0 then
      (inl (mkError "PrismaClientValidationError" "Invalid value for skip argument"), w)
    else
      (inr (take take_ (drop (Z.to_nat skip)
              (merge_sort (ordered o) (filter (λ r : Log, matches wh r) (table_rows w))))), w).

(** [count({ where })] *)
Definition prisma_count (wh : Where) : M World nat :=
  λ w,
    if negb (where_valid wh) then (inl invalid_date_error, w)
    else (inr (length (filter (λ r : Log, matches wh r) (table_rows w))), w).

(** What [create] is given. *)
Record CreateData := mkCreateData {
  cd_tenantId : Z;
  cd_content : Content;
  cd_status : string;
  cd_provider : option string;
  cd_errorMessage : option string;
}.

(** [create({ data })]: the id comes from the sequence, [createdAt] and
    [updatedAt] from the clock; the tenant must exist and the id be free. *)
Definition prisma_create (d : CreateData) : M World Log :=
  λ w,
    let w1 := set_nextId (nextId w + 1) w in
    if bool_decide (cd_tenantId d ∈ tenants w) then
      match rows w !! nextId w with
      | None =>
          let c := mkColumns (cd_tenantId d) (cd_content d) (cd_status d)
                             (cd_provider d) (cd_errorMessage d) (now w) (now w) in
          (inr (mkLog (nextId w) c),
           emit (EvCreate (mkLog (nextId w) c)) (set_rows (insert (nextId w) c) w1))
      | Some _ =>
          (inl (mkError "PrismaClientKnownRequestError"
                  "Unique constraint failed on the fields: (`id`)"), w1)
      end
    else
      (inl (mkError "PrismaClientKnownRequestError"
              "Foreign key constraint failed on the field: `tenantId`"), w1).

(** A row with [status], [errorMessage] and [updatedAt] overwritten. *)
Definition with_status (r : Columns) (st : string) (err : option string) (at_ : Z) : Columns :=
  mkColumns (tenantId r) (content r) st (provider r) err (createdAt r) at_.

(** [update({ where: { id }, data: { status, errorMessage, updatedAt } })];
    it throws when no row has that id. *)
Definition prisma_update (log_id : Z) (st : string) (err : option string) (at_ : Z) : M World Log :=
  λ w,
    match rows w !! log_id with
    | Some r =>
        let r' := with_status r st err at_ in
        (inr (mkLog log_id r'),
         emit (EvStatus log_id (status r) st) (set_rows (insert log_id r') w))
    | None =>
        (inl (mkError "PrismaClientKnownRequestError" "Record to update not found."), w)
    end.

(** [deleteMany({ where })], resolving to [{ count }]. *)
Definition prisma_deleteMany (wh : Where) : M World nat :=
  λ w,
    if negb (where_valid wh) then (inl invalid_date_error, w)
    else
      (inr (length (filter (λ r : Log, matches wh r) (table_rows w))),
       set_rows (filter (λ kc, ¬ matches wh kc.2)) w).

(* --------------------------------------------------------------------- *)
(** *** The repository (emailRepository.js, smsRepository.js) *)
(* --------------------------------------------------------------------- *)

(** [try { m } catch (error) { logger.error(..., error); throw error; }]:
    every repository and service method is wrapped so.  Logging leaves no
    mark on the world. *)
Definition logging_errors {A} (m : M World A) : M World A :=
  try_catch m (λ error, throw error).

Definition Date_now : M World Z := λ w, (inr (now w), w).

(** The argument of [createEmailLog] / [createSmsLog]. *)
Record LogData := mkLogData {
  ld_tenantId : Z;
  ld_content : Content;
  ld_status : option string;
  ld_provider : option string;
  ld_errorMessage : option string;
}.

(** [createEmailLog] / [createSmsLog]: [status: data.status || 'pending']. *)
Definition createLog (d : LogData) : M World Log :=
  logging_errors
    (prisma_create
       (mkCreateData (ld_tenantId d) (ld_content d)
          (js_or_str (ld_status d) "pending")
          (ld_provider d) (ld_errorMessage d))).

(** [updateEmailLogStatus(id, status, errorMessage = null)] /
    [updateSmsLogStatus]: [updatedAt: new Date()]. *)
Definition updateLogStatus (log_id : Z) (st : string) (err : option string) : M World Log :=
  logging_errors
    (t <~ Date_now ;;
     prisma_update log_id st err t).

(** The [filters] of [getEmailLogs] / [getSmsLogs]; dates arrive as the
    strings of the query. *)
Record Filters := mkFilters {
  f_tenantId : option Z;
  f_status : option string;
  f_destination : option string;      (* [to] / [phone] *)
  f_startDate : option string;
  f_endDate : option string;
  f_provider : option string;
}.

Record Pagination := mkPagination {
  pg_page : option nat;
  pg_limit : option nat;
}.

Record Page := mkPage {
  p_logs : list Log;
  p_page : nat;
  p_limit : nat;
  p_total : nat;
  p_pages : JsNumber;
}.

(** [new Date(s)] for a string: the JavaScript runtime's parser. *)
Variable new_Date : string → JsDate.

(** The [where] object that [getEmailLogs] / [getSmsLogs] build:
    [...(x && { x })] for each filter, and
    [...(startDate && endDate && { createdAt: { gte, lte } })]. *)
Definition logs_where (f : Filters) : Where :=
  mkWhere
    (if truthy_num (f_tenantId f) then f_tenantId f else None)
    (if truthy (f_status f) then StatusIs <$> f_status f else None)
    (if truthy (f_destination f) then f_destination f else None)
    (if truthy (f_provider f) then f_provider f else None)
    (if truthy (f_startDate f) && truthy (f_endDate f) then
       Some (mkDateCond (new_Date <$> f_startDate f) (new_Date <$> f_endDate f) None)
     else None).

(** [getEmailLogs(filters = {}, pagination = {})] / [getSmsLogs].  The two
    queries under [Promise.all] only read, so their order does not matter;
    [include: { tenant: true }] joins the tenant to each row, which is left
    out here. *)
Definition getLogs (f : Filters) (pg : Pagination) : M World Page :=
  logging_errors
    (let page := default 1%nat (pg_page pg) in
     let limit := default 10%nat (pg_limit pg) in
     let skip := (Z.of_nat page - 1) * Z.of_nat limit in
     let where_ := logs_where f in
     logs <~ prisma_findMany where_ Desc skip limit ;;
     total <~ prisma_count where_ ;;
     ret (mkPage logs page limit total (ceil_div total limit))).

(** [getFailedEmailLogsForRetry(limit = 50)] / [getFailedSmsLogsForRetry]. *)
Definition getFailedLogsForRetry (limit : nat) : M World (list Log) :=
  logging_errors
    (t <~ Date_now ;;
     prisma_findMany
       (mkWhere None (Some (StatusIs "failed")) None None
          (Some (mkDateCond (Some (DateAt (t - 24 * 60 * 60 * 1000))) None None)))
       Asc 0 limit).

(** [cleanupOldEmailLogs(daysOld = 90)] / [cleanupOldSmsLogs]. *)
Definition cleanupOldLogs (daysOld : Z) : M World nat :=
  logging_errors
    (t <~ Date_now ;;
     let cutoffDate := DateAt (t - daysOld * 24 * 60 * 60 * 1000) in
     prisma_deleteMany
       (mkWhere None (Some (StatusIn ["sent"; "failed"])) None None
          (Some (mkDateCond None None (Some cutoffDate))))).

(* --------------------------------------------------------------------- *)
(** *** The service (emailService.js, smsService.js) *)
(* --------------------------------------------------------------------- *)

(** The call [this.emailConfig.sendEmail(...)] / [this.smsConfig.sendSms(...)]. *)
Definition adapter_send (rq : Request) : M World SendResult :=
  λ w,
    let '(r, c) := config_send (now w) (rq_provider rq) (rq_content rq) (rq_extra rq) (cfg w) in
    (r, set_cfg c (emit (EvSend rq (rows w)) w)).

(** The argument of [sendEmail] / [sendSms]. *)
Record SendData := mkSendData {
  sd_tenantId : Z;
  sd_content : Content;
  sd_provider : option string;
  sd_extra : Extra;
}.

(** [{ success: true, emailLogId, messageId, provider }] *)
Record SendOk := mkSendOk {
  ok_logId : Z;
  ok_messageId : option string;
  ok_provider : option string;
}.

(** [sendEmail(emailData)] / [sendSms(smsData)]. *)
Definition sendOne (d : SendData) : M World SendOk :=
  logging_errors
    (log <~ createLog (mkLogData (sd_tenantId d) (sd_content d) (Some "pending") (sd_provider d) None) ;;
     try_catch
       (result <~ adapter_send (mkRequest (sd_provider d) (sd_content d) (sd_extra d)) ;;
        _ <~ updateLogStatus (id log) "sent" None ;;
        ret (mkSendOk (id log) (sr_messageId result) (sr_provider result)))
       (λ error,
        _ <~ updateLogStatus (id log) "failed" (Some (message error)) ;;
        throw error)).

(** An element of [emails] (for SMS: a phone number with the shared message). *)
Record Item := mkItem {
  it_content : Content;
  it_extra : Extra;
}.

(** An element of [results]: [{ ...email, ...result }] on success,
    [{ ...email, success: false, error: error.message }] on failure. *)
Record ItemResult := mkItemResult {
  ir_item : Item;
  ir_outcome : string + SendOk;
}.

Definition success (r : ItemResult) : bool :=
  match ir_outcome r with
  | inr _ => true
  | inl _ => false
  end.

(** The body of the loop of [processBatch]. *)
Definition process_item (tenant : Z) (prov : option string) (item : Item) : M World ItemResult :=
  try_catch
    (result <~ sendOne (mkSendData tenant (it_content item) prov (it_extra item)) ;;
     ret (mkItemResult item (inr result)))
    (λ error, ret (mkItemResult item (inl (message error)))).

(** [processEmailBatch(emails, tenantId, provider)] / [processSmsBatch],
    awaited to its end. *)
Definition processBatch (items : list Item) (tenant : Z) (prov : option string)
  : M World (list ItemResult) :=
  for_of items (process_item tenant prov).

(** An element of the [results] of a retry sweep. *)
Record RetryResult := mkRetryResult {
  rr_logId : Z;
  rr_outcome : string + option string;    (* error message, or messageId *)
}.

(** The body of the loop of [retryFailed]. *)
Definition retry_one (log : Log) : M World RetryResult :=
  try_catch
    (_ <~ updateLogStatus (id log) "pending" None ;;
     result <~ adapter_send (mkRequest (provider log) (content log) noExtra) ;;
     _ <~ updateLogStatus (id log) "sent" None ;;
     ret (mkRetryResult (id log) (inr (sr_messageId result))))
    (λ error,
     _ <~ updateLogStatus (id log) "failed" (Some (message error)) ;;
     ret (mkRetryResult (id log) (inl (message error)))).

(** [retryFailedEmails(limit = 50)] / [retryFailedSms]. *)
Definition retryFailed (limit : nat) : M World (list RetryResult) :=
  logging_errors
    (failedLogs <~ getFailedLogsForRetry limit ;;
     for_of failedLogs retry_one).

(** [cleanupOldEmailLogs(daysOld = 90)] / [cleanupOldSmsLogs] of the service. *)
Definition cleanupOld (daysOld : Z) : M World nat :=
  logging_errors (cleanupOldLogs daysOld).

(* --------------------------------------------------------------------- *)
(** *** The bulk send: batches in flight together *)
(* --------------------------------------------------------------------- *)

(** [sendBulkEmails] calls [processEmailBatch] without awaiting it, keeps the
    promise, and awaits only the pacing delay before the next batch; it
    awaits all the promises after the loop.  So several batches can be
    suspended at an [await] at once, and the order in which they resume is
    for the event loop to decide.  A batch is embedded as a task that takes
    one step per [await] of [processEmailBatch] and [sendEmail]; the steps
    are those of [processBatch] and [sendOne] above, cut at each [await]. *)

(** The argument of [sendBulkEmails] / [sendBulkSms]. *)
Record BulkData := mkBulkData {
  bd_items : list Item;
  bd_tenantId : Z;
  bd_provider : option string;
  bd_batchSize : option nat;     (* batchSize = 10 *)
  bd_delay : option nat;         (* delay = 1000 *)
}.

Definition batchSize (b : BulkData) : nat := default 10%nat (bd_batchSize b).
Definition delay (b : BulkData) : Z := Z.of_nat (default 1000%nat (bd_delay b)).

(** Where [sendOne] stands for the item in hand: which call it awaits. *)
Inductive Stage :=
  | AwaitCreate
  | AwaitSend (log : Log)
  | AwaitMarkSent (log : Log) (result : SendResult)
  | AwaitMarkFailed (log : Log) (error : JsError).

(** A call of [processBatch] in flight. *)
Record Task := mkTask {
  tk_started : Z;                    (* when it was called *)
  tk_items : list Item;              (* the item in hand, then those to come *)
  tk_stage : Stage;
  tk_results : list ItemResult;      (* [results] so far *)
}.

Definition finished (t : Task) : bool :=
  match tk_items t with
  | [] => true
  | _ :: _ => false
  end.

(** The item in hand is done: push its result, go on with the next. *)
Definition next_item (t : Task) (item : Item) (rest : list Item) (o : string + SendOk) : Task :=
  mkTask (tk_started t) rest AwaitCreate (tk_results t ++ [mkItemResult item o]).

Definition at_stage (t : Task) (s : Stage) : Task :=
  mkTask (tk_started t) (tk_items t) s (tk_results t).

(** The awaited call completes and the task runs to its next [await]. *)
Definition step_task (b : BulkData) (t : Task) (w : World) : Task * World :=
  match tk_items t with
  | [] => (t, w)
  | item :: rest =>
      match tk_stage t with
      | AwaitCreate =>
          match createLog (mkLogData (bd_tenantId b) (it_content item) (Some "pending")
                             (bd_provider b) None) w with
          | (inr log, w') => (at_stage t (AwaitSend log), w')
          | (inl error, w') => (next_item t item rest (inl (message error)), w')
          end
      | AwaitSend log =>
          match adapter_send (mkRequest (bd_provider b) (it_content item) (it_extra item)) w with
          | (inr result, w') => (at_stage t (AwaitMarkSent log result), w')
          | (inl error, w') => (at_stage t (AwaitMarkFailed log error), w')
          end
      | AwaitMarkSent log result =>
          match updateLogStatus (id log) "sent" None w with
          | (inr _, w') =>
              (next_item t item rest
                 (inr (mkSendOk (id log) (sr_messageId result) (sr_provider result))), w')
          | (inl error, w') => (at_stage t (AwaitMarkFailed log error), w')
          end
      | AwaitMarkFailed log error =>
          match updateLogStatus (id log) "failed" (Some (message error)) w with
          | (inr _, w') => (next_item t item rest (inl (message error)), w')
          | (inl error', w') => (next_item t item rest (inl (message error')), w')
          end
      end
  end.

(** Where [sendBulk] itself stands: in the loop at index [i], awaiting the
    delay; or past the loop, awaiting [Promise.all(batchPromises)]. *)
Inductive Main :=
  | AwaitDelay (i : nat) (deadline : Z)
  | AwaitAll.

Record Pool := mkPool {
  pl_tasks : list Task;      (* [batchPromises], in the order pushed *)
  pl_main : Main;
}.

(** The body of the loop at index [i]: slice, call [processBatch], push,
    and await the delay if items remain. *)
Definition start_batch (b : BulkData) (i : nat) (tasks : list Task) (w : World) : Pool :=
  let batch := take (batchSize b) (drop i (bd_items b)) in
  mkPool (tasks ++ [mkTask (now w) batch AwaitCreate []])
         (if (i + batchSize b <? length (bd_items b))%nat
          then AwaitDelay i (now w + delay b)
          else AwaitAll).

(** [sendBulk] up to its first [await]. *)
Definition sendBulk_start (b : BulkData) (w : World) : Pool :=
  if (0 <? length (bd_items b))%nat then start_batch b 0 [] w else mkPool [] AwaitAll.

(** What the event loop does next: time passes, the timer of the delay
    fires, or the call that task [k] awaits completes. *)
Inductive Tick :=
  | Elapse (ms : nat)
  | TimerFires
  | Resume (k : nat).

Definition pool_step (b : BulkData) (pw : Pool * World) (ev : Tick) : Pool * World :=
  let '(p, w) := pw in
  match ev with
  | Elapse ms => (p, set_now (now w + Z.of_nat ms) w)
  | TimerFires =>
      match pl_main p with
      | AwaitDelay i deadline =>
          if deadline <=? now w
          then (start_batch b (i + batchSize b) (pl_tasks p) w, w)
          else (p, w)
      | AwaitAll => (p, w)
      end
  | Resume k =>
      match pl_tasks p !! k with
      | Some t =>
          let '(t', w') := step_task b t w in
          (mkPool (<[k := t']> (pl_tasks p)) (pl_main p), w')
      | None => (p, w)
      end
  end.

Definition run (b : BulkData) (σ : list Tick) (pw : Pool * World) : Pool * World :=
  foldl (pool_step b) pw σ.

(** [Promise.all(batchPromises)] has resolved. *)
Definition settled (p : Pool) : bool :=
  match pl_main p with
  | AwaitAll => forallb finished (pl_tasks p)
  | AwaitDelay _ _ => false
  end.

(** [{ success: true, results, summary: { total, successful, failed } }] *)
Record BulkResult := mkBulkResult {
  br_results : list ItemResult;
  br_total : nat;
  br_successful : nat;
  br_failed : nat;
}.

(** What [sendBulk] returns once the promises have resolved. *)
Definition bulk_return (b : BulkData) (p : Pool) : BulkResult :=
  let results := concat (tk_results <$> pl_tasks p) in
  mkBulkResult results (length (bd_items b))
    (length (filter (λ r, success r) results))
    (length (filter (λ r, ¬ success r) results)).

(** [sendBulkEmails(emailsData)] / [sendBulkSms(smsData)] under the schedule
    [σ]: [None] while the call has not returned. *)
Definition sendBulk (b : BulkData) (σ : list Tick) (w : World) : option BulkResult * World :=
  let '(p, w') := run b σ (sendBulk_start b w, w) in
  (if settled p then Some (bulk_return b p) else None, w').

(* --------------------------------------------------------------------- *)
(** *** Notions for stating the properties *)
(* --------------------------------------------------------------------- *)

(** The row that [createLog] inserts in [w]. *)
Definition new_row (ld : LogData) (w : World) : Log :=
  mkLog (nextId w)
    (mkColumns (ld_tenantId ld) (ld_content ld) (js_or_str (ld_status ld) "pending")
       (ld_provider ld) (ld_errorMessage ld) (now w) (now w)).

Definition created (ld : LogData) (w : World) : World :=
  emit (EvCreate (new_row ld w))
    (set_rows (insert (nextId w) (columns (new_row ld w))) (set_nextId (nextId w + 1) w)).

(** The world after [updateLogStatus] has overwritten row [r] at id [i]. *)
Definition status_written (i : Z) (r : Columns) (st : string) (err : option string) (w : World) : World :=
  emit (EvStatus i (status r) st) (set_rows (insert i (with_status r st err (now w))) w).

(** What [sendOne] hands to [createLog] and to the adapter. *)
Definition pending_data (d : SendData) : LogData :=
  mkLogData (sd_tenantId d) (sd_content d) (Some "pending") (sd_provider d) None.

Definition request_of (d : SendData) : Request :=
  mkRequest (sd_provider d) (sd_content d) (sd_extra d).

(** The three status transitions of the life cycle. *)
Definition allowed (old new : string) : Prop :=
  (old = "pending" ∧ new = "sent") ∨
  (old = "pending" ∧ new = "failed") ∨
  (old = "failed" ∧ new = "pending").

(** An event that, if it writes a status, makes an allowed transition. *)
Definition lawful (ev : Event) : Prop :=
  match ev with
  | EvStatus _ old new => allowed old new
  | _ => True
  end.

(** From [w] to [w']: the trace grew by lawful events, and the rows that
    were [sent] are as they were. *)
Definition evolves (w w' : World) : Prop :=
  (∃ evs, trace w' = trace w ++ evs ∧ Forall lawful evs) ∧
  (∀ i c, rows w !! i = Some c → status c = "sent" → rows w' !! i = Some c).

(** A service-level operation, or time passing between two of them.  A bulk
    send comes with the schedule of its batches. *)
Inductive Op :=
  | OpSendOne (d : SendData)
  | OpSendBulk (b : BulkData) (σ : list Tick)
  | OpRetryFailed (limit : nat)
  | OpElapse (ms : nat).

Definition exec (w : World) (op : Op) : World :=
  match op with
  | OpSendOne d => (sendOne d w).2
  | OpSendBulk b σ => (sendBulk b σ w).2
  | OpRetryFailed limit => (retryFailed limit w).2
  | OpElapse ms => set_now (now w + Z.of_nat ms) w
  end.

Definition exec_all (ops : list Op) (w : World) : World := foldl exec w ops.

(** The row that a task has created for the item in hand, if any. *)
Definition held (t : Task) : option Log :=
  match tk_items t with
  | [] => None
  | _ :: _ =>
      match tk_stage t with
      | AwaitCreate => None
      | AwaitSend log | AwaitMarkSent log _ | AwaitMarkFailed log _ => Some log
      end
  end.

(** The rows held by the tasks of a pool are in the table, [pending], and
    no two tasks hold the same row. *)
Definition owns (p : Pool) (w : World) : Prop :=
  (∀ k t log, pl_tasks p !! k = Some t → held t = Some log →
     ∃ c, rows w !! id log = Some c ∧ status c = "pending") ∧
  (∀ k1 k2 t1 t2 l1 l2,
     pl_tasks p !! k1 = Some t1 → pl_tasks p !! k2 = Some t2 →
     held t1 = Some l1 → held t2 = Some l2 → id l1 = id l2 → k1 = k2).

(** The [k]-th chunk of the items: [emails.slice(k * batchSize, (k + 1) * batchSize)]. *)
Definition chunk (b : BulkData) (k : nat) : list Item :=
  take (batchSize b) (drop (k * batchSize b) (bd_items b)).

(** Task [k] works on chunk [k]: its results are those of a prefix of the
    chunk, in order, and the rest of the chunk is still to do. *)
Definition in_order (b : BulkData) (p : Pool) : Prop :=
  ∀ k t, pl_tasks p !! k = Some t →
    (ir_item <$> tk_results t) ++ tk_items t = chunk b k.

(** The main loop is where the number of started tasks says. *)
Definition main_ok (b : BulkData) (p : Pool) : Prop :=
  match pl_main p with
  | AwaitDelay i _ =>
      (i + batchSize b = length (pl_tasks p) * batchSize b ∧
       i + batchSize b < length (bd_items b))%nat
  | AwaitAll => (length (bd_items b) ≤ length (pl_tasks p) * batchSize b)%nat
  end.

(** When the batches were started, in order. *)
Definition starts (p : Pool) : list Z := tk_started <$> pl_tasks p.

(** Consecutive batches were started at least the delay apart, none in the
    future, and the timer is set to the delay after the last start. *)
Definition paced (b : BulkData) (p : Pool) (w : World) : Prop :=
  (∀ k s s', starts p !! k = Some s → starts p !! S k = Some s' → s + delay b ≤ s') ∧
  (∀ s, s ∈ starts p → s ≤ now w) ∧
  (∀ i deadline, pl_main p = AwaitDelay i deadline →
     ∃ s, last (starts p) = Some s ∧ deadline = s + delay b).

(** The items of a task for which [sendOne] has not been called yet. *)
Definition untouched (t : Task) : list Item := tail (tk_items t).

(** The events of one replay in a retry sweep: back to [pending], the
    adapter called with the provider and the content recorded on the row,
    then the outcome. *)
Definition replayed (log : Log) (evs : list Event) : Prop :=
  ∃ table outcome,
    (outcome = "sent" ∨ outcome = "failed") ∧
    evs = [EvStatus (id log) "failed" "pending";
           EvSend (mkRequest (provider log) (content log) noExtra) table;
           EvStatus (id log) "pending" outcome].

(** The [where] of [getFailedLogsForRetry] at time [t]. *)
Definition retry_where (t : Z) : Where :=
  mkWhere None (Some (StatusIs "failed")) None None
    (Some (mkDateCond (Some (DateAt (t - 24 * 60 * 60 * 1000))) None None)).

(** The rows that qualify for a retry in [w], oldest first. *)
Definition retry_queue (w : World) : list Log :=
  merge_sort (ordered Asc) (filter (λ r : Log, matches (retry_where (now w)) r) (table_rows w)).

(** Two rows that differ at most in status, error message and update time. *)
Definition same_message (c c' : Columns) : Prop :=
  tenantId c' = tenantId c ∧ content c' = content c ∧
  provider c' = provider c ∧ createdAt c' = createdAt c.




(** The destinations of the adapter calls issued so far, in order. *)
Definition dispatched (w : World) : list string :=
  omap (λ ev, match ev with
              | EvSend rq _ => Some (destination (rq_content rq))
              | _ => None
              end) (trace w).

(** In every batch but the last started, [sendOne] has been called for every
    item: what it would be for batches to take turns. *)
Definition batches_in_turn (p : Pool) : Prop :=
  ∀ k t, pl_tasks p !! k = Some t → (S k < length (pl_tasks p))%nat → untouched t = [].

(** The filters without their two dates. *)
Definition clear_dates (f : Filters) : Filters :=
  mkFilters (f_tenantId f) (f_status f) (f_destination f) None None (f_provider f).

(** The [where] of [cleanupOldLogs] at time [t]. *)
Definition cleanup_where (t daysOld : Z) : Where :=
  mkWhere None (Some (StatusIn ["sent"; "failed"])) None None
    (Some (mkDateCond None None (Some (DateAt (t - daysOld * 24 * 60 * 60 * 1000))))).








(* --------------------------------------------------------------------- *)
(** *** The rest of the repository *)
(* --------------------------------------------------------------------- *)

(** [findUnique({ where: { id } })]: the row, or [null]. *)
Definition prisma_findUnique (log_id : Z) : M World (option Log) :=
  λ w, (inr (mkLog log_id <$> rows w !! log_id), w).

(** [delete({ where: { id } })]; it throws when no row has that id. *)
Definition prisma_delete (log_id : Z) : M World Log :=
  λ w,
    match rows w !! log_id with
    | Some r => (inr (mkLog log_id r), set_rows (delete log_id) w)
    | None =>
        (inl (mkError "PrismaClientKnownRequestError" "Record to delete does not exist."), w)
    end.

(** [updateMany({ where: { id: { in: ids } }, data: { status, errorMessage,
    updatedAt } })], resolving to [{ count }]: every row whose id is among
    [ids] is overwritten, and ids that no row has are passed over. *)
Definition prisma_updateMany (ids : list Z) (st : string) (err : option string) (at_ : Z)
  : M World nat :=
  λ w,
    let hit := filter (λ r : Log, id r ∈ ids) (table_rows w) in
    (inr (length hit),
     mkWorld
       (map_imap (λ i c, Some (if bool_decide (i ∈ ids) then with_status c st err at_ else c))
          (rows w))
       (nextId w) (tenants w) (now w) (cfg w)
       (trace w ++ ((λ r : Log, EvStatus (id r) (status r) st) <$> hit))).

(** [groupBy({ by: ['status'], where, _count: { status: true } })]: one
    group for each status that occurs among the rows found, with the number
    of rows that have it. *)
Definition prisma_groupBy_status (wh : Where) : M World (list (string * nat)) :=
  λ w,
    if negb (where_valid wh) then (inl invalid_date_error, w)
    else
      let found := filter (λ r : Log, matches wh r) (table_rows w) in
      (inr ((λ s, (s, length (filter (λ r : Log, status r = s) found)))
              <$> remove_dups ((λ r : Log, status r) <$> found)), w).

(** [getEmailLogById(id)] / [getSmsLogById]. *)
Definition getLogById (log_id : Z) : M World (option Log) :=
  logging_errors (prisma_findUnique log_id).

(** [getEmailLogsByStatus(status, limit = 100)] / [getSmsLogsByStatus]. *)
Definition getLogsByStatus (st : string) (limit : nat) : M World (list Log) :=
  logging_errors
    (prisma_findMany (mkWhere None (Some (StatusIs st)) None None None) Asc 0 limit).

(** [successRate]: the number [0], or the string that [toFixed] makes. *)
Inductive SuccessRate :=
  | RateZero
  | RateFixed (s : string).

Record Statistics := mkStatistics {
  st_total : nat;
  st_sent : nat;
  st_failed : nat;
  st_pending : nat;
  st_successRate : SuccessRate;
}.

(** [((sent / total) * 100).toFixed(2)]: the floating-point arithmetic and
    the number formatting of the JavaScript runtime. *)
Variable percent_toFixed : nat → nat → string.

(** The [where] of [getEmailStatistics] / [getSmsStatistics]:
    [{ tenantId, ...(startDate && endDate && { createdAt: { gte, lte } }) }].
    A [tenantId] that is [undefined] puts no condition on the tenant. *)
Definition statistics_where (tenant : option Z) (startDate endDate : option string) : Where :=
  mkWhere tenant None None None
    (if truthy startDate && truthy endDate then
       Some (mkDateCond (new_Date <$> startDate) (new_Date <$> endDate) None)
     else None).

(** [{ ...where, status: s }] *)
Definition and_status (wh : Where) (s : string) : Where :=
  mkWhere (where_tenantId wh) (Some (StatusIs s)) (where_destination wh) (where_provider wh)
    (where_createdAt wh).

(** [getEmailStatistics(tenantId, startDate, endDate)] / [getSmsStatistics]:
    four counts, which only read. *)
Definition getStatistics (tenant : option Z) (startDate endDate : option string)
  : M World Statistics :=
  logging_errors
    (let where_ := statistics_where tenant startDate endDate in
     total <~ prisma_count where_ ;;
     sent <~ prisma_count (and_status where_ "sent") ;;
     failed <~ prisma_count (and_status where_ "failed") ;;
     pending <~ prisma_count (and_status where_ "pending") ;;
     ret (mkStatistics total sent failed pending
            (if (0 <? total)%nat then RateFixed (percent_toFixed sent total) else RateZero))).

(** [getEmailLogsByRecipient(to, tenantId, limit = 50)] /
    [getSmsLogsByPhone(phone, tenantId, limit = 50)]. *)
Definition getLogsByDestination (dest : string) (tenant : option Z) (limit : nat)
  : M World (list Log) :=
  logging_errors
    (prisma_findMany (mkWhere tenant None (Some dest) None None) Desc 0 limit).

(** [deleteEmailLog(id)] / [deleteSmsLog]: it resolves to [true]. *)
Definition deleteLog (log_id : Z) : M World bool :=
  logging_errors
    (_ <~ prisma_delete log_id ;;
     ret true).

(** [bulkUpdateEmailLogStatus(ids, status, errorMessage = null)] /
    [bulkUpdateSmsLogStatus], resolving to the [count]. *)
Definition bulkUpdateLogStatus (ids : list Z) (st : string) (err : option string)
  : M World nat :=
  logging_errors
    (t <~ Date_now ;;
     prisma_updateMany ids st err t).

(** [getSmsLogsByProvider(provider, tenantId, limit = 100)]. *)
Definition getLogsByProvider (prov : string) (tenant : option Z) (limit : nat)
  : M World (list Log) :=
  logging_errors
    (prisma_findMany (mkWhere tenant None None (Some prov) None) Desc 0 limit).

(** [result[key] = n] on the plain object [result]: the key [__proto__]
    names the accessor of [Object.prototype], whose setter ignores a number,
    so that assignment leaves [result] without such a key. *)
Definition assign_count (result : gmap string nat) (key : string) (n : nat) : gmap string nat :=
  if String.eqb key "__proto__" then result else <[key := n]> result.

(** [getSmsLogsCountByStatus(tenantId)]: an object with a key for each
    status that occurs. *)
Definition getLogsCountByStatus (tenant : option Z) : M World (gmap string nat) :=
  logging_errors
    (counts <~ prisma_groupBy_status (mkWhere tenant None None None None) ;;
     ret (foldl (λ result count, assign_count result count.1 count.2) ∅ counts)).

(** The rows that a [where] selects, in the order asked for. *)
Definition selection (wh : Where) (o : Order) (w : World) : list Log :=
  merge_sort (ordered o) (filter (λ r : Log, matches wh r) (table_rows w)).

(** Every id in the table has been handed out by the sequence already. *)
Definition ids_below (w : World) : Prop :=
  ∀ i c, rows w !! i = Some c → i < nextId w.

(** From [w] to [w']: no row is gone, none has changed tenant, destination,
    content, provider or creation time, and the sequence has not gone back. *)
Definition keeps (w w' : World) : Prop :=
  (∀ i c, rows w !! i = Some c → ∃ c', rows w' !! i = Some c' ∧ same_message c c') ∧
  nextId w ≤ nextId w' ∧
  tenants w' = tenants w.

(** The three statuses of the life cycle. *)
Definition life_cycle (s : string) : Prop :=
  s = "pending" ∨ s = "sent" ∨ s = "failed".

Global Instance life_cycle_dec s : Decision (life_cycle s).
Proof. unfold life_cycle. apply _. Defined.

Definition all_in_life_cycle (w : World) : Prop :=
  ∀ i c, rows w !! i = Some c → life_cycle (status c).

(** From [w] to [w'] nothing is lost, and what held of the ids and of the
    statuses still holds. *)
Definition steady (w w' : World) : Prop :=
  keeps w w' ∧
  (ids_below w → ids_below w') ∧
  (all_in_life_cycle w → all_in_life_cycle w').

(** A row of the tenant given; of any tenant when none is given. *)
Definition of_tenant (tenant : option Z) (c : Columns) : Prop :=
  match tenant with
  | Some t => tenantId c = t
  | None => True
  end.

Global Instance of_tenant_dec tenant c : Decision (of_tenant tenant c).
Proof. destruct tenant; simpl; apply _. Defined.

End Engine.

(* ===================================================================== *)
(** ** The email adapter registry (config/email.js) *)
(* ===================================================================== *)

(** [process.env] *)
Abbreviation Env := (gmap string string).

Module EmailConfig.

(** The persisted columns of an email, and the options that are not. *)
Record EmailContent := mkEmailContent {
  to : string;
  subject : string;
  body : string;
}.

Record Attachment := mkAttachment {
  filename : string;
  att_content : string;
  contentType : option string;
}.

Record EmailExtra := mkEmailExtra {
  html : option string;
  text : option string;
  from : option string;
  replyTo : option string;
  cc : option (list string);
  bcc : option (list string);
  attachments : option (list Attachment);
}.

Definition no_options : EmailExtra := mkEmailExtra None None None None None None None.

(** What [getProviderConfig] returns; an absent key is [None]. *)
Record ProviderConfig := mkProviderConfig {
  pc_host : option string;
  pc_port : option string;
  pc_secure : option bool;
  pc_user : option string;
  pc_pass : option string;
  pc_apiKey : option string;
  pc_rejectUnauthorized : option bool;
}.

Definition empty_config : ProviderConfig :=
  mkProviderConfig None None None None None None None.

(** The argument of [nodemailer.createTransport].  [port] is the string or
    number that the code passes through [Number(...)]. *)
Record TransportOptions := mkTransportOptions {
  to_service : option string;
  to_host : option string;
  to_port : option string;
  to_secure : option bool;
  to_auth_user : option string;
  to_auth_pass : option string;
  to_rejectUnauthorized : option bool;
}.

(** The argument of [transporter.sendMail]. *)
Record MailMessage := mkMailMessage {
  m_from : option string;
  m_to : string;
  m_subject : string;
  m_text : option string;
  m_html : option string;
  m_attachments : option (list Attachment);
  m_replyTo : option string;
  m_cc : option (list string);
  m_bcc : option (list string);
}.

Definition getSupportedProviders : list string := ["smtp"; "gmail"; "sendgrid"; "mailgun"].

Definition dquote : string := String (Ascii.ascii_of_N 34) EmptyString.

(** [escapeHtml]: the five replacements, [&] first. *)
Definition escape_char (c : Ascii.ascii) : string :=
  if Ascii.eqb c "&"%char then "&amp;"
  else if Ascii.eqb c "<"%char then "&lt;"
  else if Ascii.eqb c ">"%char then "&gt;"
  else if Ascii.eqb c (Ascii.ascii_of_N 34) then "&quot;"
  else if Ascii.eqb c "'"%char then "&#39;"
  else String c EmptyString.

Fixpoint escapeHtml (s : string) : string :=
  match s with
  | EmptyString => EmptyString
  | String c s' => escape_char c +:+ escapeHtml s'
  end.

(** [s.replace(/c/g, r)] for one character [c]. *)
Fixpoint replace_all (c : Ascii.ascii) (r : string) (s : string) : string :=
  match s with
  | EmptyString => EmptyString
  | String c' s' =>
      (if Ascii.eqb c' c then r else String c' EmptyString) +:+ replace_all c r s'
  end.

(** [escapeHtml] as [sendEmail] writes it: five replacements over the whole
    string, one after the other. *)
Definition escapeHtml_chain (s : string) : string :=
  replace_all "'"%char "&#39;"
    (replace_all (Ascii.ascii_of_N 34) "&quot;"
       (replace_all ">"%char "&gt;"
          (replace_all "<"%char "&lt;"
             (replace_all "&"%char "&amp;" s)))).

Section Vendor.

(** nodemailer and the mail servers behind it are not part of the
    repository: a transporter, how one is made, and what sending through one
    does to the servers, are left open. *)
Variable Transporter : Type.
Variable Net : Type.
Variable nodemailer_createTransport : TransportOptions → JsError + Transporter.
Variable transporter_sendMail : Transporter → MailMessage → Net → (JsError + option string) * Net.

(** The [EmailConfig] singleton, with the environment it reads and the
    servers it reaches. *)
Record EmailCfg := mkEmailCfg {
  transporters : gmap string Transporter;
  defaultProvider : string;
  env : Env;
  net : Net;
}.

(** [constructor()] *)
Definition new_EmailConfig (e : Env) (n : Net) : EmailCfg :=
  mkEmailCfg ∅ (js_or_str (e !! "EMAIL_DEFAULT_PROVIDER") "smtp") e n.

(** [createTransporter(provider, config)].  After the transporter is made,
    [transporter.verify(callback)] is called; the callback only logs the
    outcome, so nothing of it is left here. *)
Definition createTransporter (e : Env) (provider : string) (config : ProviderConfig)
  : JsError + Transporter :=
  let p := toLowerCase provider in
  if String.eqb p "smtp" then
    nodemailer_createTransport
      (mkTransportOptions None
         (js_or (pc_host config) (e !! "SMTP_HOST"))
         (js_or (pc_port config) (js_or (e !! "SMTP_PORT") (Some "587")))
         (Some (default false (pc_secure config) || bool_decide (e !! "SMTP_SECURE" = Some "true")))
         (js_or (pc_user config) (e !! "SMTP_USER"))
         (js_or (pc_pass config) (e !! "SMTP_PASS"))
         (Some (negb (bool_decide (pc_rejectUnauthorized config = Some false)))))
  else if String.eqb p "gmail" then
    nodemailer_createTransport
      (mkTransportOptions (Some "gmail") None None None
         (js_or (pc_user config) (e !! "GMAIL_USER"))
         (js_or (pc_pass config) (e !! "GMAIL_APP_PASSWORD"))
         None)
  else if String.eqb p "sendgrid" then
    nodemailer_createTransport
      (mkTransportOptions None (Some "smtp.sendgrid.net") (Some "587") (Some false)
         (Some "apikey")
         (js_or (pc_apiKey config) (e !! "SENDGRID_API_KEY"))
         None)
  else if String.eqb p "mailgun" then
    nodemailer_createTransport
      (mkTransportOptions None
         (js_or (pc_host config) (Some "smtp.mailgun.org"))
         (js_or (pc_port config) (Some "587"))
         (Some false)
         (js_or (pc_user config) (e !! "MAILGUN_SMTP_USER"))
         (js_or (pc_pass config) (e !! "MAILGUN_SMTP_PASSWORD"))
         None)
  else
    inl (Error ("Unsupported email provider: " +:+ provider)).

(** [getProviderConfig(provider)]: [configs[provider] || {}]. *)
Definition getProviderConfig (e : Env) (provider : string) : ProviderConfig :=
  if String.eqb provider "smtp" then
    mkProviderConfig (e !! "SMTP_HOST") (e !! "SMTP_PORT")
      (Some (bool_decide (e !! "SMTP_SECURE" = Some "true")))
      (e !! "SMTP_USER") (e !! "SMTP_PASS") None None
  else if String.eqb provider "gmail" then
    mkProviderConfig None None None (e !! "GMAIL_USER") (e !! "GMAIL_APP_PASSWORD") None None
  else if String.eqb provider "sendgrid" then
    mkProviderConfig None None None None None (e !! "SENDGRID_API_KEY") None
  else if String.eqb provider "mailgun" then
    mkProviderConfig (e !! "MAILGUN_SMTP_HOST") (e !! "MAILGUN_SMTP_PORT") None
      (e !! "MAILGUN_SMTP_USER") (e !! "MAILGUN_SMTP_PASSWORD") None None
  else empty_config.

(** [getTransporter(provider = null)] *)
Definition getTransporter (provider : option string) (c : EmailCfg)
  : (JsError + Transporter) * EmailCfg :=
  let providerName := js_or_str provider (defaultProvider c) in
  match transporters c !! providerName with
  | Some transporter => (inr transporter, c)
  | None =>
      let config := getProviderConfig (env c) providerName in
      match createTransporter (env c) providerName config with
      | inr transporter =>
          (inr transporter,
           mkEmailCfg (<[providerName := transporter]> (transporters c))
             (defaultProvider c) (env c) (net c))
      | inl error => (inl error, c)
      end
  end.

(** [sendEmail(options)] *)
Definition sendEmail (provider : option string) (m : EmailContent) (o : EmailExtra) (c : EmailCfg)
  : (JsError + SendResult) * EmailCfg :=
  match getTransporter provider c with
  | (inl error, c1) => (inl error, c1)
  | (inr transporter, c1) =>
      let textBody := js_nullish (text o) (Some (body m)) in
      let htmlBody :=
        js_nullish (html o)
          (if truthy (Some (body m)) then
             Some ("<div style=" +:+ dquote +:+ "white-space:pre-wrap" +:+ dquote +:+ ">"
                   +:+ escapeHtml (body m) +:+ "</div>")
           else None) in
      let '(r, n) :=
        transporter_sendMail transporter
          (mkMailMessage (js_or (from o) (env c1 !! "EMAIL_FROM")) (to m) (subject m)
             textBody htmlBody (attachments o) (replyTo o) (cc o) (bcc o))
          (net c1) in
      let c2 := mkEmailCfg (transporters c1) (defaultProvider c1) (env c1) n in
      match r with
      | inr messageId =>
          (inr (mkSendResult messageId (Some (js_or_str provider (defaultProvider c1)))), c2)
      | inl error => (inl error, c2)
      end
  end.

(** The email channel. *)
Definition types : ChannelTypes := Build_ChannelTypes EmailContent EmailExtra EmailCfg.

Definition channel : Channel types :=
  Build_Channel types no_options to (λ _ provider m o c, sendEmail provider m o c).

End Vendor.
End EmailConfig.

(* ===================================================================== *)
(** ** The SMS adapter registry (config/sms.js) *)
(* ===================================================================== *)

Module SmsConfig.

Record SmsContent := mkSmsContent {
  phone : string;
  sms_message : string;
}.

(** [...otherOptions]: what [sendSms] reads of them. *)
Record SmsExtra := mkSmsExtra {
  sms_from : option string;
  originator : option string;
}.

Definition no_options : SmsExtra := mkSmsExtra None None.

Record ProviderConfig := mkProviderConfig {
  accountSid : option string;
  authToken : option string;
  accessKeyId : option string;
  secretAccessKey : option string;
  region : option string;
  apiKey : option string;
}.

Definition empty_config : ProviderConfig := mkProviderConfig None None None None None None.

(** The argument of [client.messages.create]: as the twilio branch builds
    it, or as the messagebird branch does. *)
Inductive CreateParams :=
  | TwilioParams (body : string) (from : option string) (to : string)
  | MessageBirdParams (originator : option string) (recipients : list string) (body : string).

(** The argument of [client.publish]. *)
Record PublishParams := mkPublishParams {
  Message : string;
  PhoneNumber : string;
}.

(** What a client call resolves to: [sid], [MessageId] or [id]. *)
Record ClientResult := mkClientResult {
  sid : option string;
  MessageId : option string;
  res_id : option string;
}.

Definition getSupportedProviders : list string := ["twilio"; "aws-sns"; "messagebird"].

Definition TypeError (msg : string) : JsError := mkError "TypeError" msg.

(** The environment variables that hold the credentials of a provider, as
    [getProviderConfig] reads them. *)
Definition credential_keys (provider : string) : list string :=
  if String.eqb provider "twilio" then ["TWILIO_ACCOUNT_SID"; "TWILIO_AUTH_TOKEN"]
  else if String.eqb provider "aws-sns" then
    ["AWS_ACCESS_KEY_ID"; "AWS_SECRET_ACCESS_KEY"; "AWS_REGION"]
  else if String.eqb provider "messagebird" then ["MESSAGEBIRD_API_KEY"]
  else [].

Section Vendor.

(** The twilio SDK and the network are not part of the repository. *)
Variable TwilioClient : Type.
Variable Net : Type.
Variable twilio : option string → option string → JsError + TwilioClient.
Variable twilio_messages_create :
  TwilioClient → CreateParams → Net → (JsError + ClientResult) * Net.

(** A client: the twilio one, or one of the two mock objects that
    [createClient] builds in place. *)
Inductive Client :=
  | Twilio (c : TwilioClient)
  | AwsSnsMock
  | MessageBirdMock.

Record SmsCfg := mkSmsCfg {
  clients : gmap string Client;
  defaultProvider : string;
  env : Env;
  net : Net;
}.

(** [constructor()] *)
Definition new_SmsConfig (e : Env) (n : Net) : SmsCfg :=
  mkSmsCfg ∅ (js_or_str (e !! "SMS_DEFAULT_PROVIDER") "twilio") e n.

(** [createClient(provider, config)] *)
Definition createClient (e : Env) (provider : string) (config : ProviderConfig)
  : JsError + Client :=
  let p := toLowerCase provider in
  if String.eqb p "twilio" then
    match twilio (js_or (accountSid config) (e !! "TWILIO_ACCOUNT_SID"))
                 (js_or (authToken config) (e !! "TWILIO_AUTH_TOKEN")) with
    | inr c => inr (Twilio c)
    | inl error => inl error
    end
  else if String.eqb p "aws-sns" then inr AwsSnsMock
  else if String.eqb p "messagebird" then inr MessageBirdMock
  else inl (Error ("Unsupported SMS provider: " +:+ provider)).

(** [getProviderConfig(provider)]: [configs[provider] || {}]. *)
Definition getProviderConfig (e : Env) (provider : string) : ProviderConfig :=
  if String.eqb provider "twilio" then
    mkProviderConfig (e !! "TWILIO_ACCOUNT_SID") (e !! "TWILIO_AUTH_TOKEN") None None None None
  else if String.eqb provider "aws-sns" then
    mkProviderConfig None None (e !! "AWS_ACCESS_KEY_ID") (e !! "AWS_SECRET_ACCESS_KEY")
      (e !! "AWS_REGION") None
  else if String.eqb provider "messagebird" then
    mkProviderConfig None None None None None (e !! "MESSAGEBIRD_API_KEY")
  else empty_config.

(** [getClient(provider = null)] *)
Definition getClient (provider : option string) (c : SmsCfg) : (JsError + Client) * SmsCfg :=
  let providerName := js_or_str provider (defaultProvider c) in
  match clients c !! providerName with
  | Some client => (inr client, c)
  | None =>
      let config := getProviderConfig (env c) providerName in
      match createClient (env c) providerName config with
      | inr client =>
          (inr client,
           mkSmsCfg (<[providerName := client]> (clients c)) (defaultProvider c) (env c) (net c))
      | inl error => (inl error, c)
      end
  end.

(** [client.messages.create(params)], whichever client it is. *)
Definition messages_create (now_ : Z) (client : Client) (params : CreateParams) (n : Net)
  : (JsError + ClientResult) * Net :=
  match client with
  | Twilio c => twilio_messages_create c params n
  | MessageBirdMock => (inr (mkClientResult None None (Some ("mock-" +:+ pretty now_))), n)
  | AwsSnsMock => (inl (TypeError "Cannot read properties of undefined (reading 'create')"), n)
  end.

(** [client.publish(params)], whichever client it is. *)
Definition publish (now_ : Z) (client : Client) (params : PublishParams) (n : Net)
  : (JsError + ClientResult) * Net :=
  match client with
  | AwsSnsMock => (inr (mkClientResult None (Some ("mock-" +:+ pretty now_)) None), n)
  | _ => (inl (TypeError "client.publish is not a function"), n)
  end.

(** [sendSms(options)] *)
Definition sendSms (now_ : Z) (provider : option string) (m : SmsContent) (o : SmsExtra) (c : SmsCfg)
  : (JsError + SendResult) * SmsCfg :=
  match getClient provider c with
  | (inl error, c1) => (inl error, c1)
  | (inr client, c1) =>
      let name := js_or_str provider (defaultProvider c1) in
      let '(r, n) :=
        if String.eqb name "twilio" then
          messages_create now_ client
            (TwilioParams (sms_message m) (js_or (sms_from o) (env c1 !! "TWILIO_PHONE_NUMBER"))
               (phone m))
            (net c1)
        else if String.eqb name "aws-sns" then
          publish now_ client (mkPublishParams (sms_message m) (phone m)) (net c1)
        else if String.eqb name "messagebird" then
          messages_create now_ client
            (MessageBirdParams (js_or (originator o) (env c1 !! "MESSAGEBIRD_ORIGINATOR"))
               [phone m] (sms_message m))
            (net c1)
        else (inl (Error ("Unsupported SMS provider: " +:+ template provider)), net c1) in
      let c2 := mkSmsCfg (clients c1) (defaultProvider c1) (env c1) n in
      match r with
      | inr result =>
          (inr (mkSendResult (js_or (sid result) (js_or (MessageId result) (res_id result)))
                  (Some name)), c2)
      | inl error => (inl error, c2)
      end
  end.

(** An element of the [results] of [sendBulkSms]: [{ phoneNumber, ...result }],
    or [{ phoneNumber, success: false, error: error.message }]. *)
Record BulkSmsResult := mkBulkSmsResult {
  bs_phoneNumber : string;
  bs_outcome : string + SendResult;
}.

(** The loop of [sendBulkSms], from the [k]-th number on; [clock k] is
    [Date.now()] during the [k]-th send.  The other options are spread after
    [phoneNumber] in the object that goes to [sendSms], so a [phoneNumber]
    among them ([phoneNumber_option]) replaces the number of every send,
    though not the number in the result. *)
Fixpoint sendBulkSms_from (clock : nat → Z) (k : nat) (provider : option string)
    (phoneNumbers : list string) (message_ : string) (phoneNumber_option : option string)
    (o : SmsExtra) (c : SmsCfg) : list BulkSmsResult * SmsCfg :=
  match phoneNumbers with
  | [] => ([], c)
  | phoneNumber :: rest =>
      let '(r, c1) :=
        sendSms (clock k) provider
          (mkSmsContent (default phoneNumber phoneNumber_option) message_) o c in
      let result :=
        match r with
        | inr result => mkBulkSmsResult phoneNumber (inr result)
        | inl error => mkBulkSmsResult phoneNumber (inl (message error))
        end in
      let '(results, c2) :=
        sendBulkSms_from clock (S k) provider rest message_ phoneNumber_option o c1 in
      (result :: results, c2)
  end.

(** [sendBulkSms(options)] of the config: one number after the other. *)
Definition sendBulkSms (clock : nat → Z) (provider : option string)
    (phoneNumbers : list string) (message_ : string) (phoneNumber_option : option string)
    (o : SmsExtra) (c : SmsCfg) : (JsError + list BulkSmsResult) * SmsCfg :=
  let '(results, c') :=
    sendBulkSms_from clock 0 provider phoneNumbers message_ phoneNumber_option o c in
  (inr results, c').

(** What it would be for [getClient] to check credentials: with one of the
    provider's keys missing from the environment, the first call fails. *)
Definition checks_credentials (e : Env) (n : Net) (provider : string) : Prop :=
  (∃ key, key ∈ credential_keys provider ∧ e !! key = None) →
  ∃ error c, getClient (Some provider) (new_SmsConfig e n) = (inl error, c).

(** The SMS channel. *)
Definition types : ChannelTypes := Build_ChannelTypes SmsContent SmsExtra SmsCfg.

Definition channel : Channel types := Build_Channel types no_options phone sendSms.

End Vendor.
End SmsConfig.

(* ===================================================================== *)
(** ** The push adapter registry (config/push.js) *)
(* ===================================================================== *)

Module PushConfig.

(** [tokens]: one device token, or an array of them. *)
Inductive Tokens :=
  | OneToken (token : string)
  | TokenArray (tokens : list string).

(** [Array.isArray(tokens) ? tokens : [tokens]] *)
Definition as_array (tokens : Tokens) : list string :=
  match tokens with
  | OneToken token => [token]
  | TokenArray tokens => tokens
  end.

(** [{ title, body, data }] of the options. *)
Record Notification := mkNotification {
  title : string;
  body : string;
  data : option (gmap string string);
}.

Definition getSupportedProviders : list string := ["firebase"; "apns"; "fcm"].

(** [`${provider}`] where the parameter defaults to [null]. *)
Definition template_null (a : option string) : string := default "null" a.

Section Vendor.

(** The JSON parser of the runtime, and what the code asks of the value it
    makes of [FIREBASE_SERVICE_ACCOUNT]: whether it is truthy, and whether
    its [private_key] is, which throws when the value is [null]. *)
Variable ServiceAccount : Type.
Variable JSON_parse : string → JsError + ServiceAccount.
Variable is_truthy : ServiceAccount → bool.
Variable private_key_truthy : ServiceAccount → JsError + bool.

(** [otherOptions], handed on to the vendor as they come. *)
Variable Extra : Type.

(** The message of [sendEachForMulticast]:
    [{ notification: { title, body }, data, tokens, ...otherOptions }]. *)
Record MulticastMessage := mkMulticastMessage {
  mm_title : string;
  mm_body : string;
  mm_data : gmap string string;
  mm_tokens : list string;
  mm_extra : Extra;
}.

(** The message of [messaging.send]:
    [{ notification: { title, body }, data, topic, ...otherOptions }]. *)
Record TopicMessage := mkTopicMessage {
  tm_title : string;
  tm_body : string;
  tm_data : gmap string string;
  tm_topic : string;
  tm_extra : Extra;
}.

(** firebase-admin and the services behind it are not part of the
    repository.  [Net] is their state, the SDK's table of apps included. *)
Variable Credential : Type.
Variable App : Type.
Variable Messaging : Type.
Variable Response : Type.
Variable Net : Type.
Variable credential_cert : ServiceAccount → JsError + Credential.
Variable initializeApp :
  Credential → option string → string → Net → (JsError + App) * Net.
Variable admin_messaging : App → JsError + Messaging.
Variable sendEachForMulticast :
  Messaging → MulticastMessage → Net → (JsError + Response) * Net.
Variable messaging_send : Messaging → TopicMessage → Net → (JsError + Response) * Net.
Variable messaging_subscribeToTopic :
  Messaging → Tokens → string → Net → (JsError + Response) * Net.
Variable messaging_unsubscribeFromTopic :
  Messaging → Tokens → string → Net → (JsError + Response) * Net.

(** A client: [{ messaging, app }], or one of the two mock objects that
    [createClient] builds in place. *)
Inductive Client :=
  | Firebase (messaging : Messaging) (app : App)
  | ApnsMock
  | FcmMock.

(** What a send resolves to: the vendor's response, which is an object, or
    [{ id }] of the apns mock, or [{ name }] of the fcm mock. *)
Inductive PushResult :=
  | VendorResponse (r : Response)
  | MockId (id : string)
  | MockName (name : string).

(** [{ success: true, result, provider }] *)
Record PushSendResult := mkPushSendResult {
  ps_result : PushResult;
  ps_provider : string;
}.

(** The [config] that [createClient] reads: [serviceAccount] and
    [projectId], which only the firebase entry of [configs] has. *)
Record ProviderConfig := mkProviderConfig {
  serviceAccount : option ServiceAccount;
  projectId : option string;
}.

Definition empty_config : ProviderConfig := mkProviderConfig None None.

Record PushCfg := mkPushCfg {
  apps : gmap string Client;
  defaultProvider : string;
  env : Env;
  net : Net;
}.

(** [constructor()] *)
Definition new_PushConfig (e : Env) (n : Net) : PushCfg :=
  mkPushCfg ∅ (js_or_str (e !! "PUSH_DEFAULT_PROVIDER") "firebase") e n.

(** [config.serviceAccount || JSON.parse(process.env.FIREBASE_SERVICE_ACCOUNT || '{}')] *)
Definition serviceAccount_or_env (e : Env) (config : ProviderConfig)
  : JsError + ServiceAccount :=
  let from_env := JSON_parse (js_or_str (e !! "FIREBASE_SERVICE_ACCOUNT") "{}") in
  match serviceAccount config with
  | Some v => if is_truthy v then inr v else from_env
  | None => from_env
  end.

(** [initializeFirebase(config)] *)
Definition initializeFirebase (now_ : Z) (e : Env) (config : ProviderConfig) (n : Net)
  : (JsError + App) * Net :=
  match serviceAccount_or_env e config with
  | inl error => (inl error, n)
  | inr account =>
      match private_key_truthy account with
      | inl error => (inl error, n)
      | inr false => (inl (Error "Firebase service account configuration is missing"), n)
      | inr true =>
          match credential_cert account with
          | inl error => (inl error, n)
          | inr credential =>
              initializeApp credential (js_or (projectId config) (e !! "FIREBASE_PROJECT_ID"))
                ("firebase-" +:+ pretty now_) n
          end
      end
  end.

(** [createClient(provider, config)] *)
Definition createClient (now_ : Z) (e : Env) (provider : string) (config : ProviderConfig)
    (n : Net) : (JsError + Client) * Net :=
  let p := toLowerCase provider in
  if String.eqb p "firebase" then
    match initializeFirebase now_ e config n with
    | (inr app, n1) =>
        match admin_messaging app with
        | inr messaging => (inr (Firebase messaging app), n1)
        | inl error => (inl error, n1)
        end
    | (inl error, n1) => (inl error, n1)
    end
  else if String.eqb p "apns" then (inr ApnsMock, n)
  else if String.eqb p "fcm" then (inr FcmMock, n)
  else (inl (Error ("Unsupported push notification provider: " +:+ provider)), n).

(** [getProviderConfig(provider)]: the object [configs] is built whole,
    whichever provider is asked for, so [FIREBASE_SERVICE_ACCOUNT] is parsed
    whenever it is set; then [configs[provider] || {}], which has a
    [serviceAccount] and a [projectId] for [firebase] only. *)
Definition getProviderConfig (e : Env) (provider : string) : JsError + ProviderConfig :=
  match (match e !! "FIREBASE_SERVICE_ACCOUNT" with
         | Some text =>
             if truthy (Some text) then
               match JSON_parse text with
               | inr v => inr (Some v)
               | inl error => inl error
               end
             else inr None
         | None => inr None
         end) with
  | inr account =>
      inr (if String.eqb provider "firebase"
           then mkProviderConfig account (e !! "FIREBASE_PROJECT_ID")
           else empty_config)
  | inl error => inl error
  end.

(** [getClient(provider = null)] *)
Definition getClient (now_ : Z) (provider : option string) (c : PushCfg)
  : (JsError + Client) * PushCfg :=
  let providerName := js_or_str provider (defaultProvider c) in
  match apps c !! providerName with
  | Some client => (inr client, c)
  | None =>
      match getProviderConfig (env c) providerName with
      | inl error => (inl error, c)
      | inr config =>
          match createClient now_ (env c) providerName config (net c) with
          | (inr client, n) =>
              (inr client,
               mkPushCfg (<[providerName := client]> (apps c)) (defaultProvider c) (env c) n)
          | (inl error, n) => (inl error, mkPushCfg (apps c) (defaultProvider c) (env c) n)
          end
      end
  end.

(** [client.messaging.m(...)], whichever client it is: the mock objects
    have no [messaging]. *)
Definition with_messaging {A} (method : string) (client : Client)
    (call : Messaging → Net → (JsError + A) * Net) (n : Net) : (JsError + A) * Net :=
  match client with
  | Firebase messaging _ => call messaging n
  | _ =>
      (inl (TypeError ("Cannot read properties of undefined (reading '" +:+ method +:+ "')")), n)
  end.

(** [client.send(...)], whichever client it is. *)
Definition client_send (now_ : Z) (client : Client) : JsError + PushResult :=
  match client with
  | ApnsMock => inr (MockId ("mock-" +:+ pretty now_))
  | FcmMock => inr (MockName ("mock-" +:+ pretty now_))
  | Firebase _ _ => inl (TypeError "client.send is not a function")
  end.

Definition with_net (c : PushCfg) (n : Net) : PushCfg :=
  mkPushCfg (apps c) (defaultProvider c) (env c) n.

(** [sendNotification(options)] *)
Definition sendNotification (now_ : Z) (provider : option string) (tokens : Tokens)
    (nt : Notification) (o : Extra) (c : PushCfg) : (JsError + PushSendResult) * PushCfg :=
  match getClient now_ provider c with
  | (inl error, c1) => (inl error, c1)
  | (inr client, c1) =>
      let name := js_or_str provider (defaultProvider c1) in
      let '(r, n) :=
        if String.eqb name "firebase" then
          match with_messaging "sendEachForMulticast" client
                  (λ messaging,
                     sendEachForMulticast messaging
                       (mkMulticastMessage (title nt) (body nt) (default ∅ (data nt))
                          (as_array tokens) o))
                  (net c1) with
          | (inr response, n) => (inr (VendorResponse response), n)
          | (inl error, n) => (inl error, n)
          end
        else if String.eqb name "apns" then (client_send now_ client, net c1)
        else if String.eqb name "fcm" then (client_send now_ client, net c1)
        else
          (inl (Error ("Unsupported push notification provider: " +:+ template provider)),
           net c1) in
      match r with
      | inr result => (inr (mkPushSendResult result name), with_net c1 n)
      | inl error => (inl error, with_net c1 n)
      end
  end.

(** [sendToTopic(options)] *)
Definition sendToTopic (now_ : Z) (provider : option string) (topic : string)
    (nt : Notification) (o : Extra) (c : PushCfg) : (JsError + PushSendResult) * PushCfg :=
  match getClient now_ provider c with
  | (inl error, c1) => (inl error, c1)
  | (inr client, c1) =>
      let name := js_or_str provider (defaultProvider c1) in
      if String.eqb name "firebase" then
        match with_messaging "send" client
                (λ messaging,
                   messaging_send messaging
                     (mkTopicMessage (title nt) (body nt) (default ∅ (data nt)) topic o))
                (net c1) with
        | (inr response, n) =>
            (inr (mkPushSendResult (VendorResponse response) name), with_net c1 n)
        | (inl error, n) => (inl error, with_net c1 n)
        end
      else
        (inl (Error ("Topic messaging not supported for provider: " +:+ template provider)),
         c1)
  end.

(** [subscribeToTopic(tokens, topic, provider = null)] *)
Definition subscribeToTopic (now_ : Z) (tokens : Tokens) (topic : string)
    (provider : option string) (c : PushCfg) : (JsError + Response) * PushCfg :=
  match getClient now_ provider c with
  | (inl error, c1) => (inl error, c1)
  | (inr client, c1) =>
      if String.eqb (js_or_str provider (defaultProvider c1)) "firebase" then
        match with_messaging "subscribeToTopic" client
                (λ messaging, messaging_subscribeToTopic messaging tokens topic) (net c1) with
        | (r, n) => (r, with_net c1 n)
        end
      else
        (inl (Error ("Topic subscription not supported for provider: "
                     +:+ template_null provider)), c1)
  end.

(** [unsubscribeFromTopic(tokens, topic, provider = null)] *)
Definition unsubscribeFromTopic (now_ : Z) (tokens : Tokens) (topic : string)
    (provider : option string) (c : PushCfg) : (JsError + Response) * PushCfg :=
  match getClient now_ provider c with
  | (inl error, c1) => (inl error, c1)
  | (inr client, c1) =>
      if String.eqb (js_or_str provider (defaultProvider c1)) "firebase" then
        match with_messaging "unsubscribeFromTopic" client
                (λ messaging, messaging_unsubscribeFromTopic messaging tokens topic)
                (net c1) with
        | (r, n) => (r, with_net c1 n)
        end
      else
        (inl (Error ("Topic unsubscription not supported for provider: "
                     +:+ template_null provider)), c1)
  end.

End Vendor.
End PushConfig.

(* ===================================================================== *)
(** ** The mailer's templates (utils/mailer.js) *)
(* ===================================================================== *)

Module Mailer.

Definition dquote : string := String (Ascii.ascii_of_N 34) EmptyString.
Definition newline : string := String (Ascii.ascii_of_N 10) EmptyString.

(** The lines of a template literal. *)
Definition lines (l : list string) : string := String.concat newline l.

(** The templates of [getHtmlTemplate] and [getTextTemplate], character for
    character. *)
Definition html_welcome : string :=
  lines
    ["";
     "        <!DOCTYPE html>";
     "        <html>";
     "        <head>";
     "          <meta charset=" +:+ dquote +:+ "utf-8" +:+ dquote +:+ ">";
     "          <title>Welcome</title>";
     "        </head>";
     "        <body>";
     "          <h1>Welcome {{name}}!</h1>";
     "          <p>Thank you for joining us. We're excited to have you on board!</p>";
     "        </body>";
     "        </html>";
     "      "].

Definition html_password_reset : string :=
  lines
    ["";
     "        <!DOCTYPE html>";
     "        <html>";
     "        <head>";
     "          <meta charset=" +:+ dquote +:+ "utf-8" +:+ dquote +:+ ">";
     "          <title>Password Reset</title>";
     "        </head>";
     "        <body>";
     "          <h1>Password Reset Request</h1>";
     "          <p>Click the link below to reset your password:</p>";
     "          <a href=" +:+ dquote +:+ "{{resetUrl}}" +:+ dquote +:+ ">Reset Password</a>";
     "          <p>This link will expire in 1 hour.</p>";
     "        </body>";
     "        </html>";
     "      "].

Definition html_notification : string :=
  lines
    ["";
     "        <!DOCTYPE html>";
     "        <html>";
     "        <head>";
     "          <meta charset=" +:+ dquote +:+ "utf-8" +:+ dquote +:+ ">";
     "          <title>{{title}}</title>";
     "        </head>";
     "        <body>";
     "          <h1>{{title}}</h1>";
     "          <p>{{message}}</p>";
     "        </body>";
     "        </html>";
     "      "].

Definition html_comment_notification : string :=
  lines
    ["";
     "        <!DOCTYPE html>";
     "        <html>";
     "        <head>";
     "          <meta charset=" +:+ dquote +:+ "utf-8" +:+ dquote +:+ ">";
     "          <title>New Comment</title>";
     "        </head>";
     "        <body>";
     "          <h1>New Comment from {{commenterName}}</h1>";
     "          <p>{{comment}}</p>";
     "        </body>";
     "        </html>";
     "      "].

Definition html_mention_notification : string :=
  lines
    ["";
     "        <!DOCTYPE html>";
     "        <html>";
     "        <head>";
     "          <meta charset=" +:+ dquote +:+ "utf-8" +:+ dquote +:+ ">";
     "          <title>You were mentioned</title>";
     "        </head>";
     "        <body>";
     "          <h1>You were mentioned by {{mentionedBy}}</h1>";
     "          <p>{{content}}</p>";
     "        </body>";
     "        </html>";
     "      "].

Definition text_welcome : string :=
  lines
    ["Welcome {{name}}!";
     "";
     "Thank you for joining us. We're excited to have you on board!"].

Definition text_password_reset : string :=
  lines
    ["Password Reset Request";
     "";
     "Click the link below to reset your password:";
     "{{resetUrl}}";
     "";
     "This link will expire in 1 hour."].

Definition text_notification : string :=
  lines
    ["{{title}}";
     "";
     "{{message}}"].

Definition text_comment_notification : string :=
  lines
    ["New Comment from {{commenterName}}";
     "";
     "{{comment}}"].

Definition text_mention_notification : string :=
  lines
    ["You were mentioned by {{mentionedBy}}";
     "";
     "{{content}}"].

(** The keys that every object literal has from [Object.prototype]: looking
    one of them up finds a function (for [__proto__], the prototype itself),
    which is truthy and is not a string. *)
Definition Object_prototype_keys : list string :=
  ["constructor"; "__defineGetter__"; "__defineSetter__"; "hasOwnProperty";
   "__lookupGetter__"; "__lookupSetter__"; "isPrototypeOf"; "propertyIsEnumerable";
   "toString"; "valueOf"; "__proto__"; "toLocaleString"].

(** [getHtmlTemplate(templateName)]:
    [templates[templateName] || templates.notification].  [None] is a value
    that is not a string. *)
Definition getHtmlTemplate (templateName : string) : option string :=
  if String.eqb templateName "welcome" then Some html_welcome
  else if String.eqb templateName "password-reset" then Some html_password_reset
  else if String.eqb templateName "notification" then Some html_notification
  else if String.eqb templateName "comment-notification" then Some html_comment_notification
  else if String.eqb templateName "mention-notification" then Some html_mention_notification
  else if bool_decide (templateName ∈ Object_prototype_keys) then None
  else Some html_notification.

(** [getTextTemplate(templateName)] *)
Definition getTextTemplate (templateName : string) : option string :=
  if String.eqb templateName "welcome" then Some text_welcome
  else if String.eqb templateName "password-reset" then Some text_password_reset
  else if String.eqb templateName "notification" then Some text_notification
  else if String.eqb templateName "comment-notification" then Some text_comment_notification
  else if String.eqb templateName "mention-notification" then Some text_mention_notification
  else if bool_decide (templateName ∈ Object_prototype_keys) then None
  else Some text_notification.

(** [\w]: a letter, a digit or an underscore. *)
Definition is_word_char (c : Ascii.ascii) : bool :=
  let n := Ascii.N_of_ascii c in
  (((48 <=? n) && (n <=? 57)) || ((65 <=? n) && (n <=? 90)) ||
   ((97 <=? n) && (n <=? 122)) || (n =? 95))%N.

(** The longest run of word characters that [s] starts with, and the rest. *)
Fixpoint span_word (s : string) : string * string :=
  match s with
  | EmptyString => (EmptyString, EmptyString)
  | String c s' =>
      if is_word_char c then
        let '(word, rest) := span_word s' in (String c word, rest)
      else (EmptyString, s)
  end.

Definition open_brace : Ascii.ascii := Ascii.ascii_of_N 123.
Definition close_brace : Ascii.ascii := Ascii.ascii_of_N 125.

(** A match of [/\{\{(\w+)\}\}/] at the very start of [s]: the key, and
    what comes after the match.  [\w+] takes the whole run of word
    characters, since no shorter run is followed by a closing brace. *)
Definition placeholder (s : string) : option (string * string) :=
  match s with
  | String c1 (String c2 s1) =>
      if Ascii.eqb c1 open_brace && Ascii.eqb c2 open_brace then
        match span_word s1 with
        | (String k key, String c3 (String c4 rest)) =>
            if Ascii.eqb c3 close_brace && Ascii.eqb c4 close_brace
            then Some (String k key, rest)
            else None
        | _ => None
        end
      else None
  | _ => None
  end.

(** [content.replace(/\{\{(\w+)\}\}/g, (match, key) => data[key] || match)],
    from left to right; what is put in is not looked at again.  With [data]
    undefined the first match throws.  [fuel] bounds the number of steps;
    the length of the content is enough. *)
Fixpoint replace_placeholders (fuel : nat) (data : option (gmap string string)) (s : string)
  : JsError + string :=
  match fuel with
  | O => inr s
  | S fuel' =>
      match placeholder s with
      | Some (key, rest) =>
          match data with
          | None =>
              inl (TypeError ("Cannot read properties of undefined (reading '" +:+ key +:+ "')"))
          | Some d =>
              match replace_placeholders fuel' data rest with
              | inr out => inr (js_or_str (d !! key) ("{{" +:+ key +:+ "}}") +:+ out)
              | inl error => inl error
              end
          end
      | None =>
          match s with
          | EmptyString => inr EmptyString
          | String c s' =>
              match replace_placeholders fuel' data s' with
              | inr out => inr (String c out)
              | inl error => inl error
              end
          end
      end
  end.

(** [format === 'html'], or any other format. *)
Inductive Format := Html | Text.

(** [renderTemplate(template, data, format = 'html')].  The keys of the
    placeholders in the templates are none of those of [Object.prototype],
    so [data[key]] is the entry of [data] or [undefined]. *)
Definition renderTemplate (template : string) (data : option (gmap string string))
    (format : Format) : JsError + string :=
  match (match format with
         | Html => getHtmlTemplate template
         | Text => getTextTemplate template
         end) with
  | Some templateContent =>
      replace_placeholders (String.length templateContent) data templateContent
  | None => inl (TypeError "templateContent.replace is not a function")
  end.

End Mailer.

(* ===================================================================== *)
(** ** The two services *)
(* ===================================================================== *)

Section Services.

Variable Transporter : Type.
Variable MailNet : Type.
Variable nodemailer_createTransport : EmailConfig.TransportOptions → JsError + Transporter.
Variable transporter_sendMail :
  Transporter → EmailConfig.MailMessage → MailNet → (JsError + option string) * MailNet.

Variable TwilioClient : Type.
Variable SmsNet : Type.
Variable twilio : option string → option string → JsError + TwilioClient.
Variable twilio_messages_create :
  TwilioClient → SmsConfig.CreateParams → SmsNet → (JsError + SmsConfig.ClientResult) * SmsNet.

Definition email_types : ChannelTypes := EmailConfig.types Transporter MailNet.
Definition sms_types : ChannelTypes := SmsConfig.types TwilioClient SmsNet.

Definition email : Channel email_types :=
  EmailConfig.channel Transporter MailNet nodemailer_createTransport transporter_sendMail.

Definition sms : Channel sms_types :=
  SmsConfig.channel TwilioClient SmsNet twilio twilio_messages_create.

(** [EmailService] *)
Definition sendEmail := sendOne (ch := email).
Definition sendBulkEmails := sendBulk (ch := email).
Definition processEmailBatch := processBatch (ch := email).
Definition retryFailedEmails := retryFailed (ch := email).
Definition cleanupOldEmailLogs := cleanupOld (ch := email).

(** [SmsService] *)
Definition sendSms := sendOne (ch := sms).
Definition processSmsBatch := processBatch (ch := sms).
Definition retryFailedSms := retryFailed (ch := sms).
Definition cleanupOldSmsLogs := cleanupOld (ch := sms).

(** The argument of [sendBulkSms]: phone numbers and one message. *)
Record BulkSmsData := mkBulkSmsData {
  phoneNumbers : list string;
  bulk_message : string;
  bulk_tenantId : Z;
  bulk_provider : option string;
  bulk_batchSize : option nat;
  bulk_delay : option nat;
}.

Definition sendBulkSms (d : BulkSmsData) :=
  sendBulk (ch := sms)
    (mkBulkData (ty := sms_types)
       ((λ phoneNumber,
           mkItem (ty := sms_types) (SmsConfig.mkSmsContent phoneNumber (bulk_message d))
             SmsConfig.no_options) <$> phoneNumbers d)
       (bulk_tenantId d) (bulk_provider d) (bulk_batchSize d) (bulk_delay d)).

(** *** Templated emails *)

(** [prisma.emailLog.create] on data that lack a required column: the
    column [body] is NOT NULL and has no default (migration.sql), and the
    client rejects the call before it reaches the database. *)
Definition missing_argument (name : string) : JsError :=
  mkError "PrismaClientValidationError" ("Argument `" +:+ name +:+ "` is missing.").

(** [sendEmail(emailData)] on an object that may have no [body]: then
    [createEmailLog] throws what Prisma threw, and so does [sendEmail]. *)
Definition sendEmail_object (tenant : Z) (to_ subject_ : string) (body_ : option string)
    (prov : option string) (o : EmailConfig.EmailExtra) : M (World (ty := email_types)) SendOk :=
  match body_ with
  | Some b =>
      sendEmail (mkSendData (ty := email_types) tenant
                   (EmailConfig.mkEmailContent to_ subject_ b) prov o)
  | None => logging_errors (logging_errors (throw (missing_argument "body")))
  end.

(** The argument of [sendTemplatedEmail]. *)
Record TemplatedEmailData := mkTemplatedEmailData {
  te_tenantId : Z;
  te_to : string;
  te_subject : string;
  te_template : string;
  te_data : option (gmap string string);
  te_body : option string;
  te_provider : option string;
  te_options : EmailConfig.EmailExtra;
}.

(** [{ ...emailOptions, html, text }] *)
Definition with_html_text (o : EmailConfig.EmailExtra) (html_ text_ : string)
  : EmailConfig.EmailExtra :=
  EmailConfig.mkEmailExtra (Some html_) (Some text_) (EmailConfig.from o)
    (EmailConfig.replyTo o) (EmailConfig.cc o) (EmailConfig.bcc o) (EmailConfig.attachments o).

(** [sendTemplatedEmail(emailData)] *)
Definition sendTemplatedEmail (d : TemplatedEmailData) : M (World (ty := email_types)) SendOk :=
  logging_errors
    (html_ <~ of_result (Mailer.renderTemplate (te_template d) (te_data d) Mailer.Html) ;;
     text_ <~ of_result (Mailer.renderTemplate (te_template d) (te_data d) Mailer.Text) ;;
     sendEmail_object (te_tenantId d) (te_to d) (te_subject d) (te_body d) (te_provider d)
       (with_html_text (te_options d) html_ text_)).

(** [...options]: the keys of the request that the caller may add, and that
    override those set before them in the object literal. *)
Record TemplateOptions := mkTemplateOptions {
  o_subject : option string;
  o_template : option string;
  o_data : option (gmap string string);
  o_body : option string;
  o_provider : option string;
  o_extra : EmailConfig.EmailExtra;
}.

Definition no_template_options : TemplateOptions :=
  mkTemplateOptions None None None None None EmailConfig.no_options.

(** [{ tenantId, to, subject, template, data, ...options }] *)
Definition templated (tenant : Z) (to_ subject_ template_ : string)
    (data : gmap string string) (o : TemplateOptions) : TemplatedEmailData :=
  mkTemplatedEmailData tenant to_ (default subject_ (o_subject o))
    (default template_ (o_template o)) (Some (default data (o_data o)))
    (o_body o) (o_provider o) (o_extra o).

(** [sendWelcomeEmail({ tenantId, to, name, ...options })] *)
Definition sendWelcomeEmail (tenant : Z) (to_ name : string) (o : TemplateOptions)
  : M (World (ty := email_types)) SendOk :=
  logging_errors
    (sendTemplatedEmail (templated tenant to_ "Welcome!" "welcome" {[ "name" := name ]} o)).

(** [sendPasswordResetEmail({ tenantId, to, resetToken, baseUrl, ...options })] *)
Definition sendPasswordResetEmail (tenant : Z) (to_ resetToken baseUrl : string)
    (o : TemplateOptions) : M (World (ty := email_types)) SendOk :=
  logging_errors
    (sendTemplatedEmail
       (templated tenant to_ "Password Reset Request" "password-reset"
          (<[ "resetToken" := resetToken ]>
             {[ "resetUrl" := baseUrl +:+ "/reset-password?token=" +:+ resetToken ]}) o)).

(** [sendNotificationEmail({ tenantId, to, title, message, ...options })] *)
Definition sendNotificationEmail (tenant : Z) (to_ title message_ : string)
    (o : TemplateOptions) : M (World (ty := email_types)) SendOk :=
  logging_errors
    (sendTemplatedEmail
       (templated tenant to_ title "notification"
          (<[ "title" := title ]> {[ "message" := message_ ]}) o)).

(** *** The SMS shortcuts *)

(** [sendSmsNotification(notificationData)]: the same object goes to [sendSms]. *)
Definition sendSmsNotification (d : SendData (ty := sms_types))
  : M (World (ty := sms_types)) SendOk :=
  logging_errors (sendSms d).

(** [sendVerificationSms({ tenantId, phoneNumber, verificationCode, ...options })]:
    the options are spread after [message] in the object that goes to
    [sendSms], so a [message] among them ([message_option]) replaces the
    one made from the code. *)
Definition sendVerificationSms (tenant : Z) (phoneNumber : string)
    (verificationCode : option string) (message_option : option string)
    (prov : option string) (o : SmsConfig.SmsExtra)
  : M (World (ty := sms_types)) SendOk :=
  logging_errors
    (let message_ :=
       "Your verification code is: " +:+ template verificationCode
       +:+ ". This code will expire in 10 minutes." in
     sendSms (mkSendData (ty := sms_types) tenant
                (SmsConfig.mkSmsContent phoneNumber (default message_ message_option))
                prov o)).

(** [sendAlertSms({ tenantId, phoneNumber, alertType, message, ...options })]:
    [alertType.toUpperCase()] throws when there is no [alertType]. *)
Definition sendAlertSms (tenant : Z) (phoneNumber : string) (alertType : option string)
    (message_ : option string) (prov : option string) (o : SmsConfig.SmsExtra)
  : M (World (ty := sms_types)) SendOk :=
  logging_errors
    (match alertType with
     | None =>
         throw (TypeError "Cannot read properties of undefined (reading 'toUpperCase')")
     | Some alertType_ =>
         let alertMessage :=
           "ALERT [" +:+ toUpperCase alertType_ +:+ "]: " +:+ template message_ in
         sendSms (mkSendData (ty := sms_types) tenant
                    (SmsConfig.mkSmsContent phoneNumber alertMessage) prov o)
     end).

End Services.

(* ===================================================================== *)
(** ** Mocked vendors *)
(* ===================================================================== *)

(** Vendors for running the code on concrete inputs: a mail transport and a
    twilio client that refuse exactly the destinations containing "bad" and
    accept the others with a fixed message id. *)
Module Mock.

Definition createTransport (o : EmailConfig.TransportOptions)
  : JsError + EmailConfig.TransportOptions := inr o.

Definition sendMail (t : EmailConfig.TransportOptions) (m : EmailConfig.MailMessage) (n : unit)
  : (JsError + option string) * unit :=
  if includes "bad" (EmailConfig.m_to m)
  then (inl (Error "550 mailbox unavailable"), n)
  else (inr (Some "abc123"), n).

(** The twilio constructor insists on an account sid. *)
Definition twilio (accountSid authToken : option string) : JsError + unit :=
  if truthy accountSid then inr () else inl (Error "username is required").

Definition twilio_create (c : unit) (p : SmsConfig.CreateParams) (n : unit)
  : (JsError + SmsConfig.ClientResult) * unit :=
  match p with
  | SmsConfig.TwilioParams _ _ to_ =>
      if includes "bad" to_
      then (inl (Error "The 'To' number is not a valid phone number."), n)
      else (inr (SmsConfig.mkClientResult (Some "SM123") None None), n)
  | SmsConfig.MessageBirdParams _ _ _ =>
      (inl (Error "A 'To' phone number is required."), n)
  end.

Definition email_types : ChannelTypes := email_types EmailConfig.TransportOptions unit.
Definition sms_types : ChannelTypes := sms_types unit unit.

Definition email : Channel email_types := email _ _ createTransport sendMail.
Definition sms : Channel sms_types := sms _ _ twilio twilio_create.

Definition world {ty : ChannelTypes} (c : Cfg) : World :=
  mkWorld ∅ 1 {[ 1 ]} 1700000000000 c [].

(** Tenant 1 exists, the table is empty, nothing is configured. *)
Definition email_world : World (ty := email_types) :=
  world (ty := email_types) (EmailConfig.new_EmailConfig _ _ ∅ ()).

Definition sms_world : World (ty := sms_types) :=
  world (ty := sms_types) (SmsConfig.new_SmsConfig _ _ ∅ ()).

Definition mail (to_ : string) : EmailConfig.EmailContent :=
  EmailConfig.mkEmailContent to_ "Hi" "Test".

Definition mail_item (to_ : string) : Item (ty := email_types) :=
  mkItem (ty := email_types) (mail to_) EmailConfig.no_options.

(** A bulk send to these addresses for tenant 1, with the default provider
    and delay. *)
Definition bulk (tos : list string) (size : nat) : BulkData (ty := email_types) :=
  mkBulkData (ty := email_types) (mail_item <$> tos) 1 None (Some size) None.

(** A row of that age in hours, for seeding the table. *)
Definition seeded (to_ st : string) (hours : Z) : Columns (ty := email_types) :=
  mkColumns (ty := email_types) 1 (mail to_) st (Some "smtp") None
    (1700000000000 - hours * 60 * 60 * 1000) (1700000000000 - hours * 60 * 60 * 1000).

Definition seed (table : list (Z * Columns (ty := email_types))) : World (ty := email_types) :=
  mkWorld (ty := email_types) (list_to_map table) (Z.of_nat (length table) + 1) {[ 1 ]}
    1700000000000 (EmailConfig.new_EmailConfig _ _ ∅ ()) [].

End Mock.

(** For the push registry: a parser that knows the empty object and nothing
    else, and a firebase SDK that accepts everything.  A service account is
    its [private_key], if it has one. *)
Module MockPush.

Definition JSON_parse (text : string) : JsError + option string :=
  if String.eqb text "{}" then inr None
  else inl (mkError "SyntaxError" "Unexpected token in JSON").

Definition is_truthy (account : option string) : bool := true.

Definition private_key_truthy (account : option string) : JsError + bool :=
  inr (truthy account).

Definition credential_cert (account : option string) : JsError + unit := inr ().

Definition initializeApp (credential : unit) (projectId : option string) (name : string)
    (n : unit) : (JsError + unit) * unit := (inr (), n).

Definition admin_messaging (app : unit) : JsError + unit := inr ().

Definition sendEachForMulticast (messaging : unit) (m : PushConfig.MulticastMessage unit)
    (n : unit) : (JsError + unit) * unit := (inr (), n).

Definition getClient :=
  PushConfig.getClient _ JSON_parse is_truthy private_key_truthy _ _ _ _
    credential_cert initializeApp admin_messaging.

Definition sendNotification :=
  PushConfig.sendNotification _ JSON_parse is_truthy private_key_truthy _ _ _ _ _ _
    credential_cert initializeApp admin_messaging sendEachForMulticast.

(** A registry with this text in [FIREBASE_SERVICE_ACCOUNT]. *)
Definition with_account (text : string) : PushConfig.PushCfg unit unit unit :=
  PushConfig.new_PushConfig _ _ _ {[ "FIREBASE_SERVICE_ACCOUNT" := text ]} ().

End MockPush.

(* ===================================================================== *)
(** * Properties *)
(* ===================================================================== *)

Section EngineFacts.
Context {ty : ChannelTypes} {ch : Channel ty}.

Implicit Types (w : World) (log : Log) (d : SendData).

(** ** The repository, call by call *)

Lemma logging_errors_id {A} (m : M World A) w : logging_errors m w = m w.
Proof. unfold logging_errors, try_catch, throw. by destruct (m w) as [[e|a] w']. Qed.

Lemma createLog_inr ld w log w1 :
  createLog ld w = (inr log, w1) →
  log = new_row ld w ∧ w1 = created ld w ∧ rows w !! nextId w = None ∧ ld_tenantId ld ∈ tenants w.
Proof.
  unfold createLog. rewrite logging_errors_id. unfold prisma_create. simpl.
  case_bool_decide as Ht; [|done].
  destruct (rows w !! nextId w) eqn:Hfree; [done|].
  intros [= <- <-]. done.
Qed.

Lemma createLog_inl ld w e w1 :
  createLog ld w = (inl e, w1) → w1 = set_nextId (nextId w + 1) w.
Proof.
  unfold createLog. rewrite logging_errors_id. unfold prisma_create. simpl.
  case_bool_decide; [destruct (rows w !! nextId w)|]; by intros [= _ <-].
Qed.

Lemma createLog_fresh ld w :
  rows w !! nextId w = None → ld_tenantId ld ∈ tenants w →
  createLog ld w = (inr (new_row ld w), created ld w).
Proof.
  intros Hfree Ht. unfold createLog. rewrite logging_errors_id. unfold prisma_create.
  simpl. rewrite bool_decide_eq_true_2 by done. by rewrite Hfree.
Qed.

Lemma updateLogStatus_found i st err w (r : Columns) :
  rows w !! i = Some r →
  updateLogStatus i st err w
  = (inr (mkLog i (with_status r st err (now w))), status_written i r st err w).
Proof.
  intros Hr. unfold updateLogStatus. rewrite logging_errors_id.
  unfold bind, Date_now, prisma_update. by rewrite Hr.
Qed.

Lemma updateLogStatus_missing i st err w :
  rows w !! i = None →
  updateLogStatus i st err w
  = (inl (mkError "PrismaClientKnownRequestError" "Record to update not found."), w).
Proof.
  intros Hr. unfold updateLogStatus. rewrite logging_errors_id.
  unfold bind, Date_now, prisma_update. by rewrite Hr.
Qed.

(** The adapter call touches the registry and the trace, nothing else. *)
Lemma adapter_send_world rq w :
  (adapter_send rq w).2
  = set_cfg (config_send (now w) (rq_provider rq) (rq_content rq) (rq_extra rq) (cfg w)).2
      (emit (EvSend rq (rows w)) w).
Proof. unfold adapter_send. by destruct (config_send _ _ _ _ _). Qed.

Lemma adapter_send_result rq w :
  (adapter_send rq w).1
  = (config_send (now w) (rq_provider rq) (rq_content rq) (rq_extra rq) (cfg w)).1.
Proof. unfold adapter_send. by destruct (config_send _ _ _ _ _). Qed.

(** ** [sendOne], outcome by outcome *)

Lemma sendOne_create_fails d w e w1 :
  createLog (pending_data d) w = (inl e, w1) → sendOne d w = (inl e, w1).
Proof.
  intros Hc. unfold sendOne. rewrite logging_errors_id. unfold bind.
  fold (pending_data d). by rewrite Hc.
Qed.

Lemma sendOne_sent d w log w1 res w2 :
  createLog (pending_data d) w = (inr log, w1) →
  adapter_send (request_of d) w1 = (inr res, w2) →
  sendOne d w
  = (inr (mkSendOk (id log) (sr_messageId res) (sr_provider res)),
     status_written (id log) log "sent" None w2).
Proof.
  intros Hc Hs. unfold sendOne. rewrite logging_errors_id. unfold bind at 1.
  fold (pending_data d) (request_of d). rewrite Hc.
  apply createLog_inr in Hc as (Hlog & Hw1 & _ & _).
  assert (rows w2 !! id log = Some (columns log)) as Hrow.
  { pose proof (adapter_send_world (request_of d) w1) as Hw. rewrite Hs in Hw. simpl in Hw.
    rewrite Hw, Hw1, Hlog. simpl. by rewrite lookup_insert_eq. }
  unfold try_catch, bind. rewrite Hs.
  by rewrite (updateLogStatus_found _ _ _ _ _ Hrow).
Qed.

Lemma sendOne_failed d w log w1 e w2 :
  createLog (pending_data d) w = (inr log, w1) →
  adapter_send (request_of d) w1 = (inl e, w2) →
  sendOne d w = (inl e, status_written (id log) log "failed" (Some (message e)) w2).
Proof.
  intros Hc Hs. unfold sendOne. rewrite logging_errors_id. unfold bind at 1.
  fold (pending_data d) (request_of d). rewrite Hc.
  apply createLog_inr in Hc as (Hlog & Hw1 & _ & _).
  assert (rows w2 !! id log = Some (columns log)) as Hrow.
  { pose proof (adapter_send_world (request_of d) w1) as Hw. rewrite Hs in Hw. simpl in Hw.
    rewrite Hw, Hw1, Hlog. simpl. by rewrite lookup_insert_eq. }
  unfold try_catch, bind. rewrite Hs.
  by rewrite (updateLogStatus_found _ _ _ _ _ Hrow).
Qed.

(** ** The failure path and the order of steps of [sendOne] *)

(** C1.  When the adapter call of a [sendOne] throws [e]: the row created for
    this attempt is overwritten with status [failed] and [errorMessage] the
    message of [e], after the adapter call was issued, and [sendOne] throws
    that same [e]. *)
Theorem sendOne_failure_recorded_and_raised d w log w1 e c :
  createLog (pending_data d) w = (inr log, w1) →
  config_send (now w1) (sd_provider d) (sd_content d) (sd_extra d) (cfg w1) = (inl e, c) →
  (sendOne d w).1 = inl e ∧
  status log = "pending" ∧
  rows (sendOne d w).2 !! id log
    = Some (with_status log "failed" (Some (message e)) (now w)) ∧
  trace (sendOne d w).2
    = trace w ++ [EvCreate log; EvSend (request_of d) (rows w1);
                  EvStatus (id log) "pending" "failed"].
Proof.
  intros Hc Hs.
  assert (adapter_send (request_of d) w1
          = (inl e, set_cfg c (emit (EvSend (request_of d) (rows w1)) w1))) as Ha.
  { unfold adapter_send. simpl. by rewrite Hs. }
  rewrite (sendOne_failed _ _ _ _ _ _ Hc Ha).
  apply createLog_inr in Hc as (-> & -> & _ & _). simpl.
  split_and!; [done|done|by rewrite lookup_insert_eq|].
  by rewrite <-!app_assoc.
Qed.

(** C2.  In the events of a [sendOne] call, an adapter call is preceded by
    exactly one event, the creation of the row of this attempt: a row that
    was not in the table before, with status [pending], and that is in the
    table, still [pending], when the adapter call is issued.  So no adapter
    call is issued for an attempt without a row. *)
Theorem sendOne_log_precedes_dispatch d w :
  ∃ evs, trace (sendOne d w).2 = trace w ++ evs ∧
    ∀ pre rq table post, evs = pre ++ EvSend rq table :: post →
      ∃ log, pre = [EvCreate log] ∧
             rows w !! id log = None ∧
             tenantId log = sd_tenantId d ∧ content log = sd_content d ∧
             status log = "pending" ∧
             table !! id log = Some (columns log).
Proof.
  destruct (createLog (pending_data d) w) as [[e|log] w1] eqn:Hc.
  - rewrite (sendOne_create_fails _ _ _ _ Hc).
    apply createLog_inl in Hc as ->. exists []. split; [by rewrite app_nil_r|].
    intros [|??] ???; discriminate.
  - destruct (adapter_send (request_of d) w1) as [[e|res] w2] eqn:Ha.
    + rewrite (sendOne_failed _ _ _ _ _ _ Hc Ha).
      pose proof (adapter_send_world (request_of d) w1) as Hw. rewrite Ha in Hw.
      simpl in Hw. subst w2.
      apply createLog_inr in Hc as (-> & -> & Hfree & _).
      eexists [_; _; _]. split; [simpl; by rewrite <-!app_assoc|].
      intros [|? [|? [|? [|??]]]] ??? [=]; simplify_eq.
      eexists. split_and!; try done. simpl. by rewrite lookup_insert_eq.
    + rewrite (sendOne_sent _ _ _ _ _ _ Hc Ha).
      pose proof (adapter_send_world (request_of d) w1) as Hw. rewrite Ha in Hw.
      simpl in Hw. subst w2.
      apply createLog_inr in Hc as (-> & -> & Hfree & _).
      eexists [_; _; _]. split; [simpl; by rewrite <-!app_assoc|].
      intros [|? [|? [|? [|??]]]] ??? [=]; simplify_eq.
      eexists. split_and!; try done. simpl. by rewrite lookup_insert_eq.
Qed.

(** ** Worlds that evolve *)

Lemma evolves_same w w' : trace w' = trace w → rows w' = rows w → evolves w w'.
Proof. intros Ht Hr. split; [exists []; by rewrite app_nil_r|by rewrite Hr]. Qed.

Lemma evolves_refl w : evolves w w.
Proof. by apply evolves_same. Qed.

Lemma evolves_trans w1 w2 w3 : evolves w1 w2 → evolves w2 w3 → evolves w1 w3.
Proof.
  intros [(evs1 & Ht1 & Hl1) Hs1] [(evs2 & Ht2 & Hl2) Hs2]. split.
  - exists (evs1 ++ evs2). rewrite Ht2, Ht1, <-app_assoc. split; [done|].
    by apply Forall_app.
  - intros i c Hi Hc. apply Hs2; [|done]. by apply Hs1.
Qed.

Lemma allowed_pending_sent : allowed "pending" "sent".
Proof. left. done. Qed.
Lemma allowed_pending_failed : allowed "pending" "failed".
Proof. right; left. done. Qed.
Lemma allowed_failed_pending : allowed "failed" "pending".
Proof. right; right. done. Qed.

Create HintDb lawful.
#[local] Hint Resolve allowed_pending_sent allowed_pending_failed allowed_failed_pending : lawful.

Ltac lawful_events :=
  repeat first [apply Forall_nil_2 | apply Forall_cons_2]; simpl; auto with lawful.

Lemma new_row_pending d w : status (new_row (pending_data d) w) = "pending".
Proof. done. Qed.

Lemma sendOne_evolves d w : evolves w (sendOne d w).2.
Proof.
  destruct (createLog (pending_data d) w) as [[e|log] w1] eqn:Hc.
  { rewrite (sendOne_create_fails _ _ _ _ Hc). apply createLog_inl in Hc as ->.
    by apply evolves_same. }
  assert (∀ i c, rows w !! i = Some c → i ≠ id log) as Hne.
  { apply createLog_inr in Hc as (-> & _ & Hfree & _). intros i c Hi ->. simpl in Hi.
    congruence. }
  destruct (adapter_send (request_of d) w1) as [[e|res] w2] eqn:Ha.
  - rewrite (sendOne_failed _ _ _ _ _ _ Hc Ha).
    pose proof (adapter_send_world (request_of d) w1) as Hw. rewrite Ha in Hw.
    simpl in Hw. subst w2. apply createLog_inr in Hc as (-> & -> & Hfree & _). split.
    + eexists [_; _; _]. simpl. rewrite <-!app_assoc. split; [done|].
      lawful_events.
    + intros i c Hi _. simpl. specialize (Hne i c Hi). simpl in Hne.
      by rewrite !lookup_insert_ne.
  - rewrite (sendOne_sent _ _ _ _ _ _ Hc Ha).
    pose proof (adapter_send_world (request_of d) w1) as Hw. rewrite Ha in Hw.
    simpl in Hw. subst w2. apply createLog_inr in Hc as (-> & -> & Hfree & _). split.
    + eexists [_; _; _]. simpl. rewrite <-!app_assoc. split; [done|].
      lawful_events.
    + intros i c Hi _. simpl. specialize (Hne i c Hi). simpl in Hne.
      by rewrite !lookup_insert_ne.
Qed.

(** ** The retry sweep *)

Lemma for_of_cons {A R} (x : A) xs (body : A → M World R) w :
  for_of (x :: xs) body w
  = match body x w with
    | (inr r, w1) =>
        match for_of xs body w1 with
        | (inr rs, w2) => (inr (r :: rs), w2)
        | (inl e, w2) => (inl e, w2)
        end
    | (inl e, w1) => (inl e, w1)
    end.
Proof.
  simpl. unfold bind. destruct (body x w) as [[e|r] w1]; [done|].
  by destruct (for_of xs body w1) as [[e|rs] w2].
Qed.

(** One replay, on a row that is in the table. *)
Lemma retry_one_eq log w c :
  rows w !! id log = Some c →
  retry_one log w
  = let w1 := status_written (id log) c "pending" None w in
    let c1 := with_status c "pending" None (now w) in
    match adapter_send (mkRequest (provider log) (content log) noExtra) w1 with
    | (inr res, w2) =>
        (inr (mkRetryResult (id log) (inr (sr_messageId res))),
         status_written (id log) c1 "sent" None w2)
    | (inl e, w2) =>
        (inr (mkRetryResult (id log) (inl (message e))),
         status_written (id log) c1 "failed" (Some (message e)) w2)
    end.
Proof.
  intros Hrow. unfold retry_one, try_catch. unfold bind at 1.
  rewrite (updateLogStatus_found _ _ _ _ _ Hrow). simpl.
  set (w1 := status_written (id log) c "pending" None w).
  set (rq := mkRequest (provider log) (content log) noExtra).
  unfold bind at 1.
  pose proof (adapter_send_world rq w1) as Hw2.
  destruct (adapter_send rq w1) as [[e|res] w2] eqn:Ha; simpl in Hw2.
  - assert (rows w2 !! id log = Some (with_status c "pending" None (now w))) as Hrow2.
    { rewrite Hw2. subst w1. simpl. by rewrite lookup_insert_eq. }
    unfold bind. by rewrite (updateLogStatus_found _ _ _ _ _ Hrow2).
  - assert (rows w2 !! id log = Some (with_status c "pending" None (now w))) as Hrow2.
    { rewrite Hw2. subst w1. simpl. by rewrite lookup_insert_eq. }
    unfold bind. by rewrite (updateLogStatus_found _ _ _ _ _ Hrow2).
Qed.

Lemma retry_one_spec log w c :
  rows w !! id log = Some c → status c = "failed" →
  ∃ res evs c',
    (retry_one log w).1 = inr res ∧ rr_logId res = id log ∧
    replayed log evs ∧
    trace (retry_one log w).2 = trace w ++ evs ∧
    rows (retry_one log w).2 = <[id log := c']> (rows w) ∧
    (status c' = "sent" ∨ status c' = "failed") ∧ same_message c c' ∧
    nextId (retry_one log w).2 = nextId w ∧ now (retry_one log w).2 = now w ∧
    tenants (retry_one log w).2 = tenants w.
Proof.
  intros Hrow Hst. rewrite (retry_one_eq _ _ _ Hrow). simpl.
  set (w1 := status_written (id log) c "pending" None w).
  set (rq := mkRequest (provider log) (content log) noExtra).
  pose proof (adapter_send_world rq w1) as Hw2.
  destruct (adapter_send rq w1) as [[e|res] w2] eqn:Ha; simpl in Hw2; subst w2.
  - eexists _, _, (with_status (with_status c "pending" None (now w)) "failed"
                      (Some (message e)) (now w)).
    split_and!; try done.
    + eexists _, "failed". split; [by right|done].
    + simpl. by rewrite Hst, <-!app_assoc.
    + simpl. by rewrite insert_insert_eq.
    + by right.
  - eexists _, _, (with_status (with_status c "pending" None (now w)) "sent" None (now w)).
    split_and!; try done.
    + eexists _, "sent". split; [by left|done].
    + simpl. by rewrite Hst, <-!app_assoc.
    + simpl. by rewrite insert_insert_eq.
    + by left.
Qed.

(** The loop of the sweep, over rows that are in the table, [failed], and
    pairwise distinct. *)
Lemma retry_loop l : ∀ w,
  NoDup (id <$> l) →
  (∀ log, log ∈ l → ∃ c, rows w !! id log = Some c ∧ status c = "failed") →
  ∃ results groups,
    (for_of l retry_one w).1 = inr results ∧
    rr_logId <$> results = id <$> l ∧
    Forall2 replayed l groups ∧
    trace (for_of l retry_one w).2 = trace w ++ concat groups ∧
    dom (rows (for_of l retry_one w).2) = dom (rows w) ∧
    nextId (for_of l retry_one w).2 = nextId w ∧
    now (for_of l retry_one w).2 = now w ∧
    (∀ i, i ∉ id <$> l → rows (for_of l retry_one w).2 !! i = rows w !! i) ∧
    (∀ log, log ∈ l → ∃ c c',
       rows w !! id log = Some c ∧ rows (for_of l retry_one w).2 !! id log = Some c' ∧
       (status c' = "sent" ∨ status c' = "failed") ∧ same_message c c').
Proof.
  induction l as [|log l IH]; intros w Hnd Hrows.
  { exists [], []. simpl. rewrite app_nil_r. split_and!; try done.
    intros log Hlog. by apply elem_of_nil in Hlog. }
  rewrite fmap_cons in Hnd. apply NoDup_cons in Hnd as [Hnotin Hnd].
  destruct (Hrows log) as (c & Hc & Hst); [by left|].
  destruct (retry_one_spec log w c Hc Hst)
    as (res & evs & c' & Hres & Hid & Hrep & Htr & Hrw & Hst' & Hsame & Hnext & Hnow & _).
  rewrite for_of_cons. destruct (retry_one log w) as [r1 w1]. simpl in *. subst r1.
  assert (∀ log', log' ∈ l → rows w1 !! id log' = rows w !! id log') as Hother.
  { intros log' Hin. rewrite Hrw. apply lookup_insert_ne. intros Heq.
    apply Hnotin. rewrite Heq. by apply list_elem_of_fmap_2. }
  destruct (IH w1 Hnd) as (results & groups & Hr & Hids & Hreps & Htr' & Hdom & Hnext'
                            & Hnow' & Hframe & Hdone).
  { intros log' Hin. rewrite (Hother log' Hin). apply Hrows. by right. }
  destruct (for_of l retry_one w1) as [rs w2]. simpl in *. subst rs.
  exists (res :: results), (evs :: groups). simpl. split_and!.
  - done.
  - by f_equal.
  - by constructor.
  - by rewrite Htr', Htr, <-app_assoc.
  - rewrite Hdom, Hrw. apply dom_insert_lookup_L. by rewrite Hc.
  - congruence.
  - congruence.
  - intros i Hi. apply not_elem_of_cons in Hi as [Hne Hi].
    rewrite (Hframe i Hi), Hrw. by apply lookup_insert_ne.
  - intros log' Hin. apply elem_of_cons in Hin as [->|Hin].
    + exists c, c'. split_and!; try done.
      rewrite (Hframe (id log) Hnotin), Hrw. by apply lookup_insert_eq.
    + destruct (Hdone log' Hin) as (c1 & c1' & Hc1 & Hc1' & Hs1 & Hm1).
      exists c1, c1'. split_and!; try done. by rewrite <-(Hother log' Hin).
Qed.

(** What the sweep selects. *)
Lemma getFailedLogsForRetry_eq limit w :
  getFailedLogsForRetry limit w
  = (inr (take limit
            (merge_sort (ordered Asc)
               (filter (λ r : Log, matches (retry_where (now w)) r) (table_rows w)))), w).
Proof.
  unfold getFailedLogsForRetry. rewrite logging_errors_id.
  unfold bind, Date_now, prisma_findMany. done.
Qed.

Lemma elem_of_table_rows log w :
  log ∈ table_rows w ↔ rows w !! id log = Some (columns log).
Proof.
  unfold table_rows. rewrite list_elem_of_fmap. split.
  - intros ([i c] & -> & Hin). by apply elem_of_map_to_list in Hin.
  - intros Hrow. exists (id log, columns log). split; [by destruct log|].
    by apply elem_of_map_to_list.
Qed.

Lemma NoDup_table_ids w : NoDup (id <$> table_rows w).
Proof.
  unfold table_rows. rewrite <-list_fmap_compose.
  apply (NoDup_fst_map_to_list (rows w)).
Qed.

Lemma matches_retry_where t (c : Columns) :
  matches (retry_where t) c ↔ status c = "failed" ∧ t - 86400000 ≤ createdAt c.
Proof.
  unfold matches, retry_where, date_matches. simpl.
  rewrite !andb_true_r, andb_True, !Is_true_true, String.eqb_eq, Z.geb_le.
  split; intros [? ?]; (split; [done|lia]).
Qed.

Global Instance ordered_total o : Total (ordered o).
Proof. intros a b. destruct o; unfold ordered; lia. Qed.

Global Instance ordered_trans o : Transitive (ordered o).
Proof. intros a b c. destruct o; unfold ordered; lia. Qed.

Lemma ordered_asc_createdAt (a b : Log) : ordered Asc a b → createdAt a ≤ createdAt b.
Proof. unfold ordered. lia. Qed.

Lemma StronglySorted_weaken {A} (R1 R2 : relation A) l :
  (∀ a b, R1 a b → R2 a b) → StronglySorted R1 l → StronglySorted R2 l.
Proof.
  intros Himp. induction 1 as [|a l _ IH Hall]; constructor; [done|].
  eapply Forall_impl; [exact Hall|]. auto.
Qed.

Lemma elem_of_retry_queue log w :
  log ∈ retry_queue w ↔
  rows w !! id log = Some (columns log) ∧ status log = "failed" ∧
  now w - 86400000 ≤ createdAt log.
Proof.
  unfold retry_queue. rewrite merge_sort_Permutation, list_elem_of_filter.
  rewrite matches_retry_where, elem_of_table_rows. tauto.
Qed.

Lemma retry_queue_sorted w : StronglySorted (ordered Asc) (retry_queue w).
Proof. apply StronglySorted_merge_sort; apply _. Qed.

Lemma retry_queue_NoDup w : NoDup (id <$> retry_queue w).
Proof.
  unfold retry_queue. rewrite merge_sort_Permutation.
  apply (sublist_NoDup _ (id <$> table_rows w)); [apply NoDup_table_ids|].
  apply fmap_sublist, sublist_filter.
Qed.

(** The selection of the sweep: the first [limit] rows of the queue. *)
Lemma retry_selection limit w :
  let selected := take limit (retry_queue w) in
  (length selected ≤ limit)%nat ∧
  NoDup (id <$> selected) ∧
  (∀ log, log ∈ selected →
     rows w !! id log = Some (columns log) ∧ status log = "failed" ∧
     now w - 86400000 ≤ createdAt log) ∧
  StronglySorted (λ a b : Log, createdAt a ≤ createdAt b) selected ∧
  (∀ i c, rows w !! i = Some c → status c = "failed" → now w - 86400000 ≤ createdAt c →
     mkLog i c ∈ selected ∨
     (length selected = limit ∧ ∀ log, log ∈ selected → createdAt log ≤ createdAt c)).
Proof.
  simpl. split_and!.
  - rewrite length_take. lia.
  - rewrite fmap_take.
    apply (sublist_NoDup _ (id <$> retry_queue w)); [apply retry_queue_NoDup|apply sublist_take].
  - intros log Hin. apply elem_of_retry_queue. by eapply subseteq_take.
  - apply (StronglySorted_weaken (ordered Asc)); [apply ordered_asc_createdAt|].
    pose proof (retry_queue_sorted w) as Hs.
    rewrite <-(take_drop limit (retry_queue w)) in Hs.
    by apply StronglySorted_app_1_l in Hs.
  - intros i c Hrow Hst Hwin.
    assert (mkLog i c ∈ retry_queue w) as Hin by by apply elem_of_retry_queue.
    rewrite <-(take_drop limit (retry_queue w)) in Hin.
    apply elem_of_app in Hin as [Hin|Hin]; [by left|right]. split.
    + rewrite length_take. apply Nat.min_l.
      destruct (decide (limit ≤ length (retry_queue w))%nat) as [|Hlt]; [done|].
      rewrite drop_ge in Hin by lia. by apply elem_of_nil in Hin.
    + intros log Hlog.
      pose proof (retry_queue_sorted w) as Hs.
      rewrite <-(take_drop limit (retry_queue w)) in Hs.
      apply (ordered_asc_createdAt log (mkLog i c)).
      by eapply StronglySorted_app_1_elem_of.
Qed.

Lemma retryFailed_eq limit w :
  retryFailed limit w = for_of (take limit (retry_queue w)) retry_one w.
Proof.
  unfold retryFailed. rewrite logging_errors_id. unfold bind.
  rewrite getFailedLogsForRetry_eq. fold (retry_queue w).
  by destruct (for_of _ _ _) as [[e|rs] w'].
Qed.

(** The sweep, as far as the order of its status writes goes. *)
Lemma retryFailed_sweep limit w :
  ∃ groups,
    Forall2 replayed (take limit (retry_queue w)) groups ∧
    trace (retryFailed limit w).2 = trace w ++ concat groups ∧
    (∀ i, i ∉ id <$> take limit (retry_queue w) →
       rows (retryFailed limit w).2 !! i = rows w !! i) ∧
    (∀ i, i ∈ id <$> take limit (retry_queue w) →
       ∃ c, rows w !! i = Some c ∧ status c = "failed").
Proof.
  destruct (retry_selection limit w) as (Hlen & Hnd & Hsel & Hsorted & Hcomplete).
  destruct (retry_loop (take limit (retry_queue w)) w Hnd)
    as (results & groups & Hr & Hids & Hreps & Htr & Hdom & Hnext & _ & Hframe & Hdone).
  { intros log Hin. destruct (Hsel log Hin) as (Hrow & Hst & _). eauto. }
  exists groups. rewrite retryFailed_eq. split_and!; try done.
  intros i (log & -> & Hin)%list_elem_of_fmap.
  destruct (Hsel log Hin) as (Hrow & Hst & _). eauto.
Qed.

(** C7.  A retry sweep selects at most [limit] rows, all of them in the
    table, [failed] and created no more than 24 hours ago, oldest first, and
    leaves out a row that qualifies only when the selection is full of rows
    at least as old.  It replays each selected row in turn on that same row:
    status back to [pending], the adapter called with the provider and the
    content recorded on the row, then status [sent] or [failed].  It creates
    no row: the table has the same ids after as before, the sequence of ids
    has not moved, and the rows not selected are untouched. *)
Theorem retryFailed_replays_recent_failures limit w :
  ∃ selected results groups,
    getFailedLogsForRetry limit w = (inr selected, w) ∧
    (length selected ≤ limit)%nat ∧
    (∀ log, log ∈ selected →
       rows w !! id log = Some (columns log) ∧ status log = "failed" ∧
       now w - 24 * 60 * 60 * 1000 ≤ createdAt log) ∧
    StronglySorted (λ a b : Log, createdAt a ≤ createdAt b) selected ∧
    (∀ i c, rows w !! i = Some c → status c = "failed" →
       now w - 24 * 60 * 60 * 1000 ≤ createdAt c →
       mkLog i c ∈ selected ∨
       (length selected = limit ∧ ∀ log, log ∈ selected → createdAt log ≤ createdAt c)) ∧
    (retryFailed limit w).1 = inr results ∧
    rr_logId <$> results = id <$> selected ∧
    Forall2 replayed selected groups ∧
    trace (retryFailed limit w).2 = trace w ++ concat groups ∧
    dom (rows (retryFailed limit w).2) = dom (rows w) ∧
    nextId (retryFailed limit w).2 = nextId w ∧
    (∀ i, i ∉ id <$> selected → rows (retryFailed limit w).2 !! i = rows w !! i) ∧
    (∀ log, log ∈ selected → ∃ c',
       rows (retryFailed limit w).2 !! id log = Some c' ∧
       (status c' = "sent" ∨ status c' = "failed") ∧ same_message log c').
Proof.
  destruct (retry_selection limit w) as (Hlen & Hnd & Hsel & Hsorted & Hcomplete).
  destruct (retry_loop (take limit (retry_queue w)) w Hnd)
    as (results & groups & Hr & Hids & Hreps & Htr & Hdom & Hnext & _ & Hframe & Hdone).
  { intros log Hin. destruct (Hsel log Hin) as (Hrow & Hst & _). eauto. }
  exists (take limit (retry_queue w)), results, groups.
  rewrite retryFailed_eq. split_and!; try done.
  intros log Hin. destruct (Hdone log Hin) as (c & c' & Hc & Hc' & Hst & Hsame).
  destruct (Hsel log Hin) as (Hrow & _). exists c'. split_and!; try done.
  congruence.
Qed.

Lemma replayed_lawful log evs : replayed log evs → Forall lawful evs.
Proof. intros (table & outcome & [-> | ->] & ->); lawful_events. Qed.

Lemma retryFailed_evolves limit w : evolves w (retryFailed limit w).2.
Proof.
  destruct (retryFailed_sweep limit w)
    as (groups & Hreps & Htr & Hframe & Hfailed).
  split.
  - exists (concat groups). split; [done|]. apply Forall_concat.
    clear -Hreps. induction Hreps; constructor; eauto using replayed_lawful.
  - intros i c Hrow Hst. rewrite Hframe; [done|].
    intros Hin. apply Hfailed in Hin as (c' & Hc' & Hst'). congruence.
Qed.

(** ** One step of a batch *)

Lemma held_next_item t item rest o : held (next_item t item rest o) = None.
Proof. unfold held, next_item. simpl. by destruct rest. Qed.

Lemma held_at_stage t s item rest :
  tk_items t = item :: rest →
  held (at_stage t s)
  = match s with
    | AwaitCreate => None
    | AwaitSend log | AwaitMarkSent log _ | AwaitMarkFailed log _ => Some log
    end.
Proof. intros Hi. unfold held, at_stage. simpl. by rewrite Hi. Qed.

Lemma step_task_finished b t w : tk_items t = [] → step_task b t w = (t, w).
Proof. intros Hi. unfold step_task. by rewrite Hi. Qed.

(** What a step does, given that the row in hand is in the table. *)
Lemma step_task_spec b t w :
  (∀ log, held t = Some log → ∃ c, rows w !! id log = Some c ∧ status c = "pending") →
  (∃ evs, trace (step_task b t w).2 = trace w ++ evs ∧ Forall lawful evs) ∧
  (∀ i c, rows w !! i = Some c → (∀ log, held t = Some log → id log ≠ i) →
     rows (step_task b t w).2 !! i = Some c) ∧
  (∀ log', held (step_task b t w).1 = Some log' →
     (∃ c, rows (step_task b t w).2 !! id log' = Some c ∧ status c = "pending") ∧
     (held t = Some log' ∨ rows w !! id log' = None)) ∧
  (ir_item <$> tk_results (step_task b t w).1) ++ tk_items (step_task b t w).1
    = (ir_item <$> tk_results t) ++ tk_items t ∧
  tk_started (step_task b t w).1 = tk_started t ∧
  now (step_task b t w).2 = now w.
Proof.
  intros Hheld. unfold step_task.
  destruct (tk_items t) as [|item rest] eqn:Hitems.
  { simpl. rewrite Hitems. split_and!; try done.
    - exists []. by rewrite app_nil_r.
    - intros log' Hl. split; [by apply Hheld|by left]. }
  assert (∀ (o : string + SendOk),
            (ir_item <$> (tk_results t ++ [mkItemResult item o])) ++ rest
            = (ir_item <$> tk_results t) ++ item :: rest) as Hpush.
  { intros o. rewrite fmap_app, <-app_assoc. done. }
  destruct (tk_stage t) as [|log|log result|log error] eqn:Hstage.
  - (* the row is created *)
    set (ld := mkLogData _ _ _ _ _).
    destruct (createLog ld w) as [[e|log] w1] eqn:Hc; simpl.
    + apply createLog_inl in Hc as ->. rewrite held_next_item. split_and!; try done.
      exists []. by rewrite app_nil_r.
    + apply createLog_inr in Hc as (-> & -> & Hfree & _).
      rewrite (held_at_stage _ _ _ _ Hitems), Hitems. split_and!; try done.
      * eexists [_]. split; [done|]. lawful_events.
      * intros i c Hi _. simpl. rewrite lookup_insert_ne; [done|]. congruence.
      * intros log' [= <-]. split; [|by right]. simpl. rewrite lookup_insert_eq. eauto.
  - (* the adapter is called *)
    set (rq := mkRequest _ _ _).
    assert (held t = Some log) as Hlog.
    { unfold held. by rewrite Hitems, Hstage. }
    pose proof (adapter_send_world rq w) as Hw.
    destruct (adapter_send rq w) as [[e|res] w1]; simpl in *; subst w1;
      rewrite (held_at_stage _ _ _ _ Hitems), Hitems; (split_and!; try done).
    + eexists [_]. split; [done|]. lawful_events.
    + intros log' [= <-]. split; [by apply Hheld|by left].
    + eexists [_]. split; [done|]. lawful_events.
    + intros log' [= <-]. split; [by apply Hheld|by left].
  - (* the row is marked sent *)
    assert (held t = Some log) as Hlog.
    { unfold held. by rewrite Hitems, Hstage. }
    destruct (Hheld log Hlog) as (c & Hrow & Hst).
    rewrite (updateLogStatus_found _ _ _ _ _ Hrow). simpl.
    rewrite held_next_item. split_and!; try done.
    + eexists [_]. split; [done|]. rewrite Hst. lawful_events.
    + intros i c' Hi Hne. rewrite lookup_insert_ne; [done|]. by apply Hne.
  - (* the row is marked failed *)
    assert (held t = Some log) as Hlog.
    { unfold held. by rewrite Hitems, Hstage. }
    destruct (Hheld log Hlog) as (c & Hrow & Hst).
    rewrite (updateLogStatus_found _ _ _ _ _ Hrow). simpl.
    rewrite held_next_item. split_and!; try done.
    + eexists [_]. split; [done|]. rewrite Hst. lawful_events.
    + intros i c' Hi Hne. rewrite lookup_insert_ne; [done|]. by apply Hne.
Qed.

(** ** The pool: rows in hand *)

Lemma owns_fresh_task p w t :
  held t = None → owns p w → owns (mkPool (pl_tasks p ++ [t]) (pl_main p)) w.
Proof.
  intros Hnone [Hrows Hdistinct].
  assert (∀ k t' log, (pl_tasks p ++ [t]) !! k = Some t' → held t' = Some log →
                      pl_tasks p !! k = Some t') as Hold.
  { intros k t' log Hk Hl. apply lookup_app_Some in Hk as [Hk|[_ Hk]]; [done|].
    apply list_lookup_singleton_Some in Hk as [_ <-]. congruence. }
  split; simpl.
  - intros k t' log Hk Hl. eapply Hrows; [by eapply Hold|done].
  - intros k1 k2 t1 t2 l1 l2 Hk1 Hk2 Hl1 Hl2. eapply Hdistinct; eauto.
Qed.

Lemma owns_start b w : owns (sendBulk_start b w) w.
Proof.
  unfold sendBulk_start, start_batch.
  assert (owns (mkPool [] AwaitAll) w) as Hempty.
  { split; simpl; intros *; by rewrite lookup_nil. }
  destruct (0 <? length (bd_items b))%nat; [|done].
  destruct (owns_fresh_task (mkPool [] AwaitAll) w
              (mkTask (now w) (take (batchSize b) (drop 0 (bd_items b))) AwaitCreate []))
    as [Hr Hd]; [|done|].
  { unfold held. simpl. by destruct (take _ _). }
  split; simpl in *; [exact Hr|exact Hd].
Qed.

Lemma pool_step_owns b p w ev :
  owns p w →
  owns (pool_step b (p, w) ev).1 (pool_step b (p, w) ev).2 ∧
  evolves w (pool_step b (p, w) ev).2.
Proof.
  intros Howns. destruct ev as [ms| |k]; simpl.
  - (* time passes *)
    split; [|by apply evolves_same]. destruct Howns as [Hr Hd]. by split.
  - (* the next batch starts *)
    destruct (pl_main p) as [i deadline|]; [|split; [done|apply evolves_refl]].
    destruct (deadline <=? now w); [|split; [done|apply evolves_refl]].
    simpl. split; [|apply evolves_refl]. unfold start_batch.
    destruct (owns_fresh_task p w
                (mkTask (now w) (take (batchSize b) (drop (i + batchSize b) (bd_items b)))
                   AwaitCreate [])) as [Hr Hd]; [|done|].
    { unfold held. simpl. by destruct (take _ _). }
    split; simpl in *; [exact Hr|exact Hd].
  - (* task [k] resumes *)
    destruct (pl_tasks p !! k) as [t|] eqn:Hk; [|split; [done|apply evolves_refl]].
    destruct Howns as [Hrows Hdistinct].
    destruct (step_task_spec b t w (λ log, Hrows k t log Hk))
      as (Hev & Hframe & Hnew & _).
    destruct (step_task b t w) as [t' w'] eqn:Hstep. simpl in *.
    assert (k < length (pl_tasks p))%nat as Hlt by by eapply lookup_lt_Some.
    split; [split|split].
    + intros j tj log Hj Hl. simpl in Hj.
      destruct (decide (j = k)) as [->|Hne].
      * rewrite list_lookup_insert_eq in Hj by done. simplify_eq. by apply Hnew.
      * rewrite list_lookup_insert_ne in Hj by done.
        destruct (Hrows j tj log Hj Hl) as (c & Hc & Hst). exists c. split; [|done].
        apply Hframe; [done|]. intros log0 Hl0 Heq.
        apply Hne. by eapply (Hdistinct j k); eauto.
    + assert (∀ j tj lj l', j ≠ k → pl_tasks p !! j = Some tj → held tj = Some lj →
                held t' = Some l' → id lj ≠ id l') as Hnew_distinct.
      { intros j tj lj l' Hne Hj Hlj Hl' Heq.
        destruct (Hnew l' Hl') as [_ [Hsame|Hfree]].
        - apply Hne. by eapply (Hdistinct j k); eauto.
        - destruct (Hrows j tj lj Hj Hlj) as (c & Hc & _). congruence. }
      intros j1 j2 t1 t2 l1 l2 Hj1 Hj2 Hl1 Hl2 Heq. simpl in Hj1, Hj2.
      destruct (decide (j1 = k)) as [->|Hne1], (decide (j2 = k)) as [->|Hne2]; [done| | |].
      * rewrite list_lookup_insert_eq in Hj1 by done.
        rewrite list_lookup_insert_ne in Hj2 by done. simplify_eq.
        by destruct (Hnew_distinct j2 t2 l2 l1).
      * rewrite list_lookup_insert_ne in Hj1 by done.
        rewrite list_lookup_insert_eq in Hj2 by done. simplify_eq.
        by destruct (Hnew_distinct j1 t1 l1 l2).
      * rewrite list_lookup_insert_ne in Hj1 by done.
        rewrite list_lookup_insert_ne in Hj2 by done. by eapply Hdistinct.
    + done.
    + intros i c Hi Hsent. apply Hframe; [done|]. intros log Hl Heq.
      destruct (Hrows k t log Hk Hl) as (c' & Hc' & Hst'). congruence.
Qed.

Lemma run_cons b ev σ pw : run b (ev :: σ) pw = run b σ (pool_step b pw ev).
Proof. done. Qed.


Lemma run_owns b σ : ∀ p w,
  owns p w → owns (run b σ (p, w)).1 (run b σ (p, w)).2 ∧ evolves w (run b σ (p, w)).2.
Proof.
  induction σ as [|ev σ IH]; intros p w Howns.
  { split; [done|apply evolves_refl]. }
  rewrite run_cons.
  destruct (pool_step_owns b p w ev Howns) as [Howns1 Hev1].
  destruct (pool_step b (p, w) ev) as [p1 w1]. simpl in Howns1, Hev1.
  destruct (IH p1 w1 Howns1) as [Howns2 Hev2]. split; [done|].
  by eapply evolves_trans.
Qed.

Lemma sendBulk_world b σ w : (sendBulk b σ w).2 = (run b σ (sendBulk_start b w, w)).2.
Proof. unfold sendBulk. by destruct (run _ _ _). Qed.

Lemma sendBulk_evolves b σ w : evolves w (sendBulk b σ w).2.
Proof. rewrite sendBulk_world. apply run_owns, owns_start. Qed.

(** ** Sequences of operations *)

Lemma exec_evolves w op : evolves w (exec w op).
Proof.
  destruct op; simpl.
  - apply sendOne_evolves.
  - apply sendBulk_evolves.
  - apply retryFailed_evolves.
  - by apply evolves_same.
Qed.

(** C3.  Over any sequence of [sendOne], [sendBulk] (under any schedule) and
    [retryFailed] calls, with any time passing in between, every status
    write goes from [pending] to [sent], from [pending] to [failed], or from
    [failed] to [pending]; and a row that is [sent] is afterwards exactly as
    it was. *)
Theorem status_transitions_are_lawful ops w :
  (∃ evs, trace (exec_all ops w) = trace w ++ evs ∧
     ∀ i old new, EvStatus i old new ∈ evs →
       (old = "pending" ∧ new = "sent") ∨
       (old = "pending" ∧ new = "failed") ∨
       (old = "failed" ∧ new = "pending")) ∧
  (∀ i c, rows w !! i = Some c → status c = "sent" →
     rows (exec_all ops w) !! i = Some c).
Proof.
  assert (evolves w (exec_all ops w)) as [(evs & Htr & Hlaw) Hsent].
  { unfold exec_all. revert w. induction ops as [|op ops IH]; intros w; simpl.
    - apply evolves_refl.
    - eapply evolves_trans; [apply exec_evolves|apply IH]. }
  split; [|done]. exists evs. split; [done|].
  intros i old new Hin. rewrite Forall_forall in Hlaw. apply (Hlaw _ Hin).
Qed.

(** ** The pool: chunks in order, batches paced *)

Lemma createLog_now ld w : now (createLog ld w).2 = now w.
Proof.
  destruct (createLog ld w) as [[e|log] w1] eqn:Hc; simpl.
  - by apply createLog_inl in Hc as ->.
  - by apply createLog_inr in Hc as (_ & -> & _).
Qed.

Lemma updateLogStatus_now i st err w : now (updateLogStatus i st err w).2 = now w.
Proof.
  destruct (rows w !! i) as [c|] eqn:Hrow.
  - by rewrite (updateLogStatus_found _ _ _ _ _ Hrow).
  - by rewrite (updateLogStatus_missing _ _ _ _ Hrow).
Qed.

Lemma adapter_send_now rq w : now (adapter_send rq w).2 = now w.
Proof. by rewrite adapter_send_world. Qed.

(** A step keeps the items of the task in place, and does not take time. *)
Lemma step_task_items b t w :
  (ir_item <$> tk_results (step_task b t w).1) ++ tk_items (step_task b t w).1
    = (ir_item <$> tk_results t) ++ tk_items t ∧
  tk_started (step_task b t w).1 = tk_started t ∧
  now (step_task b t w).2 = now w.
Proof.
  unfold step_task. destruct (tk_items t) as [|item rest] eqn:Hitems.
  { simpl. by rewrite Hitems. }
  assert (∀ (o : string + SendOk),
            (ir_item <$> (tk_results t ++ [mkItemResult item o])) ++ rest
            = (ir_item <$> tk_results t) ++ item :: rest) as Hpush.
  { intros o. by rewrite fmap_app, <-app_assoc. }
  destruct (tk_stage t) as [|log|log result|log error].
  - set (ld := mkLogData _ _ _ _ _). pose proof (createLog_now ld w) as Hn.
    destruct (createLog ld w) as [[e|log] w1]; simpl in *; by rewrite ?Hitems.
  - set (rq := mkRequest _ _ _). pose proof (adapter_send_now rq w) as Hn.
    destruct (adapter_send rq w) as [[e|res] w1]; simpl in *; by rewrite ?Hitems.
  - pose proof (updateLogStatus_now (id log) "sent" None w) as Hn.
    destruct (updateLogStatus _ _ _ w) as [[e|r] w1]; simpl in *; by rewrite ?Hitems.
  - pose proof (updateLogStatus_now (id log) "failed" (Some (message error)) w) as Hn.
    destruct (updateLogStatus _ _ _ w) as [[e|r] w1]; simpl in *; by rewrite ?Hitems.
Qed.

Lemma in_order_start_batch b i tasks w :
  (i = length tasks * batchSize b)%nat →
  in_order b (mkPool tasks AwaitAll) →
  in_order b (start_batch b i tasks w) ∧ main_ok b (start_batch b i tasks w).
Proof.
  intros Hi Hord. unfold start_batch. split.
  - intros k t Hk. simpl in Hk. apply lookup_app_Some in Hk as [Hk|[Hge Hk]].
    + by apply Hord.
    + apply list_lookup_singleton_Some in Hk as [Hk <-]. simpl.
      replace k with (length tasks) by lia. unfold chunk. by rewrite Hi.
  - unfold main_ok. simpl. rewrite length_app. simpl.
    destruct (i + batchSize b <? length (bd_items b))%nat eqn:Hlt.
    + apply Nat.ltb_lt in Hlt. lia.
    + apply Nat.ltb_ge in Hlt. lia.
Qed.

Lemma in_order_start b w :
  in_order b (sendBulk_start b w) ∧ main_ok b (sendBulk_start b w).
Proof.
  unfold sendBulk_start.
  destruct (0 <? length (bd_items b))%nat eqn:Hlen.
  - apply in_order_start_batch; [done|]. intros k t Hk. simpl in Hk. by rewrite lookup_nil in Hk.
  - apply Nat.ltb_ge in Hlen. split.
    + intros k t Hk. simpl in Hk. by rewrite lookup_nil in Hk.
    + unfold main_ok. simpl. lia.
Qed.

Lemma pool_step_in_order b p w ev :
  in_order b p → main_ok b p →
  in_order b (pool_step b (p, w) ev).1 ∧ main_ok b (pool_step b (p, w) ev).1.
Proof.
  intros Hord Hmain. destruct ev as [ms| |k]; simpl; [done| |].
  - destruct (pl_main p) as [i deadline|] eqn:Hm; [|done].
    destruct (deadline <=? now w); [|done]. simpl.
    unfold main_ok in Hmain. rewrite Hm in Hmain.
    apply in_order_start_batch; [lia|done].
  - destruct (pl_tasks p !! k) as [t|] eqn:Hk; [|done].
    destruct (step_task_items b t w) as (Hitems & _).
    destruct (step_task b t w) as [t' w']. simpl in *. split.
    + intros j tj Hj. simpl in Hj.
      assert (k < length (pl_tasks p))%nat as Hlt by by eapply lookup_lt_Some.
      destruct (decide (j = k)) as [->|Hne].
      * rewrite list_lookup_insert_eq in Hj by done. simplify_eq.
        rewrite Hitems. by apply Hord.
      * rewrite list_lookup_insert_ne in Hj by done. by apply Hord.
    + unfold main_ok in *. simpl. by rewrite length_insert.
Qed.

Lemma run_in_order b σ : ∀ p w,
  in_order b p → main_ok b p →
  in_order b (run b σ (p, w)).1 ∧ main_ok b (run b σ (p, w)).1.
Proof.
  induction σ as [|ev σ IH]; intros p w Hord Hmain; [done|].
  rewrite run_cons.
  destruct (pool_step_in_order b p w ev Hord Hmain) as [Hord1 Hmain1].
  destruct (pool_step b (p, w) ev) as [p1 w1]. by apply IH.
Qed.

Lemma paced_start_batch b i p w :
  paced b p w →
  (∀ j deadline, pl_main p = AwaitDelay j deadline → deadline ≤ now w) →
  (pl_tasks p = [] ∨ ∃ j deadline, pl_main p = AwaitDelay j deadline) →
  paced b (start_batch b i (pl_tasks p) w) w.
Proof.
  intros (Hgap & Hpast & Htimer) Hdue Hmain. unfold paced, starts, start_batch. simpl.
  rewrite fmap_app. simpl. fold (starts p). split_and!.
  - intros k s s' Hk HSk.
    apply lookup_app_Some in HSk as [HSk|[Hge HSk]].
    + apply (Hgap k s s'); [|done].
      apply lookup_app_Some in Hk as [Hk|[Hge _]]; [done|].
      apply lookup_lt_Some in HSk. lia.
    + apply list_lookup_singleton_Some in HSk as [Hlen <-].
      apply lookup_app_Some in Hk as [Hk|[Hge' _]]; [|lia].
      destruct Hmain as [Hnil|(j & deadline & Hm)].
      { unfold starts in Hk. rewrite Hnil in Hk. done. }
      destruct (Htimer j deadline Hm) as (s0 & Hlast & ->).
      rewrite last_lookup in Hlast.
      replace (pred (length (starts p))) with k in Hlast by lia.
      assert (s0 = s) as -> by congruence. by apply (Hdue j).
  - intros s [Hs|Hs%list_elem_of_singleton]%elem_of_app; [by apply Hpast|]. lia.
  - intros j deadline Hm. exists (now w). rewrite last_snoc. split; [done|].
    destruct (_ <? _)%nat; by simplify_eq.
Qed.

Lemma paced_start b w : paced b (sendBulk_start b w) w.
Proof.
  unfold sendBulk_start.
  assert (paced b (mkPool [] AwaitAll) w) as Hempty.
  { split_and!; intros *; unfold starts; simpl; try done.
    intros Hs. by apply elem_of_nil in Hs. }
  destruct (0 <? length (bd_items b))%nat; [|done].
  apply (paced_start_batch b 0%nat (mkPool [] AwaitAll) w Hempty); [done|by left].
Qed.

Lemma pool_step_paced b p w ev :
  paced b p w → paced b (pool_step b (p, w) ev).1 (pool_step b (p, w) ev).2.
Proof.
  intros Hp. destruct ev as [ms| |k]; simpl.
  - destruct Hp as (Hgap & Hpast & Htimer). split_and!; [done| |done].
    intros s Hs. simpl. specialize (Hpast s Hs). lia.
  - destruct (pl_main p) as [i deadline|] eqn:Hm; [|done].
    destruct (deadline <=? now w) eqn:Hdue; [|done]. simpl.
    apply Z.leb_le in Hdue. apply paced_start_batch; [done| |by eauto].
    intros j d Hj. rewrite Hm in Hj. by simplify_eq.
  - destruct (pl_tasks p !! k) as [t|] eqn:Hk; [|done].
    destruct (step_task_items b t w) as (_ & Hstarted & Hnow).
    destruct (step_task b t w) as [t' w']. simpl in *.
    assert (starts (mkPool (<[k:=t']> (pl_tasks p)) (pl_main p)) = starts p) as Hsame.
    { unfold starts. simpl. rewrite list_fmap_insert, Hstarted.
      apply list_insert_id. by rewrite list_lookup_fmap, Hk. }
    destruct Hp as (Hgap & Hpast & Htimer). unfold paced. rewrite Hsame, Hnow. done.
Qed.

Lemma run_paced b σ : ∀ p w,
  paced b p w → paced b (run b σ (p, w)).1 (run b σ (p, w)).2.
Proof.
  induction σ as [|ev σ IH]; intros p w Hp; [done|].
  rewrite run_cons. pose proof (pool_step_paced b p w ev Hp) as Hp1.
  destruct (pool_step b (p, w) ev) as [p1 w1]. by apply IH.
Qed.

(** ** The pool: what it returns *)







(** The pool that a bulk send has reached under a schedule. *)
Lemma sendBulk_inv b σ w :
  let pw := run b σ (sendBulk_start b w, w) in
  owns pw.1 pw.2 ∧ in_order b pw.1 ∧ main_ok b pw.1 ∧ paced b pw.1 pw.2.
Proof.
  simpl. split_and!.
  - apply run_owns, owns_start.
  - apply run_in_order; apply in_order_start.
  - apply run_in_order; apply in_order_start.
  - apply run_paced, paced_start.
Qed.


(** ** The pool: it can always run to its end *)








Lemma run_main_settled b σ : ∀ p w,
  pl_main p = AwaitAll → pl_main (run b σ (p, w)).1 = AwaitAll.
Proof.
  induction σ as [|ev σ IH]; intros p w Hm; [done|]. rewrite run_cons.
  destruct ev as [ms| |k]; simpl.
  - by apply IH.
  - rewrite Hm. by apply IH.
  - destruct (pl_tasks p !! k); [|by apply IH].
    destruct (step_task b _ w). by apply IH.
Qed.



(** ** A batch on its own is [processBatch] *)






(** ** The pool: rows of the successes *)






(** ** The pool: every result accounted for *)











(** ** The bulk send *)



(** What the bulk send does keep to, under every schedule: a batch works
    through its chunk one item at a time, in order (its results are those of
    a prefix of the chunk, the item in hand comes next, the rest has not been
    touched); and each batch was started at least the pacing delay after the
    one before. *)
Lemma sendBulk_batches_sequential_and_paced b σ w :
  let p := (run b σ (sendBulk_start b w, w)).1 in
  (∀ k t, pl_tasks p !! k = Some t →
     (ir_item <$> tk_results t) ++ tk_items t
     = take (batchSize b) (drop (k * batchSize b) (bd_items b))) ∧
  (∀ k s s', starts p !! k = Some s → starts p !! S k = Some s' → s + delay b ≤ s').
Proof.
  destruct (sendBulk_inv b σ w) as (_ & Hord & _ & Hgap & _). done.
Qed.

(** ** Retention cleanup *)

Lemma matches_cleanup_where t daysOld (c : Columns) :
  matches (cleanup_where t daysOld) c ↔
  (status c = "sent" ∨ status c = "failed") ∧ createdAt c < t - daysOld * 24 * 60 * 60 * 1000.
Proof.
  unfold matches, cleanup_where, date_matches. simpl.
  rewrite !andb_true_r, orb_false_r, andb_True, orb_True, !Is_true_true.
  rewrite !String.eqb_eq, Z.ltb_lt. done.
Qed.

Lemma cleanupOld_eq daysOld w :
  cleanupOld daysOld w
  = (inr (length (filter (λ r : Log, matches (cleanup_where (now w) daysOld) r) (table_rows w))),
     set_rows (filter (λ kc, ¬ matches (cleanup_where (now w) daysOld) kc.2)) w).
Proof.
  unfold cleanupOld, cleanupOldLogs. rewrite !logging_errors_id.
  unfold bind, Date_now, prisma_deleteMany. done.
Qed.

(** C8.  Retention cleanup never throws; it deletes exactly the rows whose
    status is [sent] or [failed] and whose [createdAt] is before the cutoff,
    and leaves every other row as it was.  In particular a [pending] row
    stays, whatever its age. *)
Theorem cleanupOld_spares_pending daysOld w :
  let cutoff := now w - daysOld * 24 * 60 * 60 * 1000 in
  (∃ count, (cleanupOld daysOld w).1 = inr count) ∧
  (∀ i c, rows w !! i = Some c → status c = "pending" →
     rows (cleanupOld daysOld w).2 !! i = Some c) ∧
  (∀ i c, rows (cleanupOld daysOld w).2 !! i = Some c ↔
     rows w !! i = Some c ∧
     ¬ ((status c = "sent" ∨ status c = "failed") ∧ createdAt c < cutoff)) ∧
  nextId (cleanupOld daysOld w).2 = nextId w ∧
  trace (cleanupOld daysOld w).2 = trace w.
Proof.
  cbv zeta. rewrite cleanupOld_eq. simpl. split_and!; try done.
  - by eexists.
  - intros i c Hrow Hst. apply map_lookup_filter_Some. split; [done|]. simpl.
    rewrite matches_cleanup_where. intros [[Hs|Hs] _]; congruence.
  - intros i c. rewrite map_lookup_filter_Some. simpl.
    by rewrite matches_cleanup_where.
Qed.

(** ** Listing the logs *)

Section Listing.
Variable new_Date : string → JsDate.

Lemma logs_where_clear_dates f :
  truthy (f_startDate f) && truthy (f_endDate f) = false →
  logs_where new_Date (clear_dates f) = logs_where new_Date f.
Proof. unfold logs_where, clear_dates. simpl. by intros ->. Qed.

(** C10.  When exactly one of [startDate] and [endDate] is given, the listing
    is what it is with neither: no condition on [createdAt] is put in the
    query.  A condition on [createdAt] is only ever put when both are
    given. *)
Theorem getLogs_ignores_half_open_date_range f pg w :
  (is_Some (f_startDate f) ∧ f_endDate f = None) ∨
  (f_startDate f = None ∧ is_Some (f_endDate f)) →
  getLogs new_Date f pg w = getLogs new_Date (clear_dates f) pg w ∧
  where_createdAt (logs_where new_Date f) = None ∧
  (∀ f', is_Some (where_createdAt (logs_where new_Date f')) →
         is_Some (f_startDate f') ∧ is_Some (f_endDate f')).
Proof.
  intros Hone.
  assert (truthy (f_startDate f) && truthy (f_endDate f) = false) as Hoff.
  { destruct Hone as [[_ ->]|[-> _]]; simpl; [apply andb_false_r|done]. }
  split_and!.
  - unfold getLogs. by rewrite (logs_where_clear_dates f Hoff).
  - unfold logs_where. simpl. by rewrite Hoff.
  - intros f'. unfold logs_where. simpl.
    destruct (f_startDate f'), (f_endDate f'); simpl; rewrite ?andb_false_r;
      by intros [? [=]].
Qed.

End Listing.

End EngineFacts.

(* ===================================================================== *)
(** ** The adapter registries *)
(* ===================================================================== *)

Section RegistryFacts.

Variable Transporter : Type.
Variable MailNet : Type.
Variable nodemailer_createTransport : EmailConfig.TransportOptions → JsError + Transporter.
Variable transporter_sendMail :
  Transporter → EmailConfig.MailMessage → MailNet → (JsError + option string) * MailNet.

Variable TwilioClient : Type.
Variable SmsNet : Type.
Variable twilio : option string → option string → JsError + TwilioClient.
Variable twilio_messages_create :
  TwilioClient → SmsConfig.CreateParams → SmsNet → (JsError + SmsConfig.ClientResult) * SmsNet.

Local Abbreviation getClient := (SmsConfig.getClient TwilioClient SmsNet twilio).
Local Abbreviation getTransporter := (EmailConfig.getTransporter Transporter MailNet nodemailer_createTransport).
Local Abbreviation SmsCfg := (SmsConfig.SmsCfg TwilioClient SmsNet).
Local Abbreviation EmailCfg := (EmailConfig.EmailCfg Transporter MailNet).

Lemma eqb_of_not_elem (s : string) (l : list string) :
  s ∉ l → Forall (λ x, String.eqb s x = false) l.
Proof.
  intros Hnot. apply Forall_forall. intros x Hx. apply String.eqb_neq. by intros ->.
Qed.

Lemma createClient_mock e provider config :
  (toLowerCase provider = "aws-sns" →
   SmsConfig.createClient _ twilio e provider config = inr (SmsConfig.AwsSnsMock _)) ∧
  (toLowerCase provider = "messagebird" →
   SmsConfig.createClient _ twilio e provider config = inr (SmsConfig.MessageBirdMock _)).
Proof. unfold SmsConfig.createClient. split; by intros ->. Qed.

Lemma js_or_same a : js_or a a = a.
Proof. unfold js_or. by destruct (truthy a). Qed.

Lemma twilio_credentials (e : Env) name :
  js_or (SmsConfig.accountSid (SmsConfig.getProviderConfig e name)) (e !! "TWILIO_ACCOUNT_SID")
  = e !! "TWILIO_ACCOUNT_SID" ∧
  js_or (SmsConfig.authToken (SmsConfig.getProviderConfig e name)) (e !! "TWILIO_AUTH_TOKEN")
  = e !! "TWILIO_AUTH_TOKEN".
Proof.
  unfold SmsConfig.getProviderConfig.
  repeat (destruct (String.eqb name _)); simpl; by rewrite ?js_or_same.
Qed.

Lemma createClient_unsupported e provider config :
  toLowerCase provider ∉ SmsConfig.getSupportedProviders →
  SmsConfig.createClient _ twilio e provider config
  = inl (Error ("Unsupported SMS provider: " +:+ provider)).
Proof.
  intros Hnot%eqb_of_not_elem. unfold SmsConfig.createClient.
  by repeat (apply Forall_cons in Hnot as [-> Hnot]).
Qed.

Lemma createTransporter_outcome e provider config :
  (toLowerCase provider ∈ EmailConfig.getSupportedProviders →
   ∃ options, EmailConfig.createTransporter _ nodemailer_createTransport e provider config
              = nodemailer_createTransport options) ∧
  (toLowerCase provider ∉ EmailConfig.getSupportedProviders →
   EmailConfig.createTransporter _ nodemailer_createTransport e provider config
   = inl (Error ("Unsupported email provider: " +:+ provider))).
Proof.
  unfold EmailConfig.createTransporter. split.
  - intros Hin. repeat (apply elem_of_cons in Hin as [->|Hin]); simpl; eauto.
    by apply elem_of_nil in Hin.
  - intros Hnot%eqb_of_not_elem.
    by repeat (apply Forall_cons in Hnot as [-> Hnot]).
Qed.

(** What the registries do: the first call for a provider builds the vendor
    client from whatever credentials are configured, without checking them.
    It throws a plain [Error] when the provider name is not a supported one,
    and otherwise only what the vendor's own constructor throws.  The SMS
    [aws-sns] and [messagebird] clients are built whatever the environment
    holds.  A client once built is cached: the next call returns it and
    builds nothing. *)
Lemma adapters_built_from_unchecked_credentials :
  (∀ provider (c : SmsCfg),
     let name := js_or_str provider (SmsConfig.defaultProvider _ _ c) in
     let cached client :=
       SmsConfig.mkSmsCfg _ _ (<[name := client]> (SmsConfig.clients _ _ c))
         (SmsConfig.defaultProvider _ _ c) (SmsConfig.env _ _ c) (SmsConfig.net _ _ c) in
     SmsConfig.clients _ _ c !! name = None →
     (toLowerCase name = "aws-sns" →
      getClient provider c = (inr (SmsConfig.AwsSnsMock _), cached (SmsConfig.AwsSnsMock _))) ∧
     (toLowerCase name = "messagebird" →
      getClient provider c
      = (inr (SmsConfig.MessageBirdMock _), cached (SmsConfig.MessageBirdMock _))) ∧
     (toLowerCase name = "twilio" →
      (getClient provider c).1
      = match twilio (SmsConfig.env _ _ c !! "TWILIO_ACCOUNT_SID")
                (SmsConfig.env _ _ c !! "TWILIO_AUTH_TOKEN") with
        | inr client => inr (SmsConfig.Twilio _ client)
        | inl error => inl error
        end) ∧
     (toLowerCase name ∉ SmsConfig.getSupportedProviders →
      getClient provider c = (inl (Error ("Unsupported SMS provider: " +:+ name)), c))) ∧
  (∀ provider (c c' : SmsCfg) client,
     getClient provider c = (inr client, c') → getClient provider c' = (inr client, c')) ∧
  (∀ provider (c : EmailCfg),
     let name := js_or_str provider (EmailConfig.defaultProvider _ _ c) in
     EmailConfig.transporters _ _ c !! name = None →
     (toLowerCase name ∈ EmailConfig.getSupportedProviders →
      ∃ options, (getTransporter provider c).1 = nodemailer_createTransport options) ∧
     (toLowerCase name ∉ EmailConfig.getSupportedProviders →
      getTransporter provider c
      = (inl (Error ("Unsupported email provider: " +:+ name)), c))) ∧
  (∀ provider (c c' : EmailCfg) transporter,
     getTransporter provider c = (inr transporter, c') →
     getTransporter provider c' = (inr transporter, c')).
Proof.
  split_and!.
  - intros provider c name cached Hfresh. unfold SmsConfig.getClient. fold name.
    rewrite Hfresh. split_and!.
    + intros Hn. by rewrite (proj1 (createClient_mock _ _ _) Hn).
    + intros Hn. by rewrite (proj2 (createClient_mock _ _ _) Hn).
    + intros Hn. unfold SmsConfig.createClient. rewrite Hn. simpl.
      destruct (twilio_credentials (SmsConfig.env _ _ c) name) as [-> ->].
      by destruct (twilio _ _).
    + intros Hn. by rewrite (createClient_unsupported _ _ _ Hn).
  - intros provider c c' client. unfold SmsConfig.getClient.
    set (name := js_or_str provider (SmsConfig.defaultProvider _ _ c)).
    destruct (SmsConfig.clients _ _ c !! name) as [client0|] eqn:Hc.
    + intros [= <- <-]. fold name. by rewrite Hc.
    + destruct (SmsConfig.createClient _ _ _ _ _) as [error|client0]; [done|].
      intros [= <- <-]. simpl. fold name. by rewrite lookup_insert_eq.
  - intros provider c name Hfresh. unfold EmailConfig.getTransporter. fold name.
    rewrite Hfresh. split.
    + intros Hn.
      destruct (proj1 (createTransporter_outcome (EmailConfig.env _ _ c) name
                         (EmailConfig.getProviderConfig (EmailConfig.env _ _ c) name)) Hn)
        as [options Ho].
      exists options. rewrite Ho. by destruct (nodemailer_createTransport options).
    + intros Hn. by rewrite (proj2 (createTransporter_outcome _ _ _) Hn).
  - intros provider c c' transporter. unfold EmailConfig.getTransporter.
    set (name := js_or_str provider (EmailConfig.defaultProvider _ _ c)).
    destruct (EmailConfig.transporters _ _ c !! name) as [t0|] eqn:Hc.
    + intros [= <- <-]. fold name. by rewrite Hc.
    + destruct (EmailConfig.createTransporter _ _ _ _ _) as [error|t0]; [done|].
      intros [= <- <-]. simpl. fold name. by rewrite lookup_insert_eq.
Qed.

End RegistryFacts.

(* ===================================================================== *)
(** ** The rest of the repository *)
(* ===================================================================== *)

Section RepositoryFacts.
Context {ty : ChannelTypes} {ch : Channel ty}.

Implicit Types (w : World) (log : Log).

Lemma getLogById_eq i w : getLogById i w = (inr (mkLog i <$> rows w !! i), w).
Proof. unfold getLogById. by rewrite logging_errors_id. Qed.

(** X1.  A row that [createLog] has made is the one that [getLogById] finds under
    its id; before, no row had that id; and the rows under the other ids are
    found as before. *)
Theorem getLogById_finds_created ld w log w1 :
  createLog ld w = (inr log, w1) →
  getLogById (id log) w = (inr None, w) ∧
  getLogById (id log) w1 = (inr (Some log), w1) ∧
  (∀ j, j ≠ id log → (getLogById j w1).1 = (getLogById j w).1).
Proof.
  intros (-> & -> & Hfree & _)%createLog_inr. rewrite !getLogById_eq. unfold created. simpl.
  split_and!.
  - by rewrite Hfree.
  - by rewrite lookup_insert_eq.
  - intros j Hne. by rewrite lookup_insert_ne.
Qed.

Lemma deleteLog_found i w c :
  rows w !! i = Some c → deleteLog i w = (inr true, set_rows (delete i) w).
Proof.
  intros Hc. unfold deleteLog. rewrite logging_errors_id. unfold bind, prisma_delete.
  by rewrite Hc.
Qed.

(** X2.  [deleteLog] on an id that is in the table resolves to [true] and removes
    that row and no other; the row cannot be found any more; the sequence of
    ids does not move.  On an id that is not in the table it throws a
    known-request error of Prisma and leaves everything as it was. *)
Theorem deleteLog_removes_that_row i w :
  match rows w !! i with
  | Some c =>
      (deleteLog i w).1 = inr true ∧
      rows (deleteLog i w).2 = delete i (rows w) ∧
      (∀ j, j ≠ i → rows (deleteLog i w).2 !! j = rows w !! j) ∧
      getLogById i (deleteLog i w).2 = (inr None, (deleteLog i w).2) ∧
      nextId (deleteLog i w).2 = nextId w ∧
      trace (deleteLog i w).2 = trace w
  | None =>
      ∃ e, deleteLog i w = (inl e, w) ∧ err_name e = "PrismaClientKnownRequestError"
  end.
Proof.
  destruct (rows w !! i) as [c|] eqn:Hc.
  - rewrite (deleteLog_found _ _ _ Hc), getLogById_eq. simpl. split_and!; try done.
    + intros j Hne. by rewrite lookup_delete_ne.
    + by rewrite lookup_delete_eq.
  - unfold deleteLog. rewrite logging_errors_id. unfold bind, prisma_delete. rewrite Hc.
    by eexists.
Qed.

(** X3.  Creating a row and deleting it again leaves the table as it was, but
    not the sequence: the id is spent, and a row created afterwards gets
    another one. *)
Theorem deleteLog_undoes_createLog ld w log w1 :
  createLog ld w = (inr log, w1) →
  (deleteLog (id log) w1).1 = inr true ∧
  rows (deleteLog (id log) w1).2 = rows w ∧
  ∀ ld' log' w3, createLog ld' (deleteLog (id log) w1).2 = (inr log', w3) → id log < id log'.
Proof.
  intros (-> & -> & Hfree & _)%createLog_inr.
  rewrite (deleteLog_found _ _ (columns (new_row ld w))) by (simpl; by rewrite lookup_insert_eq).
  simpl. split_and!; [done| |].
  - rewrite delete_insert_eq. by apply delete_id.
  - intros ld' log' w3 (-> & _)%createLog_inr. simpl. lia.
Qed.

(** ** What a query selects *)

Lemma elem_of_selection wh o w log :
  log ∈ selection wh o w ↔ rows w !! id log = Some (columns log) ∧ matches wh log.
Proof.
  unfold selection. rewrite merge_sort_Permutation, list_elem_of_filter, elem_of_table_rows.
  tauto.
Qed.

Lemma selection_sorted wh o w : StronglySorted (ordered o) (selection wh o w).
Proof. apply StronglySorted_merge_sort; apply _. Qed.

Lemma selection_NoDup wh o w : NoDup (id <$> selection wh o w).
Proof.
  unfold selection. rewrite merge_sort_Permutation.
  apply (sublist_NoDup _ (id <$> table_rows w)); [apply NoDup_table_ids|].
  apply fmap_sublist, sublist_filter.
Qed.

Lemma findMany_selection wh o skip limit w :
  where_valid wh → 0 ≤ skip →
  prisma_findMany wh o skip limit w
  = (inr (take limit (drop (Z.to_nat skip) (selection wh o w))), w).
Proof.
  intros Hvalid Hskip. unfold prisma_findMany.
  rewrite (Is_true_true_1 _ Hvalid). simpl.
  destruct (skip <? 0) eqn:Hneg; [lia|done].
Qed.

Lemma ordered_desc_createdAt (a b : Log) : ordered Desc a b → createdAt b ≤ createdAt a.
Proof. unfold ordered. lia. Qed.

(** The first [limit] rows of a selection: rows of the table that match, no
    row twice, in order; and a matching row is left out only when the
    [limit] is reached by rows that come before it. *)
Lemma first_of_selection wh o limit w :
  let found := take limit (selection wh o w) in
  (length found ≤ limit)%nat ∧
  NoDup (id <$> found) ∧
  (∀ log, log ∈ found → rows w !! id log = Some (columns log) ∧ matches wh log) ∧
  StronglySorted (ordered o) found ∧
  (∀ i c, rows w !! i = Some c → matches wh c →
     mkLog i c ∈ found ∨
     (length found = limit ∧ ∀ log, log ∈ found → ordered o log (mkLog i c))).
Proof.
  simpl. split_and!.
  - rewrite length_take. lia.
  - rewrite fmap_take.
    apply (sublist_NoDup _ (id <$> selection wh o w)); [apply selection_NoDup|apply sublist_take].
  - intros log Hin. apply (proj1 (elem_of_selection wh o w log)). by eapply subseteq_take.
  - pose proof (selection_sorted wh o w) as Hs.
    rewrite <-(take_drop limit (selection wh o w)) in Hs.
    by apply StronglySorted_app_1_l in Hs.
  - intros i c Hrow Hm.
    assert (mkLog i c ∈ selection wh o w) as Hin by by apply (proj2 (elem_of_selection wh o w _)).
    rewrite <-(take_drop limit (selection wh o w)) in Hin.
    apply elem_of_app in Hin as [Hin|Hin]; [by left|right]. split.
    + rewrite length_take. apply Nat.min_l.
      destruct (decide (limit ≤ length (selection wh o w))%nat) as [|Hlt]; [done|].
      rewrite drop_ge in Hin by lia. by apply elem_of_nil in Hin.
    + intros log Hlog.
      pose proof (selection_sorted wh o w) as Hs.
      rewrite <-(take_drop limit (selection wh o w)) in Hs.
      by eapply StronglySorted_app_1_elem_of.
Qed.

Lemma matches_status_is st (c : Columns) :
  matches (mkWhere None (Some (StatusIs st)) None None None) c ↔ status c = st.
Proof.
  unfold matches. simpl. rewrite !andb_true_r, Is_true_true. apply String.eqb_eq.
Qed.

(** X4.  [getLogsByStatus] never throws.  It returns at most [limit] rows of the
    table, each once, all with the status asked for, oldest first; a row
    with that status is left out only when [limit] rows at least as old are
    returned. *)
Theorem getLogsByStatus_oldest_first st limit w :
  ∃ logs, getLogsByStatus st limit w = (inr logs, w) ∧
    (length logs ≤ limit)%nat ∧
    NoDup (id <$> logs) ∧
    (∀ log, log ∈ logs → rows w !! id log = Some (columns log) ∧ status log = st) ∧
    StronglySorted (λ a b : Log, createdAt a ≤ createdAt b) logs ∧
    (∀ i c, rows w !! i = Some c → status c = st →
       mkLog i c ∈ logs ∨
       (length logs = limit ∧ ∀ log, log ∈ logs → createdAt log ≤ createdAt c)).
Proof.
  set (wh := mkWhere None (Some (StatusIs st)) None None None).
  destruct (first_of_selection wh Asc limit w) as (Hlen & Hnd & Hin & Hsorted & Hall).
  exists (take limit (selection wh Asc w)). split_and!; try done.
  - intros log Hlog. destruct (Hin log Hlog) as [Hrow Hm]. split; [done|].
    by apply matches_status_is.
  - by apply (StronglySorted_weaken (ordered Asc)); [apply ordered_asc_createdAt|].
  - intros i c Hrow Hst. destruct (Hall i c Hrow) as [?|[? Hbefore]]; [by apply matches_status_is|by left|].
    right. split; [done|]. intros log Hlog. by apply (ordered_asc_createdAt log (mkLog i c)), Hbefore.
Qed.

Lemma matches_tenant tenant (c : Columns) :
  opt_holds tenant (λ t, tenantId c =? t) ↔ of_tenant tenant c.
Proof.
  destruct tenant as [t|]; simpl; [|done]. by rewrite Is_true_true, Z.eqb_eq.
Qed.

Lemma matches_destination dest tenant (c : Columns) :
  matches (mkWhere tenant None (Some dest) None None) c ↔
  of_tenant tenant c ∧ contains_insensitive dest (destination (content c)).
Proof.
  unfold matches. simpl. by rewrite !andb_true_r, andb_True, matches_tenant.
Qed.

Lemma matches_provider prov tenant (c : Columns) :
  matches (mkWhere tenant None None (Some prov) None) c ↔
  of_tenant tenant c ∧ provider c = Some prov.
Proof.
  unfold matches. simpl.
  by rewrite !andb_true_r, andb_True, bool_decide_spec, matches_tenant.
Qed.

(** X5.  The two look-ups by tenant never throw, and return at most [limit] rows
    of the table, each once, newest first: [getLogsByDestination] rows whose
    destination contains the text asked for, whatever the case of its
    letters, [getLogsByProvider] rows of the provider asked for.  Given a
    tenant, they return rows of that tenant only.  A row that qualifies is
    left out only when [limit] rows at least as new are returned. *)
Theorem lookups_by_tenant_are_scoped tenant limit w :
  (∀ dest, ∃ logs, getLogsByDestination dest tenant limit w = (inr logs, w) ∧
     (length logs ≤ limit)%nat ∧
     NoDup (id <$> logs) ∧
     (∀ log, log ∈ logs →
        rows w !! id log = Some (columns log) ∧
        of_tenant tenant log ∧
        contains_insensitive dest (destination (content log))) ∧
     StronglySorted (λ a b : Log, createdAt b ≤ createdAt a) logs ∧
     (∀ i c, rows w !! i = Some c → of_tenant tenant c →
        contains_insensitive dest (destination (content c)) →
        mkLog i c ∈ logs ∨
        (length logs = limit ∧ ∀ log, log ∈ logs → createdAt c ≤ createdAt log))) ∧
  (∀ prov, ∃ logs, getLogsByProvider prov tenant limit w = (inr logs, w) ∧
     (length logs ≤ limit)%nat ∧
     NoDup (id <$> logs) ∧
     (∀ log, log ∈ logs →
        rows w !! id log = Some (columns log) ∧
        of_tenant tenant log ∧
        provider log = Some prov) ∧
     StronglySorted (λ a b : Log, createdAt b ≤ createdAt a) logs ∧
     (∀ i c, rows w !! i = Some c → of_tenant tenant c →
        provider c = Some prov →
        mkLog i c ∈ logs ∨
        (length logs = limit ∧ ∀ log, log ∈ logs → createdAt c ≤ createdAt log))).
Proof.
  split.
  - intros dest. set (wh := mkWhere tenant None (Some dest) None None).
    destruct (first_of_selection wh Desc limit w) as (Hlen & Hnd & Hin & Hsorted & Hall).
    exists (take limit (selection wh Desc w)). split_and!; try done.
    + intros log Hlog. destruct (Hin log Hlog) as [Hrow Hm]. split; [done|].
      by apply matches_destination.
    + by apply (StronglySorted_weaken (ordered Desc)); [apply ordered_desc_createdAt|].
    + intros i c Hrow Ht Hc. destruct (Hall i c Hrow) as [?|[? Hbefore]];
        [by apply matches_destination|by left|].
      right. split; [done|]. intros log Hlog.
      by apply (ordered_desc_createdAt log (mkLog i c)), Hbefore.
  - intros prov. set (wh := mkWhere tenant None None (Some prov) None).
    destruct (first_of_selection wh Desc limit w) as (Hlen & Hnd & Hin & Hsorted & Hall).
    exists (take limit (selection wh Desc w)). split_and!; try done.
    + intros log Hlog. destruct (Hin log Hlog) as [Hrow Hm]. split; [done|].
      by apply matches_provider.
    + by apply (StronglySorted_weaken (ordered Desc)); [apply ordered_desc_createdAt|].
    + intros i c Hrow Ht Hc. destruct (Hall i c Hrow) as [?|[? Hbefore]];
        [by apply matches_provider|by left|].
      right. split; [done|]. intros log Hlog.
      by apply (ordered_desc_createdAt log (mkLog i c)), Hbefore.
Qed.

(** ** The listing *)

Section ListingFacts.
Variable new_Date : string → JsDate.

Lemma length_selection wh o w :
  length (selection wh o w) = length (filter (λ r : Log, matches wh r) (table_rows w)).
Proof. unfold selection. by rewrite merge_sort_Permutation. Qed.

(** The listing, when Prisma accepts the query. *)
Lemma getLogs_accepted f pg w :
  let page := default 1%nat (pg_page pg) in
  let limit := default 10%nat (pg_limit pg) in
  where_valid (logs_where new_Date f) → (1 ≤ page ∨ limit = 0)%nat →
  getLogs new_Date f pg w
  = (inr (mkPage (take limit (drop ((page - 1) * limit) (selection (logs_where new_Date f) Desc w)))
            page limit (length (selection (logs_where new_Date f) Desc w))
            (ceil_div (length (selection (logs_where new_Date f) Desc w)) limit)), w).
Proof.
  intros page limit Hvalid Hpage. unfold getLogs. rewrite logging_errors_id.
  fold page limit. cbv zeta. unfold bind.
  rewrite findMany_selection by (done || nia).
  unfold prisma_count. rewrite (Is_true_true_1 _ Hvalid). simpl.
  rewrite <-(length_selection _ Desc).
  replace (Z.to_nat ((Z.of_nat page - 1) * Z.of_nat limit)) with ((page - 1) * limit)%nat by nia.
  done.
Qed.

(** The listing, when it does not throw. *)
Lemma getLogs_inr f pg w pg' :
  (getLogs new_Date f pg w).1 = inr pg' →
  let page := default 1%nat (pg_page pg) in
  let limit := default 10%nat (pg_limit pg) in
  pg' = mkPage (take limit (drop ((page - 1) * limit) (selection (logs_where new_Date f) Desc w)))
          page limit (length (selection (logs_where new_Date f) Desc w))
          (ceil_div (length (selection (logs_where new_Date f) Desc w)) limit).
Proof.
  intros Hres page limit.
  destruct (where_valid (logs_where new_Date f)) eqn:Hvalid.
  - destruct (decide (1 ≤ page ∨ limit = 0)%nat) as [Hpage|Hpage].
    + rewrite getLogs_accepted in Hres by (done || by apply Is_true_true_2).
      by injection Hres as <-.
    + exfalso. revert Hres. unfold getLogs. rewrite logging_errors_id.
      fold page limit. cbv zeta. unfold bind, prisma_findMany. rewrite Hvalid. simpl.
      destruct (_ <? 0) eqn:Hneg; [done|]. apply Z.ltb_ge in Hneg. nia.
  - exfalso. revert Hres. unfold getLogs. rewrite logging_errors_id.
    cbv zeta. unfold bind, prisma_findMany. by rewrite Hvalid.
Qed.

Lemma truthy_Some s : truthy (Some s) = true ↔ s ≠ "".
Proof.
  unfold truthy. destruct (String.eqb s "") eqn:Heq; simpl.
  - apply String.eqb_eq in Heq. split; [done|]. by intros [].
  - apply String.eqb_neq in Heq. done.
Qed.

Lemma matches_logs_where f (c : Columns) :
  matches (logs_where new_Date f) c →
  (∀ t, f_tenantId f = Some t → t ≠ 0 → tenantId c = t) ∧
  (∀ s, f_status f = Some s → s ≠ "" → status c = s) ∧
  (∀ s, f_destination f = Some s → s ≠ "" →
     contains_insensitive s (destination (content c))) ∧
  (∀ p, f_provider f = Some p → p ≠ "" → provider c = Some p) ∧
  (∀ s e, f_startDate f = Some s → f_endDate f = Some e → s ≠ "" → e ≠ "" →
     ∃ from_ to_, new_Date s = DateAt from_ ∧ new_Date e = DateAt to_ ∧
                  from_ ≤ createdAt c ≤ to_).
Proof.
  unfold matches, logs_where. simpl. rewrite !andb_True.
  intros ((((Ht & Hs) & Hd) & Hp) & Hc). split_and!.
  - intros t Heq Hne. rewrite Heq in Ht. unfold truthy_num in Ht.
    destruct (t =? 0) eqn:Hz; [lia|]. simpl in Ht. by apply Z.eqb_eq, Is_true_true.
  - intros s Heq Hne. rewrite Heq, (proj2 (truthy_Some s) Hne) in Hs. simpl in Hs.
    by apply String.eqb_eq, Is_true_true.
  - intros s Heq Hne. by rewrite Heq, (proj2 (truthy_Some s) Hne) in Hd.
  - intros p Heq Hne. rewrite Heq, (proj2 (truthy_Some p) Hne) in Hp. simpl in Hp.
    by apply bool_decide_spec in Hp.
  - intros s e Heqs Heqe Hs' He'.
    rewrite Heqs, Heqe, (proj2 (truthy_Some s) Hs'), (proj2 (truthy_Some e) He') in Hc.
    simpl in Hc.
    unfold date_matches in Hc. simpl in Hc. rewrite andb_true_r, andb_True in Hc.
    destruct Hc as [Hge Hle].
    destruct (new_Date s) as [from_|]; [|done]. destruct (new_Date e) as [to_|]; [|done].
    simpl in *. exists from_, to_. split_and!; try done.
    + apply Is_true_true in Hge. lia.
    + apply Is_true_true in Hle. lia.
Qed.

Lemma StronglySorted_take_drop {A} (R : relation A) n m (l : list A) :
  StronglySorted R l → StronglySorted R (take n (drop m l)).
Proof.
  intros Hs. rewrite <-(take_drop m l) in Hs. apply StronglySorted_app_1_r in Hs.
  rewrite <-(take_drop n (drop m l)) in Hs. by apply StronglySorted_app_1_l in Hs.
Qed.

(** X6.  A page of the listing has at most [limit] rows, each a row of the table
    and each once, newest first, and every row on it meets every filter that
    was given: the tenant, the status, the text in the destination, the
    provider, and, when both dates were given, the date range.  The total is
    the number of rows of the table that meet the filters, whichever page
    was asked for. *)
Theorem getLogs_results_match_filters f pg w pg' :
  (getLogs new_Date f pg w).1 = inr pg' →
  (length (p_logs pg') ≤ default 10%nat (pg_limit pg))%nat ∧
  NoDup (id <$> p_logs pg') ∧
  StronglySorted (λ a b : Log, createdAt b ≤ createdAt a) (p_logs pg') ∧
  (∀ log, log ∈ p_logs pg' →
     rows w !! id log = Some (columns log) ∧
     (∀ t, f_tenantId f = Some t → t ≠ 0 → tenantId log = t) ∧
     (∀ s, f_status f = Some s → s ≠ "" → status log = s) ∧
     (∀ s, f_destination f = Some s → s ≠ "" →
        contains_insensitive s (destination (content log))) ∧
     (∀ p, f_provider f = Some p → p ≠ "" → provider log = Some p) ∧
     (∀ s e, f_startDate f = Some s → f_endDate f = Some e → s ≠ "" → e ≠ "" →
        ∃ from_ to_, new_Date s = DateAt from_ ∧ new_Date e = DateAt to_ ∧
                     from_ ≤ createdAt log ≤ to_)) ∧
  p_total pg'
  = length (filter (λ r : Log, matches (logs_where new_Date f) r) (table_rows w)).
Proof.
  intros ->%getLogs_inr. simpl.
  set (all := selection (logs_where new_Date f) Desc w).
  assert (take (default 10%nat (pg_limit pg))
            (drop ((default 1%nat (pg_page pg) - 1) * default 10%nat (pg_limit pg)) all)
          `sublist_of` all) as Hsub.
  { etrans; [apply sublist_take|apply sublist_drop]. }
  split_and!.
  - rewrite length_take. lia.
  - apply (sublist_NoDup _ (id <$> all)); [apply selection_NoDup|by apply fmap_sublist].
  - apply (StronglySorted_weaken (ordered Desc)); [apply ordered_desc_createdAt|].
    apply StronglySorted_take_drop, selection_sorted.
  - intros log Hlog.
    assert (log ∈ all) as [Hrow Hm]%elem_of_selection by by eapply elem_of_sublist.
    split; [done|]. by apply matches_logs_where.
  - apply length_selection.
Qed.



End ListingFacts.

(** ** Counting *)

Lemma matches_and_status wh s (c : Columns) :
  where_status wh = None →
  matches (and_status wh s) c ↔ matches wh c ∧ status c = s.
Proof.
  intros Hnone. unfold matches, and_status. simpl. rewrite Hnone. simpl.
  destruct (String.eqb_spec (status c) s) as [Heq|Hne];
    rewrite ?andb_true_r, ?andb_false_r; simpl; intuition congruence.
Qed.

Lemma filter_and_status wh s (l : list Log) :
  where_status wh = None →
  filter (λ r : Log, matches (and_status wh s) r) l
  = filter (λ r : Log, status r = s) (filter (λ r : Log, matches wh r) l).
Proof.
  intros Hnone. rewrite list_filter_filter. apply list_filter_iff.
  intros r. rewrite matches_and_status by done. tauto.
Qed.

(** Rows sorted by status: the three of the life cycle, and the others. *)
Lemma length_by_status (l : list Log) :
  length l
  = (length (filter (λ r : Log, status r = "sent") l)
     + length (filter (λ r : Log, status r = "failed") l)
     + length (filter (λ r : Log, status r = "pending") l)
     + length (filter (λ r : Log, ¬ life_cycle (status r)) l))%nat.
Proof.
  induction l as [|r l IH]; [done|].
  rewrite !filter_cons.
  assert (life_cycle (status r) ↔
          status r = "sent" ∨ status r = "failed" ∨ status r = "pending") as Hlc.
  { unfold life_cycle. tauto. }
  repeat case_decide; simpl; try lia; exfalso; try tauto; congruence.
Qed.

Section StatisticsFacts.
Variable new_Date : string → JsDate.
Variable percent_toFixed : nat → nat → string.

Lemma getStatistics_inr tenant startDate endDate w stats :
  (getStatistics new_Date percent_toFixed tenant startDate endDate w).1 = inr stats →
  let counted :=
    filter (λ r : Log, matches (statistics_where new_Date tenant startDate endDate) r)
      (table_rows w) in
  stats = mkStatistics (length counted)
            (length (filter (λ r : Log, status r = "sent") counted))
            (length (filter (λ r : Log, status r = "failed") counted))
            (length (filter (λ r : Log, status r = "pending") counted))
            (if (0 <? length counted)%nat
             then RateFixed (percent_toFixed
                               (length (filter (λ r : Log, status r = "sent") counted))
                               (length counted))
             else RateZero).
Proof.
  unfold getStatistics. rewrite logging_errors_id. cbv zeta.
  set (wh := statistics_where new_Date tenant startDate endDate).
  unfold bind, prisma_count.
  replace (where_valid (and_status wh "sent")) with (where_valid wh) by done.
  replace (where_valid (and_status wh "failed")) with (where_valid wh) by done.
  replace (where_valid (and_status wh "pending")) with (where_valid wh) by done.
  destruct (where_valid wh); simpl; [|done].
  rewrite !filter_and_status by done. by intros [= <-].
Qed.

(** X8.  The statistics only read.  When they are returned, [total] is the
    number of rows of the tenant (of every tenant, when none is given) in
    the date range (of any date, unless both ends are given); [sent],
    [failed] and [pending] are the numbers of those rows with that status;
    [total] is their sum, plus the number of counted rows whose status is
    none of the three; and the success rate is the number [0] exactly when
    nothing was counted. *)
Theorem getStatistics_partitions tenant startDate endDate w :
  (getStatistics new_Date percent_toFixed tenant startDate endDate w).2 = w ∧
  ∀ stats,
    (getStatistics new_Date percent_toFixed tenant startDate endDate w).1 = inr stats →
    let counted :=
      filter (λ r : Log, matches (statistics_where new_Date tenant startDate endDate) r)
        (table_rows w) in
    (∀ r : Log, r ∈ counted →
       rows w !! id r = Some (columns r) ∧ of_tenant tenant r) ∧
    (¬ (truthy startDate ∧ truthy endDate) →
       ∀ r : Log, rows w !! id r = Some (columns r) →
         of_tenant tenant r → r ∈ counted) ∧
    st_total stats = length counted ∧
    st_sent stats = length (filter (λ r : Log, status r = "sent") counted) ∧
    st_failed stats = length (filter (λ r : Log, status r = "failed") counted) ∧
    st_pending stats = length (filter (λ r : Log, status r = "pending") counted) ∧
    st_total stats
    = (st_sent stats + st_failed stats + st_pending stats
       + length (filter (λ r : Log, ¬ life_cycle (status r)) counted))%nat ∧
    (st_successRate stats = RateZero ↔ st_total stats = 0%nat).
Proof.
  split.
  { unfold getStatistics. rewrite logging_errors_id. cbv zeta.
    set (wh := statistics_where new_Date tenant startDate endDate).
    unfold bind, prisma_count.
    replace (where_valid (and_status wh "sent")) with (where_valid wh) by done.
    replace (where_valid (and_status wh "failed")) with (where_valid wh) by done.
    replace (where_valid (and_status wh "pending")) with (where_valid wh) by done.
    by destruct (where_valid wh). }
  intros stats ->%getStatistics_inr. simpl. split_and!; try done.
  - intros r [Hm Hrow%elem_of_table_rows]%list_elem_of_filter. split; [done|].
    revert Hm. unfold matches. simpl. rewrite !andb_True.
    intros [[[[Ht _] _] _] _]. by apply matches_tenant.
  - intros Hdates r Hrow Ht. apply list_elem_of_filter. split; [|by apply elem_of_table_rows].
    unfold matches, statistics_where. simpl.
    destruct (truthy startDate && truthy endDate) eqn:Hboth.
    { destruct Hdates. apply andb_true_iff in Hboth as [-> ->]. done. }
    simpl. rewrite !andb_true_r. by apply matches_tenant.
  - apply length_by_status.
  - destruct (0 <? length _)%nat eqn:Hpos; split; try done.
    + apply Nat.ltb_lt in Hpos. lia.
    + apply Nat.ltb_ge in Hpos. lia.
Qed.

End StatisticsFacts.

(** ** Counts by status *)

Lemma lookup_assign_counts (l : list (string * nat)) : ∀ (m : gmap string nat) s,
  NoDup l.*1 →
  foldl (λ result count, assign_count result count.1 count.2) m l !! s
  = match list_find (λ count, count.1 = s) l with
    | Some (_, (_, n)) => if String.eqb s "__proto__" then m !! s else Some n
    | None => m !! s
    end.
Proof.
  induction l as [|[k n] l IH]; intros m s Hnd; [done|].
  apply NoDup_cons in Hnd as [Hk Hnd]. simpl. rewrite IH by done.
  destruct (decide (k = s)) as [->|Hne]; simpl.
  - assert (list_find (λ count : string * nat, count.1 = s) l = None) as ->.
    { apply list_find_None, Forall_forall. intros [k' n'] Hin Heq. simpl in Heq. subst k'.
      apply Hk, list_elem_of_fmap. by exists (s, n'). }
    unfold assign_count. destruct (String.eqb_spec s "__proto__") as [->|Hp]; [done|].
    by rewrite lookup_insert_eq.
  - unfold assign_count at 1 2.
    assert (∀ o : option nat,
              (if String.eqb k "__proto__" then m else <[k:=n]> m) !! s = m !! s) as Hm.
    { intros _. destruct (String.eqb k "__proto__"); [done|]. by rewrite lookup_insert_ne. }
    destruct (list_find _ l) as [[i [k' n']]|]; simpl; rewrite ?(Hm None); done.
Qed.

Lemma getLogsCountByStatus_eq tenant w :
  getLogsCountByStatus tenant w
  = (inr (foldl (λ result count, assign_count result count.1 count.2) ∅
            ((λ s, (s, length (filter (λ r : Log, status r = s)
                                 (filter (λ r : Log, matches (mkWhere tenant None None None None) r)
                                    (table_rows w)))))
               <$> remove_dups ((λ r : Log, status r)
                                  <$> filter (λ r : Log, matches (mkWhere tenant None None None None) r)
                                        (table_rows w)))), w).
Proof. unfold getLogsCountByStatus. by rewrite logging_errors_id. Qed.

Lemma matches_only_tenant tenant (c : Columns) :
  matches (mkWhere tenant None None None None) c ↔ of_tenant tenant c.
Proof. unfold matches. simpl. by rewrite !andb_true_r, matches_tenant. Qed.

(** X9.  [getLogsCountByStatus] only reads and never throws.  The object it
    returns has, for a status, the number of rows of the tenant (of every
    tenant, when none is given) with that status; a status that no such row
    has is not a key of it; nor is ["__proto__"], whatever the rows. *)
Theorem getLogsCountByStatus_counts tenant w :
  ∃ result, getLogsCountByStatus tenant w = (inr result, w) ∧
    result !! "__proto__" = None ∧
    ∀ s, s ≠ "__proto__" →
      let n := length (filter (λ r : Log, of_tenant tenant r ∧ status r = s)
                         (table_rows w)) in
      result !! s = if decide (n = 0%nat) then None else Some n.
Proof.
  rewrite getLogsCountByStatus_eq. eexists. split; [done|].
  set (found := filter (λ r : Log, matches (mkWhere tenant None None None None) r) (table_rows w)).
  set (groups := (λ s, (s, length (filter (λ r : Log, status r = s) found)))
                   <$> remove_dups ((λ r : Log, status r) <$> found)).
  assert (NoDup groups.*1) as Hnd.
  { unfold groups. rewrite <-list_fmap_compose. simpl. rewrite list_fmap_id.
    apply NoDup_remove_dups. }
  split.
  { rewrite lookup_assign_counts by done. by destruct (list_find _ groups) as [[? [? ?]]|]. }
  intros s Hs n.
  assert (n = length (filter (λ r : Log, status r = s) found)) as Hn.
  { unfold n, found. rewrite list_filter_filter. f_equal. apply list_filter_iff.
    intros r. rewrite matches_only_tenant. tauto. }
  rewrite lookup_assign_counts by done.
  destruct (String.eqb_spec s "__proto__") as [|_]; [done|].
  destruct (list_find _ groups) as [[i [k m]]|] eqn:Hfind.
  - apply list_find_Some in Hfind as (Hi & Hk & _). simpl in Hk. subst k.
    apply list_elem_of_lookup_2, list_elem_of_fmap in Hi as (s' & [= <- ->] & Hin).
    apply elem_of_remove_dups, list_elem_of_fmap in Hin as (r & Hr & Hin).
    rewrite <-Hn. destruct (decide (n = 0%nat)) as [Hz|]; [|done]. exfalso.
    rewrite Hn in Hz. apply length_zero_iff_nil in Hz.
    assert (r ∈ filter (λ r : Log, status r = s) found) as Hr'.
    { by apply list_elem_of_filter. }
    rewrite Hz in Hr'. by apply elem_of_nil in Hr'.
  - rewrite lookup_empty. destruct (decide (n = 0%nat)) as [|Hpos]; [done|]. exfalso.
    rewrite Hn in Hpos.
    destruct (filter (λ r : Log, status r = s) found) as [|r rest] eqn:Hfilter; [done|].
    assert (r ∈ filter (λ r : Log, status r = s) found) as [Hst Hin]%list_elem_of_filter.
    { rewrite Hfilter. by left. }
    apply list_find_None in Hfind. rewrite Forall_forall in Hfind.
    apply (Hfind (s, length (filter (λ r : Log, status r = s) found))); [|done].
    apply list_elem_of_fmap. exists s. split; [done|].
    apply elem_of_remove_dups, list_elem_of_fmap. by exists r.
Qed.

(** ** Status writes in bulk *)

Lemma with_status_twice (c : Columns) st err t :
  with_status (with_status c st err t) st err t = with_status c st err t.
Proof. done. Qed.

Lemma updates_in_turn ids st err : ∀ w,
  (∀ i, i ∈ ids → is_Some (rows w !! i)) →
  ∃ logs,
    (for_of ids (λ i, updateLogStatus i st err) w).1 = inr logs ∧
    length logs = length ids ∧
    ∀ j, rows (for_of ids (λ i, updateLogStatus i st err) w).2 !! j
         = if decide (j ∈ ids) then (λ c, with_status c st err (now w)) <$> rows w !! j
           else rows w !! j.
Proof.
  induction ids as [|i ids IH]; intros w Hall.
  { exists []. split_and!; try done. }
  rewrite for_of_cons.
  destruct (Hall i) as [c Hc]; [by left|].
  rewrite (updateLogStatus_found _ _ _ _ _ Hc).
  set (w1 := status_written i c st err w).
  destruct (IH w1) as (logs & Hlogs & Hlen & Hrows).
  { intros j Hj. unfold w1. simpl. destruct (decide (j = i)) as [->|Hne].
    - rewrite lookup_insert_eq. by eexists.
    - rewrite lookup_insert_ne by done. apply Hall. by right. }
  destruct (for_of ids _ w1) as [[e|logs'] w2]; simpl in *; [done|].
  injection Hlogs as ->. eexists. split_and!; [done|simpl; lia|].
  intros j. rewrite Hrows. unfold w1. simpl.
  destruct (decide (j = i)) as [->|Hne].
  - rewrite lookup_insert_eq, Hc. rewrite (decide_True (P := i ∈ i :: ids)) by by left.
    simpl. by destruct (decide (i ∈ ids)).
  - rewrite lookup_insert_ne by done.
    destruct (decide (j ∈ ids)) as [Hin|Hout].
    + by rewrite (decide_True (P := j ∈ i :: ids)) by by right.
    + rewrite (decide_False (P := j ∈ i :: ids)); [done|]. by intros [->|?]%elem_of_cons.
Qed.

Lemma updates_stop_at_missing ids st err : ∀ w,
  (∃ i, i ∈ ids ∧ rows w !! i = None) →
  (for_of ids (λ i, updateLogStatus i st err) w).1
  = inl (mkError "PrismaClientKnownRequestError" "Record to update not found.").
Proof.
  induction ids as [|i ids IH]; intros w (j & Hj & Hmiss).
  { by apply elem_of_nil in Hj. }
  rewrite for_of_cons.
  destruct (rows w !! i) as [c|] eqn:Hc.
  - rewrite (updateLogStatus_found _ _ _ _ _ Hc).
    specialize (IH (status_written i c st err w)).
    destruct (for_of ids _ _) as [[e|logs] w2]; simpl in *.
    + apply IH. exists j. apply elem_of_cons in Hj as [->|Hj]; [congruence|].
      split; [done|]. rewrite lookup_insert_ne; [done|]. congruence.
    + exfalso. assert (@inr JsError _ logs = inl (mkError "PrismaClientKnownRequestError"
                                                    "Record to update not found.")); [|done].
      apply IH. exists j. apply elem_of_cons in Hj as [->|Hj]; [congruence|].
      split; [done|]. rewrite lookup_insert_ne; [done|]. congruence.
  - by rewrite (updateLogStatus_missing _ _ _ _ Hc).
Qed.

Lemma bulkUpdateLogStatus_eq ids st err w :
  bulkUpdateLogStatus ids st err w = prisma_updateMany ids st err (now w) w.
Proof. unfold bulkUpdateLogStatus. by rewrite logging_errors_id. Qed.

(** X10.  [bulkUpdateLogStatus] never throws: it overwrites the rows whose id is
    among [ids], passes over the ids that no row has, touches no other row,
    and returns the number of rows overwritten: the number of rows of the
    table whose id is among [ids], which is the number of different ids
    among [ids] that a row has.  When every id is in the table it leaves the
    table as [updateLogStatus] called on each id in turn does; when one is
    not, those calls throw where it does not. *)
Theorem bulkUpdateLogStatus_agrees_with_updates ids st err w :
  let w' := (bulkUpdateLogStatus ids st err w).2 in
  let in_turn := for_of ids (λ i, updateLogStatus i st err) w in
  (∃ n, (bulkUpdateLogStatus ids st err w).1 = inr n ∧
        n = length (filter (λ r : Log, id r ∈ ids) (table_rows w)) ∧
        n = length (filter (λ i, is_Some (rows w !! i)) (remove_dups ids)) ∧
        (NoDup ids → (n ≤ length ids)%nat) ∧
        (NoDup ids → (∀ i, i ∈ ids → is_Some (rows w !! i)) → n = length ids)) ∧
  (∀ j, j ∈ ids → rows w' !! j = (λ c, with_status c st err (now w)) <$> rows w !! j) ∧
  (∀ j, j ∉ ids → rows w' !! j = rows w !! j) ∧
  ((∀ i, i ∈ ids → is_Some (rows w !! i)) →
     (∃ logs, in_turn.1 = inr logs) ∧ rows in_turn.2 = rows w') ∧
  ((∃ i, i ∈ ids ∧ rows w !! i = None) →
     ∃ e, in_turn.1 = inl e ∧ err_name e = "PrismaClientKnownRequestError").
Proof.
  intros w' in_turn. unfold w'. rewrite bulkUpdateLogStatus_eq.
  assert (∀ j, rows (prisma_updateMany ids st err (now w) w).2 !! j
               = if decide (j ∈ ids) then (λ c, with_status c st err (now w)) <$> rows w !! j
                 else rows w !! j) as Hrows.
  { intros j. simpl. rewrite map_lookup_imap.
    destruct (rows w !! j) as [c|]; simpl; [|by destruct (decide _)].
    case_bool_decide; by destruct (decide _). }
  split_and!.
  - eexists. split; [done|].
    assert (NoDup (id <$> filter (λ r : Log, id r ∈ ids) (table_rows w))) as Hnd.
    { apply (sublist_NoDup _ (id <$> table_rows w)); [apply NoDup_table_ids|].
      apply fmap_sublist, sublist_filter. }
    assert (∀ j, j ∈ id <$> filter (λ r : Log, id r ∈ ids) (table_rows w) → j ∈ ids) as Hsub.
    { intros j (r & -> & [Hin _]%list_elem_of_filter)%list_elem_of_fmap. done. }
    split_and!.
    + done.
    + rewrite <-(length_fmap id).
      apply Permutation_length, NoDup_Permutation;
        [done|apply NoDup_filter, NoDup_remove_dups|].
      intros j. rewrite list_elem_of_filter, elem_of_remove_dups. split.
      * intros (r & -> & [Hin Hr]%list_elem_of_filter)%list_elem_of_fmap.
        apply elem_of_table_rows in Hr. by split; [eexists|].
      * intros [[c Hc] Hj]. apply list_elem_of_fmap. exists (mkLog j c).
        split; [done|]. apply list_elem_of_filter. split; [done|].
        by apply elem_of_table_rows.
    + intros Hids. rewrite <-(length_fmap id).
      by apply submseteq_length, NoDup_submseteq.
    + intros Hids Hall. rewrite <-(length_fmap id).
      apply Permutation_length, NoDup_Permutation; [done|done|].
      intros j. split; [apply Hsub|]. intros Hj.
      destruct (Hall j Hj) as [c Hc]. apply list_elem_of_fmap. exists (mkLog j c).
      split; [done|]. apply list_elem_of_filter. split; [done|].
      by apply elem_of_table_rows.
  - intros j Hj. by rewrite Hrows, decide_True.
  - intros j Hj. by rewrite Hrows, decide_False.
  - intros Hall. destruct (updates_in_turn ids st err w Hall) as (logs & Hlogs & _ & Hturn).
    split; [by exists logs|]. apply map_eq. intros j. unfold in_turn.
    by rewrite Hturn, Hrows.
  - intros Hmissing. eexists. split; [by apply updates_stop_at_missing|done].
Qed.

(** ** What the services never do to the table *)

Lemma same_message_refl (c : Columns) : same_message c c.
Proof. done. Qed.

Lemma same_message_trans (c1 c2 c3 : Columns) :
  same_message c1 c2 → same_message c2 c3 → same_message c1 c3.
Proof. unfold same_message. intros (? & ? & ? & ?) (? & ? & ? & ?). split_and!; congruence. Qed.

Lemma steady_intro w w' :
  (∀ i c, rows w !! i = Some c → ∃ c', rows w' !! i = Some c' ∧ same_message c c') →
  nextId w ≤ nextId w' → tenants w' = tenants w →
  (ids_below w → ids_below w') → (all_in_life_cycle w → all_in_life_cycle w') →
  steady w w'.
Proof. intros. by split_and!. Qed.

Lemma steady_same w w' :
  rows w' = rows w → nextId w' = nextId w → tenants w' = tenants w → steady w w'.
Proof.
  intros Hr Hn Ht. apply steady_intro; unfold ids_below, all_in_life_cycle;
    rewrite ?Hr, ?Hn, ?Ht; try done.
  intros i c Hc. exists c. split; [done|apply same_message_refl].
Qed.

Lemma steady_refl w : steady w w.
Proof. by apply steady_same. Qed.

Lemma steady_trans w1 w2 w3 : steady w1 w2 → steady w2 w3 → steady w1 w3.
Proof.
  intros ((Hk1 & Hn1 & Ht1) & Hi1 & Hl1) ((Hk2 & Hn2 & Ht2) & Hi2 & Hl2).
  apply steady_intro; [ |lia|congruence|auto|auto].
  intros i c Hc. destruct (Hk1 i c Hc) as (c' & Hc' & Hm).
  destruct (Hk2 i c' Hc') as (c'' & Hc'' & Hm'). exists c''. split; [done|].
  by eapply same_message_trans.
Qed.

Lemma createLog_steady ld w :
  life_cycle (js_or_str (ld_status ld) "pending") → steady w (createLog ld w).2.
Proof.
  intros Hlc. destruct (createLog ld w) as [[e|log] w1] eqn:Hc; simpl.
  - apply createLog_inl in Hc as ->. apply steady_intro; unfold ids_below, all_in_life_cycle; simpl; try done; [|lia|].
    + intros i c Hi. exists c. split; [done|apply same_message_refl].
    + intros Hbelow i c Hi. specialize (Hbelow i c Hi). simpl. lia.
  - apply createLog_inr in Hc as (_ & -> & Hfree & _). unfold created.
    apply steady_intro; unfold ids_below, all_in_life_cycle; simpl; try done; [|lia| |].
    + intros i c Hi. exists c. split; [|apply same_message_refl].
      rewrite lookup_insert_ne; [done|]. congruence.
    + intros Hbelow i c. destruct (decide (i = nextId w)) as [->|Hne].
      * intros _. lia.
      * rewrite lookup_insert_ne by done. intros Hi. specialize (Hbelow i c Hi). lia.
    + intros Hall i c. destruct (decide (i = nextId w)) as [->|Hne].
      * rewrite lookup_insert_eq. by intros [= <-].
      * rewrite lookup_insert_ne by done. apply Hall.
Qed.

Lemma updateLogStatus_steady i st err w :
  life_cycle st → steady w (updateLogStatus i st err w).2.
Proof.
  intros Hlc. destruct (rows w !! i) as [r|] eqn:Hr.
  - rewrite (updateLogStatus_found _ _ _ _ _ Hr). unfold status_written.
    apply steady_intro; unfold ids_below, all_in_life_cycle; simpl; try done.
    + intros j c. destruct (decide (j = i)) as [->|Hne].
      * rewrite Hr. intros [= <-]. rewrite lookup_insert_eq. by eexists.
      * intros Hj. rewrite lookup_insert_ne by done. exists c. split; [done|].
        apply same_message_refl.
    + intros Hbelow j c. destruct (decide (j = i)) as [->|Hne].
      * intros _. by apply (Hbelow i r).
      * rewrite lookup_insert_ne by done. apply Hbelow.
    + intros Hall j c. destruct (decide (j = i)) as [->|Hne].
      * rewrite lookup_insert_eq. by intros [= <-].
      * rewrite lookup_insert_ne by done. apply Hall.
  - rewrite (updateLogStatus_missing _ _ _ _ Hr). apply steady_refl.
Qed.

Lemma adapter_send_steady rq w : steady w (adapter_send rq w).2.
Proof. rewrite adapter_send_world. by apply steady_same. Qed.

Lemma bind_steady {A B} (m : M World A) (k : A → M World B) :
  (∀ w, steady w (m w).2) → (∀ a w, steady w (k a w).2) → ∀ w, steady w (bind m k w).2.
Proof.
  intros Hm Hk w. unfold bind. specialize (Hm w).
  destruct (m w) as [[e|a] w1]; simpl in *; [done|].
  eapply steady_trans; [done|apply Hk].
Qed.

Lemma try_catch_steady {A} (m : M World A) (h : JsError → M World A) :
  (∀ w, steady w (m w).2) → (∀ e w, steady w (h e w).2) → ∀ w, steady w (try_catch m h w).2.
Proof.
  intros Hm Hh w. unfold try_catch. specialize (Hm w).
  destruct (m w) as [[e|a] w1]; simpl in *; [|done].
  eapply steady_trans; [done|apply Hh].
Qed.

Lemma logging_errors_steady {A} (m : M World A) :
  (∀ w, steady w (m w).2) → ∀ w, steady w (logging_errors m w).2.
Proof. intros Hm w. rewrite logging_errors_id. apply Hm. Qed.

Lemma for_of_steady {A R} (xs : list A) (body : A → M World R) :
  (∀ x w, steady w (body x w).2) → ∀ w, steady w (for_of xs body w).2.
Proof.
  intros Hbody. induction xs as [|x xs IH]; intros w; [apply steady_refl|].
  simpl. apply bind_steady; [apply Hbody|]. intros r. apply bind_steady; [apply IH|].
  intros rs w'. apply steady_refl.
Qed.

Lemma life_cycle_pending : life_cycle "pending".
Proof. by left. Qed.
Lemma life_cycle_sent : life_cycle "sent".
Proof. right. by left. Qed.
Lemma life_cycle_failed : life_cycle "failed".
Proof. right. by right. Qed.

Lemma sendOne_steady d w : steady w (sendOne d w).2.
Proof.
  unfold sendOne. apply logging_errors_steady, bind_steady.
  - intros w'. apply createLog_steady, life_cycle_pending.
  - intros log. apply try_catch_steady.
    + apply bind_steady; [apply adapter_send_steady|]. intros result.
      apply bind_steady; [intros w'; apply updateLogStatus_steady, life_cycle_sent|].
      intros _ w'. apply steady_refl.
    + intros e. apply bind_steady; [intros w'; apply updateLogStatus_steady, life_cycle_failed|].
      intros _ w'. apply steady_refl.
Qed.

Lemma retryFailed_steady limit w : steady w (retryFailed limit w).2.
Proof.
  unfold retryFailed. apply logging_errors_steady, bind_steady.
  - intros w'. rewrite getFailedLogsForRetry_eq. apply steady_refl.
  - intros logs. apply for_of_steady. intros log. unfold retry_one. apply try_catch_steady.
    + apply bind_steady; [intros w'; apply updateLogStatus_steady, life_cycle_pending|].
      intros _. apply bind_steady; [apply adapter_send_steady|]. intros result.
      apply bind_steady; [intros w'; apply updateLogStatus_steady, life_cycle_sent|].
      intros _ w'. apply steady_refl.
    + intros e. apply bind_steady; [intros w'; apply updateLogStatus_steady, life_cycle_failed|].
      intros _ w'. apply steady_refl.
Qed.

Lemma step_task_steady b t w : steady w (step_task b t w).2.
Proof.
  unfold step_task. destruct (tk_items t) as [|item rest]; [apply steady_refl|].
  destruct (tk_stage t) as [|log|log result|log error].
  - set (ld := mkLogData _ _ _ _ _).
    pose proof (createLog_steady ld w life_cycle_pending) as Hs.
    by destruct (createLog ld w) as [[e|log] w1].
  - set (rq := mkRequest _ _ _).
    pose proof (adapter_send_steady rq w) as Hs.
    by destruct (adapter_send rq w) as [[e|res] w1].
  - pose proof (updateLogStatus_steady (id log) "sent" None w life_cycle_sent) as Hs.
    by destruct (updateLogStatus _ _ _ w) as [[e|l] w1].
  - pose proof (updateLogStatus_steady (id log) "failed" (Some (message error)) w
                  life_cycle_failed) as Hs.
    by destruct (updateLogStatus _ _ _ w) as [[e|l] w1].
Qed.

Lemma pool_step_steady b p w ev : steady w (pool_step b (p, w) ev).2.
Proof.
  destruct ev as [ms| |k]; simpl.
  - by apply steady_same.
  - destruct (pl_main p) as [i deadline|]; [|apply steady_refl].
    destruct (deadline <=? now w); apply steady_refl.
  - destruct (pl_tasks p !! k) as [t|]; [|apply steady_refl].
    pose proof (step_task_steady b t w) as Hs.
    by destruct (step_task b t w) as [t' w'].
Qed.

Lemma run_steady b σ : ∀ p w, steady w (run b σ (p, w)).2.
Proof.
  induction σ as [|ev σ IH]; intros p w; [apply steady_refl|].
  rewrite run_cons. pose proof (pool_step_steady b p w ev) as Hs.
  destruct (pool_step b (p, w) ev) as [p1 w1]. simpl in Hs.
  eapply steady_trans; [done|apply IH].
Qed.

Lemma exec_steady w op : steady w (exec w op).
Proof.
  destruct op; simpl.
  - apply sendOne_steady.
  - rewrite sendBulk_world. apply run_steady.
  - apply retryFailed_steady.
  - by apply steady_same.
Qed.

(** X11.  Over any sequence of [sendOne], [sendBulk] (under any schedule) and
    [retryFailed] calls, with any time passing in between: no row is
    deleted; a row keeps its tenant, its destination and content, its
    provider and its creation time; the sequence of ids never goes back, and
    stays above every id in the table if it was; and if every status in the
    table was [pending], [sent] or [failed], so it is afterwards. *)
Theorem services_keep_the_log ops w :
  (∀ i c, rows w !! i = Some c →
     ∃ c', rows (exec_all ops w) !! i = Some c' ∧
           tenantId c' = tenantId c ∧ content c' = content c ∧
           provider c' = provider c ∧ createdAt c' = createdAt c) ∧
  nextId w ≤ nextId (exec_all ops w) ∧
  (ids_below w → ids_below (exec_all ops w)) ∧
  (all_in_life_cycle w → all_in_life_cycle (exec_all ops w)).
Proof.
  assert (steady w (exec_all ops w)) as ((Hkeeps & Hnext & _) & Hbelow & Hlc).
  { unfold exec_all. revert w. induction ops as [|op ops IH]; intros w; simpl.
    - apply steady_refl.
    - eapply steady_trans; [apply exec_steady|apply IH]. }
  split_and!; try done.
Qed.

(** What [sendOne] does when the row can be created. *)
Lemma sendOne_outcome d w :
  ids_below w → sd_tenantId d ∈ tenants w →
  ∃ c table,
    rows (sendOne d w).2 !! nextId w = Some c ∧
    tenantId c = sd_tenantId d ∧ content c = sd_content d ∧
    provider c = sd_provider d ∧ createdAt c = now w ∧
    trace (sendOne d w).2
    = trace w ++ [EvCreate (new_row (pending_data d) w); EvSend (request_of d) table;
                  EvStatus (nextId w) "pending" (status c)] ∧
    match (sendOne d w).1 with
    | inr ok => ok_logId ok = nextId w ∧ status c = "sent" ∧ errorMessage c = None
    | inl e => status c = "failed" ∧ errorMessage c = Some (message e)
    end.
Proof.
  intros Hbelow Htenant.
  assert (rows w !! nextId w = None) as Hfree.
  { destruct (rows w !! nextId w) as [c|] eqn:Hc; [|done].
    specialize (Hbelow _ _ Hc). lia. }
  pose proof (createLog_fresh (pending_data d) w Hfree Htenant) as Hc.
  set (w1 := created (pending_data d) w) in *.
  pose proof (adapter_send_world (request_of d) w1) as Hw2.
  destruct (adapter_send (request_of d) w1) as [[e|res] w2] eqn:Ha; simpl in Hw2; subst w2.
  - rewrite (sendOne_failed _ _ _ _ _ _ Hc Ha). simpl.
    eexists _, (rows w1). rewrite lookup_insert_eq. split_and!; try done.
    by rewrite <-!app_assoc.
  - rewrite (sendOne_sent _ _ _ _ _ _ Hc Ha). simpl.
    eexists _, (rows w1). rewrite lookup_insert_eq. split_and!; try done.
    by rewrite <-!app_assoc.
Qed.

(** X12.  With ids in the table below the sequence and the tenant in place,
    [sendOne] settles the row it creates: the row has the id the sequence
    was at, the tenant and the content of the request, and the adapter is
    called once; if [sendOne] returns, it returns that id and the row is
    [sent] with no error message; if it throws, the row is [failed] with the
    message of what was thrown.  With the tenant missing, [sendOne] throws
    without creating a row or calling the adapter. *)
Theorem sendOne_settles_its_row d w :
  ids_below w →
  (sd_tenantId d ∈ tenants w →
     ∃ c table,
       rows (sendOne d w).2 !! nextId w = Some c ∧
       tenantId c = sd_tenantId d ∧ content c = sd_content d ∧
       provider c = sd_provider d ∧ createdAt c = now w ∧
       trace (sendOne d w).2
       = trace w ++ [EvCreate (new_row (pending_data d) w); EvSend (request_of d) table;
                     EvStatus (nextId w) "pending" (status c)] ∧
       match (sendOne d w).1 with
       | inr ok => ok_logId ok = nextId w ∧ status c = "sent" ∧ errorMessage c = None
       | inl e => status c = "failed" ∧ errorMessage c = Some (message e)
       end) ∧
  (sd_tenantId d ∉ tenants w →
     (∃ e, (sendOne d w).1 = inl e) ∧
     rows (sendOne d w).2 = rows w ∧ trace (sendOne d w).2 = trace w).
Proof.
  intros Hbelow. split; [by apply sendOne_outcome|].
  intros Htenant.
  assert (createLog (pending_data d) w
          = (inl (mkError "PrismaClientKnownRequestError"
                    "Foreign key constraint failed on the field: `tenantId`"),
             set_nextId (nextId w + 1) w)) as Hc.
  { unfold createLog. rewrite logging_errors_id. unfold prisma_create. simpl.
    by rewrite bool_decide_eq_false_2. }
  rewrite (sendOne_create_fails _ _ _ _ Hc). simpl. split_and!; try done. by eexists.
Qed.

Lemma filter_none {A} (P : A → Prop) `{∀ x, Decision (P x)} (l : list A) :
  (∀ x, x ∈ l → ¬ P x) → filter P l = [].
Proof.
  intros Hnone. destruct (filter P l) as [|x rest] eqn:Hf; [done|].
  assert (x ∈ filter P l) as [Hp Hin]%list_elem_of_filter by (rewrite Hf; by left).
  by destruct (Hnone x Hin).
Qed.

Lemma cleanup_where_valid t daysOld : where_valid (cleanup_where t daysOld).
Proof. done. Qed.

(** X13.  Cleaning up twice in a row: the second run finds nothing to delete and
    leaves the table as the first left it.  And a run with a longer
    retention deletes no row that a run with a shorter one keeps. *)
Theorem cleanupOld_idempotent daysOld w :
  (cleanupOld daysOld (cleanupOld daysOld w).2).1 = inr 0%nat ∧
  rows (cleanupOld daysOld (cleanupOld daysOld w).2).2 = rows (cleanupOld daysOld w).2 ∧
  ∀ longer i c, daysOld ≤ longer →
    rows (cleanupOld daysOld w).2 !! i = Some c →
    rows (cleanupOld longer w).2 !! i = Some c.
Proof.
  rewrite !cleanupOld_eq. simpl. split_and!.
  - f_equal. apply length_zero_iff_nil, filter_none.
    intros r [Hrow Hkeep]%elem_of_table_rows%map_lookup_filter_Some. done.
  - apply map_filter_id. by intros i c [_ Hkeep]%map_lookup_filter_Some.
  - intros longer i c Hle [Hrow Hkeep]%map_lookup_filter_Some.
    apply map_lookup_filter_Some. split; [done|].
    simpl in *. intros [Hst Hold]%matches_cleanup_where.
    apply Hkeep, matches_cleanup_where. split; [done|lia].
Qed.


End RepositoryFacts.

(* ===================================================================== *)
(** ** Templates *)
(* ===================================================================== *)

Section TemplateFacts.
Import Mailer.

Lemma append_String c (a b : string) : String c a +:+ b = String c (a +:+ b).
Proof. done. Qed.

Lemma append_empty (b : string) : "" +:+ b = b.
Proof. done. Qed.

Lemma append_assoc (a b c : string) : (a +:+ b) +:+ c = a +:+ (b +:+ c).
Proof. induction a as [|x a IH]; [done|]. by rewrite !append_String, IH. Qed.

Lemma span_word_app s : (span_word s).1 +:+ (span_word s).2 = s.
Proof.
  induction s as [|c s IH]; [done|]. simpl.
  destruct (is_word_char c); [|done].
  destruct (span_word s) as [word rest]. simpl in *. by rewrite append_String, IH.
Qed.

Lemma length_append (a b : string) :
  String.length (a +:+ b) = (String.length a + String.length b)%nat.
Proof.
  induction a as [|c a IH]; [done|]. rewrite append_String. simpl. by rewrite IH.
Qed.

(** A placeholder at the start of [s]: [s] is ["{{"], the key, ["}}"], and
    the rest. *)
Lemma placeholder_Some s key rest :
  placeholder s = Some (key, rest) →
  s = "{{" +:+ key +:+ "}}" +:+ rest ∧ key ≠ "".
Proof.
  unfold placeholder. destruct s as [|c1 [|c2 s1]]; try done.
  destruct (Ascii.eqb c1 open_brace) eqn:H1; [|done].
  destruct (Ascii.eqb c2 open_brace) eqn:H2; [|done]. simpl.
  apply Ascii.eqb_eq in H1 as ->. apply Ascii.eqb_eq in H2 as ->.
  pose proof (span_word_app s1) as Happ.
  destruct (span_word s1) as [[|k word] [|c3 [|c4 rest']]]; try done.
  destruct (Ascii.eqb c3 close_brace) eqn:H3; [|done].
  destruct (Ascii.eqb c4 close_brace) eqn:H4; [|done]. simpl.
  apply Ascii.eqb_eq in H3 as ->. apply Ascii.eqb_eq in H4 as ->.
  intros [= <- <-]. split; [|done]. simpl in Happ. rewrite <-Happ. reflexivity.
Qed.

Lemma placeholder_shorter s key rest :
  placeholder s = Some (key, rest) → (String.length rest < String.length s)%nat.
Proof.
  intros [-> _]%placeholder_Some. rewrite !length_append. simpl. lia.
Qed.

(** With no value to put in, the content comes out as it went in. *)
Lemma replace_placeholders_nothing (d : gmap string string) fuel : ∀ s,
  (∀ key, truthy (d !! key) = false) → (String.length s ≤ fuel)%nat →
  replace_placeholders fuel (Some d) s = inr s.
Proof.
  induction fuel as [|fuel IH]; intros s Hd Hlen; [done|]. simpl.
  destruct (placeholder s) as [[key rest]|] eqn:Hp.
  - pose proof (placeholder_shorter _ _ _ Hp) as Hshort.
    apply placeholder_Some in Hp as [Hs _].
    rewrite IH by (done || lia). unfold js_or_str, js_or. rewrite Hd. simpl.
    by rewrite Hs, !append_assoc.
  - destruct s as [|c s]; [done|]. simpl in Hlen. by rewrite IH by (done || lia).
Qed.

Lemma getHtmlTemplate_cases name :
  getHtmlTemplate name = Some html_welcome ∨
  getHtmlTemplate name = Some html_password_reset ∨
  getHtmlTemplate name = Some html_notification ∨
  getHtmlTemplate name = Some html_comment_notification ∨
  getHtmlTemplate name = Some html_mention_notification ∨
  (getHtmlTemplate name = None ∧ name ∈ Object_prototype_keys).
Proof.
  unfold getHtmlTemplate. repeat (destruct (String.eqb name _); [tauto|]).
  case_bool_decide; tauto.
Qed.

Lemma getTextTemplate_cases name :
  getTextTemplate name = Some text_welcome ∨
  getTextTemplate name = Some text_password_reset ∨
  getTextTemplate name = Some text_notification ∨
  getTextTemplate name = Some text_comment_notification ∨
  getTextTemplate name = Some text_mention_notification ∨
  (getTextTemplate name = None ∧ name ∈ Object_prototype_keys).
Proof.
  unfold getTextTemplate. repeat (destruct (String.eqb name _); [tauto|]).
  case_bool_decide; tauto.
Qed.

Lemma same_template_found name :
  is_Some (getHtmlTemplate name) ↔ is_Some (getTextTemplate name).
Proof.
  unfold getHtmlTemplate, getTextTemplate.
  repeat (destruct (String.eqb name _); [by split; eexists|]).
  case_bool_decide; [by split; intros [? ?]|by split; eexists].
Qed.

(** X14.  Rendering a template needs [data] and a template name that is not a key
    of [Object.prototype]: without [data] it throws, whatever the template
    and the format, since every template has a placeholder; and for such a
    name it throws, whatever the data.  Any other name that is not one of
    the five templates gets the notification template.  With [data] in which
    no placeholder has a non-empty value, the template comes out unchanged,
    placeholders and all. *)
Theorem renderTemplate_edge_cases name format :
  (∃ e, renderTemplate name None format = inl e) ∧
  (name ∈ Object_prototype_keys →
     ∀ data, renderTemplate name data format
             = inl (TypeError "templateContent.replace is not a function")) ∧
  (name ∉ ["welcome"; "password-reset"; "notification"; "comment-notification";
           "mention-notification"] →
   name ∉ Object_prototype_keys →
     ∀ data, renderTemplate name data format = renderTemplate "notification" data format) ∧
  (∀ d : gmap string string, (∀ key, truthy (d !! key) = false) →
     name ∉ Object_prototype_keys →
     ∃ content,
       match format with
       | Html => getHtmlTemplate name
       | Text => getTextTemplate name
       end = Some content ∧
       renderTemplate name (Some d) format = inr content).
Proof.
  split_and!.
  - unfold renderTemplate. destruct format.
    + destruct (getHtmlTemplate_cases name) as [->|[->|[->|[->|[->|[-> _]]]]]];
        by eexists; vm_compute.
    + destruct (getTextTemplate_cases name) as [->|[->|[->|[->|[->|[-> _]]]]]];
        by eexists; vm_compute.
  - intros Hin data. unfold renderTemplate, getHtmlTemplate, getTextTemplate.
    rewrite (bool_decide_eq_true_2 _ Hin).
    assert (∀ s, s ∉ Object_prototype_keys → String.eqb name s = false) as Hne.
    { intros s Hs. apply String.eqb_neq. by intros ->. }
    rewrite !Hne by (apply (bool_decide_unpack _); vm_compute; exact I). by destruct format.
  - intros Hnot Hproto data. unfold renderTemplate, getHtmlTemplate, getTextTemplate.
    rewrite (bool_decide_eq_false_2 _ Hproto).
    assert (∀ s, s ∈ ["welcome"; "password-reset"; "notification"; "comment-notification";
                      "mention-notification"] → String.eqb name s = false) as Hne.
    { intros s Hs. apply String.eqb_neq. by intros ->. }
    rewrite !Hne by (apply (bool_decide_unpack _); vm_compute; exact I). by destruct format.
  - intros d Hd Hproto. unfold renderTemplate. destruct format.
    + destruct (getHtmlTemplate_cases name) as [->|[->|[->|[->|[->|[_ ?]]]]]]; [..|done];
        (eexists; split; [done|]; by apply replace_placeholders_nothing).
    + destruct (getTextTemplate_cases name) as [->|[->|[->|[->|[->|[_ ?]]]]]]; [..|done];
        (eexists; split; [done|]; by apply replace_placeholders_nothing).
Qed.

Lemma replace_placeholders_returns (d : gmap string string) fuel : ∀ s,
  ∃ out, replace_placeholders fuel (Some d) s = inr out.
Proof.
  induction fuel as [|fuel IH]; intros s; [by eexists|]. simpl.
  destruct (placeholder s) as [[key rest]|].
  - destruct (IH rest) as [out ->]. by eexists.
  - destruct s as [|c s]; [by eexists|]. destruct (IH s) as [out ->]. by eexists.
Qed.

(** With [data] given, rendering throws only for the template names that are
    keys of [Object.prototype]. *)
Lemma renderTemplate_returns name (d : gmap string string) format :
  name ∉ Object_prototype_keys → ∃ out, renderTemplate name (Some d) format = inr out.
Proof.
  intros Hproto. unfold renderTemplate. destruct format.
  - destruct (getHtmlTemplate_cases name) as [->|[->|[->|[->|[->|[_ ?]]]]]]; [..|done];
      apply replace_placeholders_returns.
  - destruct (getTextTemplate_cases name) as [->|[->|[->|[->|[->|[_ ?]]]]]]; [..|done];
      apply replace_placeholders_returns.
Qed.

Lemma append_nil_r (a : string) : a +:+ "" = a.
Proof. induction a as [|c a IH]; [done|]. by rewrite append_String, IH. Qed.

(** X15.  The values are put into a template as they are.  In a notification, the
    title and the message come out character for character, in the text and
    in the HTML alike: markup in them is not escaped, and a placeholder in
    them is not filled in. *)
Theorem renderTemplate_puts_values_in_verbatim title message_ :
  title ≠ "" → message_ ≠ "" →
  let data := Some (<[ "title" := title ]> ({[ "message" := message_ ]} : gmap string string)) in
  renderTemplate "notification" data Text
  = inr (title +:+ newline +:+ newline +:+ message_) ∧
  renderTemplate "notification" data Html
  = inr (lines
           [""; "        <!DOCTYPE html>"; "        <html>"; "        <head>";
            "          <meta charset=" +:+ dquote +:+ "utf-8" +:+ dquote +:+ ">";
            "          <title>" +:+ title +:+ "</title>";
            "        </head>"; "        <body>";
            "          <h1>" +:+ title +:+ "</h1>";
            "          <p>" +:+ message_ +:+ "</p>";
            "        </body>"; "        </html>"; "      "]).
Proof.
  intros Htitle Hmessage.
  destruct title as [|c1 title]; [done|]. destruct message_ as [|c2 message_]; [done|].
  split; [|unfold lines; cbn [String.concat]; rewrite !append_assoc; vm_compute; reflexivity].
  transitivity (@inr JsError string
                  (String c1 title +:+ newline +:+ newline +:+ (String c2 message_ +:+ "")));
    [vm_compute; reflexivity|].
  by rewrite append_nil_r.
Qed.

End TemplateFacts.

(* ===================================================================== *)
(** ** The adapters *)
(* ===================================================================== *)

Section EscapeFacts.
Import EmailConfig.

Lemma replace_all_app c r (a b : string) :
  replace_all c r (a +:+ b) = replace_all c r a +:+ replace_all c r b.
Proof.
  induction a as [|x a IH]; [done|].
  rewrite append_String. simpl. by rewrite IH, append_assoc.
Qed.

Lemma escape_char_chain c :
  replace_all "'"%char "&#39;"
    (replace_all (Ascii.ascii_of_N 34) "&quot;"
       (replace_all ">"%char "&gt;"
          (replace_all "<"%char "&lt;"
             (if Ascii.eqb c "&"%char then "&amp;" else String c EmptyString))))
  = escape_char c.
Proof.
  unfold escape_char.
  destruct (Ascii.eqb_spec c "&"%char) as [->|H1]; [done|].
  destruct (Ascii.eqb_spec c "<"%char) as [->|H2]; [done|].
  destruct (Ascii.eqb_spec c ">"%char) as [->|H3]; [done|].
  destruct (Ascii.eqb_spec c (Ascii.ascii_of_N 34)) as [->|H4]; [done|].
  destruct (Ascii.eqb_spec c "'"%char) as [->|H5]; [done|].
  cbn [replace_all].
  apply Ascii.eqb_neq in H2, H3, H4, H5.
  by repeat (cbn [replace_all]; rewrite ?H2, ?H3, ?H4, ?H5, ?append_nil_r).
Qed.

(** [escapeHtml], one character at a time, is the five replacements of the
    source carried out one after the other over the whole string. *)
Lemma escapeHtml_chain_eq s : escapeHtml_chain s = escapeHtml s.
Proof.
  symmetry. induction s as [|c s IH]; [done|].
  unfold escapeHtml_chain in *. cbn [escapeHtml replace_all].
  rewrite !replace_all_app, <-IH. by rewrite escape_char_chain.
Qed.

Lemma escape_char_inj c1 c2 (t1 t2 : string) :
  escape_char c1 +:+ t1 = escape_char c2 +:+ t2 → c1 = c2 ∧ t1 = t2.
Proof.
  unfold escape_char.
  destruct (Ascii.eqb_spec c1 "&"%char) as [->|?];
    [|destruct (Ascii.eqb_spec c1 "<"%char) as [->|?];
      [|destruct (Ascii.eqb_spec c1 ">"%char) as [->|?];
        [|destruct (Ascii.eqb_spec c1 (Ascii.ascii_of_N 34)) as [->|?];
          [|destruct (Ascii.eqb_spec c1 "'"%char) as [->|?]]]]];
  (destruct (Ascii.eqb_spec c2 "&"%char) as [->|?];
    [|destruct (Ascii.eqb_spec c2 "<"%char) as [->|?];
      [|destruct (Ascii.eqb_spec c2 ">"%char) as [->|?];
        [|destruct (Ascii.eqb_spec c2 (Ascii.ascii_of_N 34)) as [->|?];
          [|destruct (Ascii.eqb_spec c2 "'"%char) as [->|?]]]]]);
  cbv [String.append]; intros Heq; try discriminate Heq; simplify_eq; done.
Qed.

Lemma escape_char_nonempty c (t : string) : escape_char c +:+ t ≠ "".
Proof.
  unfold escape_char. repeat (destruct (Ascii.eqb _ _); [done|]). done.
Qed.

Lemma includes_char c c' (s : string) :
  includes (String c EmptyString) (String c' s)
  = Ascii.eqb c c' || includes (String c EmptyString) s.
Proof.
  cbn [includes String.prefix].
  destruct (Ascii.ascii_dec c c') as [->|Hne].
  - rewrite Ascii.eqb_refl. by destruct s.
  - apply Ascii.eqb_neq in Hne. by rewrite Hne.
Qed.

Lemma includes_char_app c (a b : string) :
  includes (String c EmptyString) (a +:+ b)
  = includes (String c EmptyString) a || includes (String c EmptyString) b.
Proof.
  induction a as [|x a IH].
  - rewrite append_empty. by destruct b.
  - rewrite append_String, !includes_char, IH. by rewrite orb_assoc.
Qed.

(** X16.  The five replacements of [escapeHtml], carried out one after the other
    over the whole string, replace each character of the string once: what
    an earlier replacement has put in is not replaced again.  What they make
    has no [<], no [>], no double quote and no single quote in it; it is the
    string itself when the string has none of the five characters that are
    replaced; and two different strings are never escaped to the same one. *)
Theorem escapeHtml_leaves_no_markup s :
  escapeHtml_chain s = escapeHtml s ∧
  includes "<" (escapeHtml_chain s) = false ∧
  includes ">" (escapeHtml_chain s) = false ∧
  includes dquote (escapeHtml_chain s) = false ∧
  includes "'" (escapeHtml_chain s) = false ∧
  (includes "&" s = false → includes "<" s = false → includes ">" s = false →
   includes dquote s = false → includes "'" s = false → escapeHtml_chain s = s) ∧
  (∀ s', escapeHtml_chain s = escapeHtml_chain s' → s = s').
Proof.
  assert (∀ c, includes "<" (escape_char c) = false ∧ includes ">" (escape_char c) = false ∧
               includes dquote (escape_char c) = false ∧
               includes "'" (escape_char c) = false) as Hchar.
  { intros c. unfold escape_char.
    destruct (Ascii.eqb_spec c "&"%char) as [->|H1]; [done|].
    destruct (Ascii.eqb_spec c "<"%char) as [->|H2]; [done|].
    destruct (Ascii.eqb_spec c ">"%char) as [->|H3]; [done|].
    destruct (Ascii.eqb_spec c (Ascii.ascii_of_N 34)) as [->|H4]; [done|].
    destruct (Ascii.eqb_spec c "'"%char) as [->|H5]; [done|].
    unfold dquote. rewrite !includes_char.
    apply not_eq_sym, Ascii.eqb_neq in H2, H3, H4, H5. by rewrite H2, H3, H4, H5. }
  split; [apply escapeHtml_chain_eq|].
  rewrite !escapeHtml_chain_eq.
  split_and!.
  - induction s as [|c s IH]; [done|]. cbn [escapeHtml].
    rewrite includes_char_app, IH. by destruct (Hchar c) as (-> & _).
  - induction s as [|c s IH]; [done|]. cbn [escapeHtml].
    rewrite includes_char_app, IH. by destruct (Hchar c) as (_ & -> & _).
  - induction s as [|c s IH]; [done|]. cbn [escapeHtml]. unfold dquote in *.
    rewrite includes_char_app, IH. by destruct (Hchar c) as (_ & _ & -> & _).
  - induction s as [|c s IH]; [done|]. cbn [escapeHtml].
    rewrite includes_char_app, IH. by destruct (Hchar c) as (_ & _ & _ & ->).
  - induction s as [|c s IH]; [done|]. unfold dquote in *. rewrite !includes_char.
    intros [E1 ?]%orb_false_elim [E2 ?]%orb_false_elim [E3 ?]%orb_false_elim
           [E4 ?]%orb_false_elim [E5 ?]%orb_false_elim.
    cbn [escapeHtml]. rewrite IH by done. unfold escape_char.
    rewrite Ascii.eqb_sym in E1, E2, E3, E4, E5. by rewrite E1, E2, E3, E4, E5.
  - intros s'. rewrite escapeHtml_chain_eq. revert s'.
    induction s as [|c s IH]; intros [|c' s']; cbn [escapeHtml]; intros Heq.
    + done.
    + symmetry in Heq. by apply escape_char_nonempty in Heq.
    + by apply escape_char_nonempty in Heq.
    + apply escape_char_inj in Heq as [-> Heq]. f_equal. by apply IH.
Qed.

End EscapeFacts.

Section AdapterFacts.

Variable Transporter : Type.
Variable MailNet : Type.
Variable nodemailer_createTransport : EmailConfig.TransportOptions → JsError + Transporter.
Variable transporter_sendMail :
  Transporter → EmailConfig.MailMessage → MailNet → (JsError + option string) * MailNet.

Variable TwilioClient : Type.
Variable SmsNet : Type.
Variable twilio : option string → option string → JsError + TwilioClient.
Variable twilio_messages_create :
  TwilioClient → SmsConfig.CreateParams → SmsNet → (JsError + SmsConfig.ClientResult) * SmsNet.

Local Abbreviation getClient := (SmsConfig.getClient TwilioClient SmsNet twilio).
Local Abbreviation getTransporter :=
  (EmailConfig.getTransporter Transporter MailNet nodemailer_createTransport).
Local Abbreviation SmsCfg := (SmsConfig.SmsCfg TwilioClient SmsNet).
Local Abbreviation EmailCfg := (EmailConfig.EmailCfg Transporter MailNet).
Local Abbreviation config_sendSms :=
  (SmsConfig.sendSms TwilioClient SmsNet twilio twilio_messages_create).
Local Abbreviation config_sendEmail :=
  (EmailConfig.sendEmail Transporter MailNet nodemailer_createTransport transporter_sendMail).
Local Abbreviation config_sendBulkSms :=
  (SmsConfig.sendBulkSms TwilioClient SmsNet twilio twilio_messages_create).
Local Abbreviation clients := (SmsConfig.clients TwilioClient SmsNet).
Local Abbreviation transporters := (EmailConfig.transporters Transporter MailNet).

(** X17.  The two registries build an adapter once.  When a call returns an
    adapter, that adapter is in the cache under the name asked for (the
    default provider when none is), the adapters cached before are still
    there, the environment and the network are as they were, and the same
    call made again returns the same adapter and changes nothing.  When a
    call throws, nothing is cached and the registry is as it was, so the
    next call tries again. *)
Theorem registries_build_once :
  (∀ provider (c c' : EmailCfg) transporter,
     getTransporter provider c = (inr transporter, c') →
     transporters c' !! js_or_str provider (EmailConfig.defaultProvider _ _ c)
     = Some transporter ∧
     (∀ q t, transporters c !! q = Some t → transporters c' !! q = Some t) ∧
     EmailConfig.defaultProvider _ _ c' = EmailConfig.defaultProvider _ _ c ∧
     EmailConfig.env _ _ c' = EmailConfig.env _ _ c ∧
     EmailConfig.net _ _ c' = EmailConfig.net _ _ c ∧
     getTransporter provider c' = (inr transporter, c')) ∧
  (∀ provider (c c' : EmailCfg) error,
     getTransporter provider c = (inl error, c') → c' = c) ∧
  (∀ provider (c c' : SmsCfg) client,
     getClient provider c = (inr client, c') →
     clients c' !! js_or_str provider (SmsConfig.defaultProvider _ _ c) = Some client ∧
     (∀ q t, clients c !! q = Some t → clients c' !! q = Some t) ∧
     SmsConfig.defaultProvider _ _ c' = SmsConfig.defaultProvider _ _ c ∧
     SmsConfig.env _ _ c' = SmsConfig.env _ _ c ∧
     SmsConfig.net _ _ c' = SmsConfig.net _ _ c ∧
     getClient provider c' = (inr client, c')) ∧
  (∀ provider (c c' : SmsCfg) error,
     getClient provider c = (inl error, c') → c' = c).
Proof.
  split_and!.
  - intros provider c c' transporter. unfold EmailConfig.getTransporter.
    set (name := js_or_str provider (EmailConfig.defaultProvider _ _ c)).
    destruct (transporters c !! name) as [t0|] eqn:Hc.
    + intros [= <- <-]. fold name. rewrite Hc. done.
    + destruct (EmailConfig.createTransporter _ _ _ _ _) as [error|t0]; [done|].
      intros [= <- <-]. simpl. fold name. rewrite lookup_insert_eq. split_and!; try done.
      intros q t Hq. rewrite lookup_insert_ne; [done|]. congruence.
  - intros provider c c' error. unfold EmailConfig.getTransporter.
    destruct (transporters c !! _) as [t0|]; [done|].
    destruct (EmailConfig.createTransporter _ _ _ _ _) as [error0|t0]; [|done].
    by intros [= _ <-].
  - intros provider c c' client. unfold SmsConfig.getClient.
    set (name := js_or_str provider (SmsConfig.defaultProvider _ _ c)).
    destruct (clients c !! name) as [t0|] eqn:Hc.
    + intros [= <- <-]. fold name. rewrite Hc. done.
    + destruct (SmsConfig.createClient _ _ _ _ _) as [error|t0]; [done|].
      intros [= <- <-]. simpl. fold name. rewrite lookup_insert_eq. split_and!; try done.
      intros q t Hq. rewrite lookup_insert_ne; [done|]. congruence.
  - intros provider c c' error. unfold SmsConfig.getClient.
    destruct (clients c !! _) as [t0|]; [done|].
    destruct (SmsConfig.createClient _ _ _ _ _) as [error0|t0]; [|done].
    by intros [= _ <-].
Qed.



Lemma getTransporter_supported provider (c : EmailCfg) :
  let name := js_or_str provider (EmailConfig.defaultProvider _ _ c) in
  (∀ q t, transporters c !! q = Some t →
          toLowerCase q ∈ EmailConfig.getSupportedProviders) →
  (∀ q t, transporters (getTransporter provider c).2 !! q = Some t →
          toLowerCase q ∈ EmailConfig.getSupportedProviders) ∧
  EmailConfig.defaultProvider _ _ (getTransporter provider c).2
  = EmailConfig.defaultProvider _ _ c ∧
  (∀ t, (getTransporter provider c).1 = inr t →
        toLowerCase name ∈ EmailConfig.getSupportedProviders).
Proof.
  intros name Hc. unfold EmailConfig.getTransporter. fold name.
  destruct (transporters c !! name) as [t0|] eqn:Hname.
  { simpl. split_and!; try done. intros _ _. by eapply Hc. }
  destruct (decide (toLowerCase name ∈ EmailConfig.getSupportedProviders)) as [Hin|Hnot].
  - destruct (EmailConfig.createTransporter _ _ _ _ _) as [error|t0]; simpl; [done|].
    split_and!; try done. intros q t. destruct (decide (q = name)) as [->|Hne].
    + done.
    + rewrite lookup_insert_ne by done. apply Hc.
  - by rewrite (proj2 (createTransporter_outcome _ _ _ _ _) Hnot).
Qed.

(** X19.  An email goes out only through a transporter of one of the four
    supported providers, whatever the case of the letters of the name: if
    every name in the cache is such a name, as it is before the first call,
    then when [sendEmail] of the config returns, the provider it reports is
    the one asked for, or the default when none was asked for, and is such a
    name; and every name in the cache still is. *)
Theorem email_goes_out_under_supported_names provider m o (c : EmailCfg) :
  let name := js_or_str provider (EmailConfig.defaultProvider _ _ c) in
  (∀ q t, transporters c !! q = Some t →
          toLowerCase q ∈ EmailConfig.getSupportedProviders) →
  (∀ q t, transporters (config_sendEmail provider m o c).2 !! q = Some t →
          toLowerCase q ∈ EmailConfig.getSupportedProviders) ∧
  ∀ r, (config_sendEmail provider m o c).1 = inr r →
    sr_provider r = Some name ∧ toLowerCase name ∈ EmailConfig.getSupportedProviders.
Proof.
  intros name Hc. unfold EmailConfig.sendEmail.
  destruct (getTransporter_supported provider c Hc) as (Hc1 & Hdefault & Hname).
  destruct (getTransporter provider c) as [[error|transporter] c1] eqn:Hg; simpl in *.
  { split; [done|]. intros r. done. }
  destruct (transporter_sendMail _ _ _) as [[e|messageId] n]; simpl.
  - split; [done|]. intros r. done.
  - split; [done|]. intros r [= <-]. simpl. rewrite Hdefault. split; [done|by eapply Hname].
Qed.

Lemma sendBulkSms_from_numbers clock provider message_ other o phoneNumbers :
  ∀ k (c : SmsCfg),
    SmsConfig.bs_phoneNumber <$>
      (SmsConfig.sendBulkSms_from TwilioClient SmsNet twilio twilio_messages_create
         clock k provider phoneNumbers message_ other o c).1
    = phoneNumbers.
Proof.
  induction phoneNumbers as [|phoneNumber rest IH]; intros k c; [done|].
  cbn [SmsConfig.sendBulkSms_from].
  destruct (config_sendSms _ _ _ _ _) as [r c1].
  specialize (IH (S k) c1).
  destruct (SmsConfig.sendBulkSms_from _ _ _ _ _ _ _ _ _ _ _ _) as [results c2].
  cbn [fst snd] in *. rewrite fmap_cons. f_equal; [by destruct r|done].
Qed.

Lemma sendBulkSms_from_shift clock provider message_ other o phoneNumbers :
  ∀ k (c : SmsCfg),
    SmsConfig.sendBulkSms_from TwilioClient SmsNet twilio twilio_messages_create
      (λ k, clock (S k)) k provider phoneNumbers message_ other o c
    = SmsConfig.sendBulkSms_from TwilioClient SmsNet twilio twilio_messages_create
        clock (S k) provider phoneNumbers message_ other o c.
Proof.
  induction phoneNumbers as [|phoneNumber rest IH]; intros k c; [done|].
  cbn [SmsConfig.sendBulkSms_from].
  destruct (config_sendSms _ _ _ _ _) as [r c1]. by rewrite IH.
Qed.

(** X20.  [sendBulkSms] of the config never throws: whatever the sends do, it
    returns one result for each number, in the order of the numbers, and a
    number that fails does not stop those after it.  The result of the first
    number is what [sendSms] returns or the message of what it throws, and
    the others are the results of the same call on the remaining numbers,
    made with the registry as the first send left it.  When the options
    carry a [phoneNumber] of their own, every send goes to that number,
    while the results still name the numbers of the list. *)
Theorem config_sendBulkSms_never_throws clock provider phoneNumbers message_ other o
    (c : SmsCfg) :
  ∃ results c',
    config_sendBulkSms clock provider phoneNumbers message_ other o c = (inr results, c') ∧
    SmsConfig.bs_phoneNumber <$> results = phoneNumbers ∧
    match phoneNumbers with
    | [] => results = [] ∧ c' = c
    | phoneNumber :: rest =>
        let first :=
          config_sendSms (clock 0%nat) provider
            (SmsConfig.mkSmsContent
               match other with
               | None => phoneNumber
               | Some number => number
               end message_) o c in
        ∃ others,
          results
          = SmsConfig.mkBulkSmsResult phoneNumber
              match first.1 with
              | inr result => inr result
              | inl error => inl (message error)
              end :: others ∧
          config_sendBulkSms (λ k, clock (S k)) provider rest message_ other o first.2
          = (inr others, c')
    end.
Proof.
  unfold SmsConfig.sendBulkSms.
  pose proof (sendBulkSms_from_numbers clock provider message_ other o phoneNumbers 0 c)
    as Hnumbers.
  destruct phoneNumbers as [|phoneNumber rest].
  { eexists _, _. split_and!; done. }
  cbn [SmsConfig.sendBulkSms_from] in *.
  replace (default phoneNumber other)
    with (match other with None => phoneNumber | Some number => number end) in *
    by (by destruct other).
  destruct (config_sendSms _ _ _ _ _) as [r c1]. simpl.
  rewrite sendBulkSms_from_shift.
  destruct (SmsConfig.sendBulkSms_from _ _ _ _ _ _ _ _ _ _ _ _) as [results c2].
  simpl in *. eexists _, _. split_and!; [done|done|]. eexists. split; [|done].
  by destruct r.
Qed.

Lemma mock_send now_ name mock m o (c : SmsCfg) :
  name = "aws-sns" ∧ mock = SmsConfig.AwsSnsMock _ ∨
  name = "messagebird" ∧ mock = SmsConfig.MessageBirdMock _ →
  clients c !! name = None ∨ clients c !! name = Some mock →
  ∃ c', config_sendSms now_ (Some name) m o c
        = (inr (mkSendResult (Some ("mock-" +:+ pretty now_)) (Some name)), c') ∧
        clients c' !! name = Some mock ∧
        SmsConfig.net _ _ c' = SmsConfig.net _ _ c ∧
        SmsConfig.env _ _ c' = SmsConfig.env _ _ c ∧
        SmsConfig.defaultProvider _ _ c' = SmsConfig.defaultProvider _ _ c.
Proof.
  intros Hname Hcache. unfold SmsConfig.sendSms, SmsConfig.getClient.
  assert (js_or_str (Some name) (SmsConfig.defaultProvider _ _ c) = name) as Hn.
  { by destruct Hname as [[-> _]|[-> _]]. }
  rewrite Hn.
  destruct Hcache as [Hc|Hc]; rewrite Hc.
  - destruct Hname as [[-> ->]|[-> ->]]; simpl;
      (eexists; split_and!; [reflexivity|simpl; apply lookup_insert_eq|done..]).
  - destruct Hname as [[-> ->]|[-> ->]]; simpl;
      (eexists; split_and!; [reflexivity|done..]).
Qed.

(** X21.  The providers [aws-sns] and [messagebird] send nothing.  With no client
    cached for the provider, or the client that the registry builds, a send
    through it returns a message id made from the clock, whatever the number,
    the message and the credentials, and the network is as it was.  So
    [sendSms] of the service, with the tenant in place, returns success and
    leaves the row [sent]. *)
Theorem mock_providers_send_nothing name mock :
  name = "aws-sns" ∧ mock = SmsConfig.AwsSnsMock _ ∨
  name = "messagebird" ∧ mock = SmsConfig.MessageBirdMock _ →
  (∀ now_ m o (c : SmsCfg),
     clients c !! name = None ∨ clients c !! name = Some mock →
     ∃ c', config_sendSms now_ (Some name) m o c
           = (inr (mkSendResult (Some ("mock-" +:+ pretty now_)) (Some name)), c') ∧
           SmsConfig.net _ _ c' = SmsConfig.net _ _ c) ∧
  (∀ tenant m o (w : World (ty := sms_types TwilioClient SmsNet)),
     clients (cfg w) !! name = None ∨ clients (cfg w) !! name = Some mock →
     ids_below w → tenant ∈ tenants w →
     let d := mkSendData (ty := sms_types TwilioClient SmsNet) tenant m (Some name) o in
     let w' := (sendSms TwilioClient SmsNet twilio twilio_messages_create d w).2 in
     (sendSms TwilioClient SmsNet twilio twilio_messages_create d w).1
     = inr (mkSendOk (nextId w) (Some ("mock-" +:+ pretty (now w))) (Some name)) ∧
     (status <$> rows w' !! nextId w) = Some "sent" ∧
     SmsConfig.net _ _ (cfg w') = SmsConfig.net _ _ (cfg w)).
Proof.
  intros Hname. split.
  - intros now_ m o c Hcache.
    destruct (mock_send now_ name mock m o c Hname Hcache) as (c' & Hsend & _ & Hnet & _).
    by exists c'.
  - intros tenant m o w Hcache Hbelow Htenant d w'. unfold w', sendSms.
    assert (rows w !! nextId w = None) as Hfree.
    { destruct (rows w !! nextId w) as [c0|] eqn:Hc0; [|done].
      specialize (Hbelow _ _ Hc0). lia. }
    pose proof (createLog_fresh (ty := sms_types TwilioClient SmsNet)
                  (pending_data d) w Hfree Htenant) as Hc.
    destruct (mock_send (now w) name mock m o (cfg w) Hname Hcache)
      as (c' & Hsend & _ & Hnet & _).
    destruct (adapter_send (ch := sms TwilioClient SmsNet twilio twilio_messages_create)
                (request_of d) (created (pending_data d) w)) as [r w2] eqn:Ha.
    assert (r = inr (mkSendResult (Some ("mock-" +:+ pretty (now w))) (Some name)) ∧
            SmsConfig.net _ _ (cfg w2) = SmsConfig.net _ _ (cfg w)) as [-> Hnet2].
    { unfold adapter_send in Ha. simpl in Ha. unfold d in Ha. simpl in Ha.
      rewrite Hsend in Ha. by injection Ha as <- <-. }
    rewrite (sendOne_sent _ _ _ _ _ _ Hc Ha). simpl. rewrite lookup_insert_eq.
    done.
Qed.

End AdapterFacts.

(* ===================================================================== *)
(** ** The shortcuts of the two services *)
(* ===================================================================== *)

Section ShortcutFacts.

Variable Transporter : Type.
Variable MailNet : Type.
Variable nodemailer_createTransport : EmailConfig.TransportOptions → JsError + Transporter.
Variable transporter_sendMail :
  Transporter → EmailConfig.MailMessage → MailNet → (JsError + option string) * MailNet.

Variable TwilioClient : Type.
Variable SmsNet : Type.
Variable twilio : option string → option string → JsError + TwilioClient.
Variable twilio_messages_create :
  TwilioClient → SmsConfig.CreateParams → SmsNet → (JsError + SmsConfig.ClientResult) * SmsNet.

Local Abbreviation email_types := (email_types Transporter MailNet).
Local Abbreviation sms_types := (sms_types TwilioClient SmsNet).
Local Abbreviation templated_email :=
  (sendTemplatedEmail Transporter MailNet nodemailer_createTransport transporter_sendMail).
Local Abbreviation welcome_email :=
  (sendWelcomeEmail Transporter MailNet nodemailer_createTransport transporter_sendMail).
Local Abbreviation password_reset_email :=
  (sendPasswordResetEmail Transporter MailNet nodemailer_createTransport transporter_sendMail).
Local Abbreviation notification_email :=
  (sendNotificationEmail Transporter MailNet nodemailer_createTransport transporter_sendMail).
Local Abbreviation verification_sms :=
  (sendVerificationSms TwilioClient SmsNet twilio twilio_messages_create).
Local Abbreviation alert_sms :=
  (sendAlertSms TwilioClient SmsNet twilio twilio_messages_create).

Lemma sendTemplatedEmail_no_body d (w : World (ty := email_types)) :
  te_body d = None → ∃ e, templated_email d w = (inl e, w).
Proof.
  intros Hbody. unfold sendTemplatedEmail. rewrite logging_errors_id.
  unfold bind, of_result.
  destruct (Mailer.renderTemplate _ _ Mailer.Html) as [e|html_]; [by eexists|].
  destruct (Mailer.renderTemplate _ _ Mailer.Text) as [e|text_]; [by eexists|].
  rewrite Hbody. by eexists.
Qed.

(** X22.  A templated email that comes without a [body] is never sent: the log
    row cannot be created, so the call throws before the adapter is reached
    and leaves everything as it was.  So it is for [sendTemplatedEmail], and
    for the welcome, password reset and notification emails, which set no
    body of their own; with nothing else added to the request, the
    templates are rendered and what is thrown is Prisma's validation error. *)
Theorem templated_emails_need_a_body (w : World (ty := email_types)) :
  (∀ d, te_body d = None → ∃ e, templated_email d w = (inl e, w)) ∧
  (∀ o tenant to_, o_body o = None →
     (∀ name, ∃ e, welcome_email tenant to_ name o w = (inl e, w)) ∧
     (∀ resetToken baseUrl,
        ∃ e, password_reset_email tenant to_ resetToken baseUrl o w = (inl e, w)) ∧
     (∀ title message_, ∃ e, notification_email tenant to_ title message_ o w = (inl e, w))) ∧
  (∀ tenant to_,
     let refused (r : (JsError + SendOk) * World) :=
       ∃ e, r = (inl e, w) ∧ err_name e = "PrismaClientValidationError" in
     (∀ name, refused (welcome_email tenant to_ name no_template_options w)) ∧
     (∀ resetToken baseUrl,
        refused (password_reset_email tenant to_ resetToken baseUrl no_template_options w)) ∧
     (∀ title message_,
        refused (notification_email tenant to_ title message_ no_template_options w))).
Proof.
  split_and!.
  - intros d. apply sendTemplatedEmail_no_body.
  - intros o tenant to_ Hbody. split_and!; intros *;
      unfold sendWelcomeEmail, sendPasswordResetEmail, sendNotificationEmail;
      rewrite logging_errors_id; by apply sendTemplatedEmail_no_body.
  - intros tenant to_.
    assert (∀ d, te_body d = None → te_template d ∉ Mailer.Object_prototype_keys →
                 is_Some (te_data d) →
                 templated_email d w = (inl (missing_argument "body"), w)) as Hrendered.
    { intros d Hbody Hname [data Hdata]. unfold sendTemplatedEmail.
      rewrite logging_errors_id. unfold bind, of_result. rewrite Hdata.
      destruct (renderTemplate_returns (te_template d) data Mailer.Html Hname) as [html_ ->].
      destruct (renderTemplate_returns (te_template d) data Mailer.Text Hname) as [text_ ->].
      by rewrite Hbody. }
    split_and!; intros *; exists (missing_argument "body"); (split; [|done]);
      unfold sendWelcomeEmail, sendPasswordResetEmail, sendNotificationEmail;
      rewrite logging_errors_id; apply Hrendered; try done;
      apply (bool_decide_unpack _); vm_compute; exact I.
Qed.

(** X23.  The two SMS shortcuts.  A verification SMS is logged with the code in
    its message, unless the request carries a [message] of its own, which
    then is what is logged and sent, without the code; the row stays in the
    table, [sent] or [failed], whether or not the vendor took the message.
    An alert SMS is logged and sent with the alert type in capitals before
    the message; without an alert type it throws before anything is written
    or sent. *)
Theorem sms_shortcuts_log_what_they_send tenant phoneNumber prov o
    (w : World (ty := sms_types)) :
  ids_below w → tenant ∈ tenants w →
  (∀ verificationCode message_option, ∃ c,
     rows (verification_sms tenant phoneNumber verificationCode message_option prov o w).2
       !! nextId w
     = Some c ∧
     content c
     = SmsConfig.mkSmsContent phoneNumber
         match message_option with
         | None =>
             "Your verification code is: " +:+ template verificationCode
             +:+ ". This code will expire in 10 minutes."
         | Some message_ => message_
         end ∧
     (status c = "sent" ∨ status c = "failed")) ∧
  (∀ alertType message_, ∃ c,
     rows (alert_sms tenant phoneNumber (Some alertType) message_ prov o w).2 !! nextId w
     = Some c ∧
     content c
     = SmsConfig.mkSmsContent phoneNumber
         ("ALERT [" +:+ toUpperCase alertType +:+ "]: " +:+ template message_) ∧
     (status c = "sent" ∨ status c = "failed")) ∧
  (∀ message_,
     alert_sms tenant phoneNumber None message_ prov o w
     = (inl (TypeError "Cannot read properties of undefined (reading 'toUpperCase')"), w)).
Proof.
  intros Hbelow Htenant. split_and!.
  - intros code message_option. unfold sendVerificationSms. rewrite logging_errors_id.
    cbv zeta. unfold sendSms.
    set (d := mkSendData _ _ _ _).
    destruct (sendOne_outcome (ch := sms TwilioClient SmsNet twilio twilio_messages_create)
                d w Hbelow Htenant) as (c & table & Hrow & _ & Hc & _ & _ & _ & Hst).
    exists c. split_and!; [done|by destruct message_option|].
    destruct (sendOne d w).1 as [e|ok]; [right|left]; tauto.
  - intros alertType message_. unfold sendAlertSms. rewrite logging_errors_id. cbv zeta.
    unfold sendSms.
    set (d := mkSendData _ _ _ _).
    destruct (sendOne_outcome (ch := sms TwilioClient SmsNet twilio twilio_messages_create)
                d w Hbelow Htenant) as (c & table & Hrow & _ & Hc & _ & _ & _ & Hst).
    exists c. split_and!; [done|done|].
    destruct (sendOne d w).1 as [e|ok]; [right|left]; tauto.
  - intros message_. unfold sendAlertSms. by rewrite logging_errors_id.
Qed.

End ShortcutFacts.

(* ===================================================================== *)
(** ** The push adapter registry *)
(* ===================================================================== *)

Section PushFacts.

Variable ServiceAccount : Type.
Variable JSON_parse : string → JsError + ServiceAccount.
Variable is_truthy : ServiceAccount → bool.
Variable private_key_truthy : ServiceAccount → JsError + bool.
Variable Extra : Type.
Variable Credential : Type.
Variable App : Type.
Variable Messaging : Type.
Variable Response : Type.
Variable PushNet : Type.
Variable credential_cert : ServiceAccount → JsError + Credential.
Variable initializeApp :
  Credential → option string → string → PushNet → (JsError + App) * PushNet.
Variable admin_messaging : App → JsError + Messaging.
Variable sendEachForMulticast :
  Messaging → PushConfig.MulticastMessage Extra → PushNet → (JsError + Response) * PushNet.
Variable messaging_send :
  Messaging → PushConfig.TopicMessage Extra → PushNet → (JsError + Response) * PushNet.
Variable messaging_subscribeToTopic :
  Messaging → PushConfig.Tokens → string → PushNet → (JsError + Response) * PushNet.
Variable messaging_unsubscribeFromTopic :
  Messaging → PushConfig.Tokens → string → PushNet → (JsError + Response) * PushNet.

Local Abbreviation PushCfg := (PushConfig.PushCfg App Messaging PushNet).
Local Abbreviation apps := (PushConfig.apps App Messaging PushNet).
Local Abbreviation push_env := (PushConfig.env App Messaging PushNet).
Local Abbreviation push_net := (PushConfig.net App Messaging PushNet).
Local Abbreviation push_default := (PushConfig.defaultProvider App Messaging PushNet).
Local Abbreviation push_getClient :=
  (PushConfig.getClient _ JSON_parse is_truthy private_key_truthy _ _ _ _
     credential_cert initializeApp admin_messaging).
Local Abbreviation sendNotification :=
  (PushConfig.sendNotification _ JSON_parse is_truthy private_key_truthy _ _ _ _ _ _
     credential_cert initializeApp admin_messaging sendEachForMulticast).
Local Abbreviation sendToTopic :=
  (PushConfig.sendToTopic _ JSON_parse is_truthy private_key_truthy _ _ _ _ _ _
     credential_cert initializeApp admin_messaging messaging_send).
Local Abbreviation subscribeToTopic :=
  (PushConfig.subscribeToTopic _ JSON_parse is_truthy private_key_truthy _ _ _ _ _
     credential_cert initializeApp admin_messaging messaging_subscribeToTopic).
Local Abbreviation unsubscribeFromTopic :=
  (PushConfig.unsubscribeFromTopic _ JSON_parse is_truthy private_key_truthy _ _ _ _ _
     credential_cert initializeApp admin_messaging messaging_unsubscribeFromTopic).

Lemma with_net_same (c : PushCfg) : PushConfig.with_net _ _ _ c (push_net c) = c.
Proof. by destruct c. Qed.

Lemma push_getClient_unparsed now_ provider (c : PushCfg) text error :
  apps c !! js_or_str provider (push_default c) = None →
  push_env c !! "FIREBASE_SERVICE_ACCOUNT" = Some text → text ≠ "" →
  JSON_parse text = inl error →
  push_getClient now_ provider c = (inl error, c).
Proof.
  intros Hnone Henv Htext Hparse. unfold PushConfig.getClient, PushConfig.getProviderConfig.
  rewrite Hnone, Henv. simpl.
  destruct (String.eqb_spec text "") as [->|_]; [done|]. simpl. by rewrite Hparse.
Qed.

Lemma push_getClient_default now_ provider (c c1 : PushCfg) client :
  push_getClient now_ provider c = (inr client, c1) → push_default c1 = push_default c.
Proof.
  unfold PushConfig.getClient.
  destruct (apps c !! _); [by intros [= _ <-]|].
  destruct (PushConfig.getProviderConfig _ _ _ _); [done|].
  destruct (PushConfig.createClient _ _ _ _ _ _ _ _ _ _ _ _ _ _ _ _) as [[?|?] ?];
    [done|by intros [= _ <-]].
Qed.

(** The mock clients, and what [getClient] does for them when
    [FIREBASE_SERVICE_ACCOUNT] is not set or the client is cached. *)
Lemma push_getClient_mock now_ name mock (c : PushCfg) :
  toLowerCase name = "apns" ∧ mock = PushConfig.ApnsMock _ _ ∨
  toLowerCase name = "fcm" ∧ mock = PushConfig.FcmMock _ _ →
  name ≠ "" →
  apps c !! name = None ∧ truthy (push_env c !! "FIREBASE_SERVICE_ACCOUNT") = false ∨
  apps c !! name = Some mock →
  ∃ c', push_getClient now_ (Some name) c = (inr mock, c') ∧
        apps c' !! name = Some mock ∧
        push_net c' = push_net c ∧ push_env c' = push_env c ∧
        push_default c' = push_default c.
Proof.
  intros Hname Hne Hcache. unfold PushConfig.getClient.
  assert (js_or_str (Some name) (push_default c) = name) as ->.
  { unfold js_or_str, js_or. simpl. by destruct (String.eqb_spec name "") as [->|_]. }
  destruct Hcache as [[Hc Henv]|Hc]; rewrite Hc; [|by exists c].
  assert (PushConfig.getProviderConfig _ JSON_parse (push_env c) name
          = inr (PushConfig.empty_config _)) as ->.
  { unfold PushConfig.getProviderConfig.
    assert (String.eqb name "firebase" = false) as ->.
    { apply String.eqb_neq. intros ->. by destruct Hname as [[? _]|[? _]]. }
    destruct (push_env c !! "FIREBASE_SERVICE_ACCOUNT") as [text|]; [|done].
    by rewrite Henv. }
  unfold PushConfig.createClient.
  destruct Hname as [[-> ->]|[-> ->]]; simpl;
    (eexists; split_and!; [reflexivity|simpl; apply lookup_insert_eq|done..]).
Qed.

(** X24.  The registry parses [FIREBASE_SERVICE_ACCOUNT] before it builds a
    client for any provider.  With nothing cached under the name asked for
    (the default provider when none is): if the variable is set to a text
    that [JSON.parse] refuses, [getClient] throws what the parser threw and
    changes nothing, and so does [sendNotification], for [apns] and [fcm] as
    for [firebase]; and if it is not set, so that the empty object is
    parsed, which has no [private_key], a firebase client is refused before
    the SDK is called. *)
Theorem push_needs_sound_service_account now_ provider (c : PushCfg) :
  apps c !! js_or_str provider (push_default c) = None →
  (∀ text error,
     push_env c !! "FIREBASE_SERVICE_ACCOUNT" = Some text → text ≠ "" →
     JSON_parse text = inl error →
     push_getClient now_ provider c = (inl error, c) ∧
     ∀ tokens nt o, sendNotification now_ provider tokens nt o c = (inl error, c)) ∧
  (∀ account,
     truthy (push_env c !! "FIREBASE_SERVICE_ACCOUNT") = false →
     toLowerCase (js_or_str provider (push_default c)) = "firebase" →
     JSON_parse "{}" = inr account → private_key_truthy account = inr false →
     push_getClient now_ provider c
     = (inl (Error "Firebase service account configuration is missing"), c)).
Proof.
  intros Hnone. split.
  - intros text error Henv Htext Hparse.
    pose proof (push_getClient_unparsed now_ provider c text error Hnone Henv Htext Hparse)
      as Hget.
    split; [exact Hget|]. intros tokens nt o. unfold PushConfig.sendNotification.
    by rewrite Hget.
  - intros account Henv Hname Hparse Hkey.
    unfold PushConfig.getClient. rewrite Hnone.
    assert (∃ config, PushConfig.getProviderConfig _ JSON_parse (push_env c)
                        (js_or_str provider (push_default c)) = inr config ∧
                      PushConfig.serviceAccount _ config = None) as (config & -> & Hconfig).
    { unfold PushConfig.getProviderConfig.
      destruct (push_env c !! "FIREBASE_SERVICE_ACCOUNT") as [text|]; [rewrite Henv|];
        (eexists; split; [reflexivity|]);
        by destruct (String.eqb _ "firebase"). }
    unfold PushConfig.createClient. rewrite Hname. simpl.
    unfold PushConfig.initializeFirebase, PushConfig.serviceAccount_or_env.
    rewrite Hconfig.
    assert (js_or_str (push_env c !! "FIREBASE_SERVICE_ACCOUNT") "{}" = "{}") as ->.
    { unfold js_or_str, js_or. by rewrite Henv. }
    rewrite Hparse, Hkey. by destruct c.
Qed.

(** X25.  Topics are for [firebase] only.  When [sendToTopic],
    [subscribeToTopic] or [unsubscribeFromTopic] returns, the provider asked
    for, or the default when none was, is [firebase], written exactly so.
    For [apns] and [fcm] they throw, after the mock client has been built
    and cached if it was not. *)
Theorem push_topics_are_firebase_only now_ provider (c : PushCfg) :
  let name := js_or_str provider (push_default c) in
  (∀ topic nt o r c', sendToTopic now_ provider topic nt o c = (inr r, c') →
     name = "firebase" ∧ PushConfig.ps_provider _ r = "firebase") ∧
  (∀ tokens topic r c', subscribeToTopic now_ tokens topic provider c = (inr r, c') →
     name = "firebase") ∧
  (∀ tokens topic r c', unsubscribeFromTopic now_ tokens topic provider c = (inr r, c') →
     name = "firebase") ∧
  (∀ name' mock,
     provider = Some name' →
     toLowerCase name' = "apns" ∧ mock = PushConfig.ApnsMock _ _ ∨
     toLowerCase name' = "fcm" ∧ mock = PushConfig.FcmMock _ _ →
     apps c !! name' = None ∧ truthy (push_env c !! "FIREBASE_SERVICE_ACCOUNT") = false ∨
     apps c !! name' = Some mock →
     (∀ topic nt o,
        (sendToTopic now_ provider topic nt o c).1
        = inl (Error ("Topic messaging not supported for provider: " +:+ name')) ∧
        apps (sendToTopic now_ provider topic nt o c).2 !! name' = Some mock) ∧
     (∀ tokens topic,
        (subscribeToTopic now_ tokens topic provider c).1
        = inl (Error ("Topic subscription not supported for provider: " +:+ name')) ∧
        apps (subscribeToTopic now_ tokens topic provider c).2 !! name' = Some mock) ∧
     (∀ tokens topic,
        (unsubscribeFromTopic now_ tokens topic provider c).1
        = inl (Error ("Topic unsubscription not supported for provider: " +:+ name')) ∧
        apps (unsubscribeFromTopic now_ tokens topic provider c).2 !! name' = Some mock)).
Proof.
  cbv zeta.
  split_and!.
  - intros topic nt o r c'. unfold PushConfig.sendToTopic.
    destruct (push_getClient now_ provider c) as [[error|client] c1] eqn:Hget; [done|].
    rewrite (push_getClient_default _ _ _ _ _ Hget).
    destruct (String.eqb_spec (js_or_str provider (push_default c)) "firebase")
      as [Heq|_]; [|done].
    destruct (PushConfig.with_messaging _ _ _ _ _ _ _) as [[?|?] ?]; [done|].
    intros [= <- _]. by rewrite Heq.
  - intros tokens topic r c'. unfold PushConfig.subscribeToTopic.
    destruct (push_getClient now_ provider c) as [[error|client] c1] eqn:Hget; [done|].
    rewrite (push_getClient_default _ _ _ _ _ Hget).
    by destruct (String.eqb_spec (js_or_str provider (push_default c)) "firebase").
  - intros tokens topic r c'. unfold PushConfig.unsubscribeFromTopic.
    destruct (push_getClient now_ provider c) as [[error|client] c1] eqn:Hget; [done|].
    rewrite (push_getClient_default _ _ _ _ _ Hget).
    by destruct (String.eqb_spec (js_or_str provider (push_default c)) "firebase").
  - intros name' mock -> Hname Hcache.
    assert (name' ≠ "") as Hne by (intros ->; by destruct Hname as [[? _]|[? _]]).
    destruct (push_getClient_mock now_ name' mock c Hname Hne Hcache)
      as (c1 & Hget & Hcached & _ & _ & Hsame).
    assert (js_or_str (Some name') (push_default c1) = name') as Hjs.
    { unfold js_or_str, js_or. simpl. by destruct (String.eqb_spec name' "") as [->|_]. }
    assert (String.eqb name' "firebase" = false) as Hnot.
    { apply String.eqb_neq. intros ->. by destruct Hname as [[? _]|[? _]]. }
    unfold PushConfig.sendToTopic, PushConfig.subscribeToTopic,
      PushConfig.unsubscribeFromTopic.
    rewrite Hget, Hjs, Hnot. simpl. by split_and!.
Qed.

(** X26.  A push notification goes out only under one of the three provider
    names, written exactly so: when [sendNotification] returns, the provider
    it reports is the one asked for, or the default when none was, and is a
    supported one.  Under [apns] and [fcm] nothing is sent: with the mock
    client cached, or none cached and [FIREBASE_SERVICE_ACCOUNT] not set,
    the call returns an id made from the clock, whatever the tokens and the
    notification, and the network is as it was. *)
Theorem push_goes_out_under_supported_names now_ provider (c : PushCfg) :
  let name := js_or_str provider (push_default c) in
  (∀ tokens nt o r c', sendNotification now_ provider tokens nt o c = (inr r, c') →
     PushConfig.ps_provider _ r = name ∧ name ∈ PushConfig.getSupportedProviders) ∧
  (∀ mock result,
     name = "apns" ∧ mock = PushConfig.ApnsMock _ _ ∧
       result = PushConfig.MockId _ ("mock-" +:+ pretty now_) ∨
     name = "fcm" ∧ mock = PushConfig.FcmMock _ _ ∧
       result = PushConfig.MockName _ ("mock-" +:+ pretty now_) →
     apps c !! name = None ∧ truthy (push_env c !! "FIREBASE_SERVICE_ACCOUNT") = false ∨
     apps c !! name = Some mock →
     ∀ tokens nt o, ∃ c',
       sendNotification now_ provider tokens nt o c
       = (inr (PushConfig.mkPushSendResult _ result name), c') ∧
       push_net c' = push_net c).
Proof.
  cbv zeta. split.
  - intros tokens nt o r c'. unfold PushConfig.sendNotification.
    destruct (push_getClient now_ provider c) as [[error|client] c1] eqn:Hget; [done|].
    rewrite (push_getClient_default _ _ _ _ _ Hget).
    unfold PushConfig.getSupportedProviders.
    destruct (String.eqb_spec (js_or_str provider (push_default c)) "firebase") as [->|_].
    { destruct (PushConfig.with_messaging _ _ _ _ _ _ _) as [[?|?] ?]; [done|].
      intros [= <- _]. split; [done|]. set_solver. }
    destruct (String.eqb_spec (js_or_str provider (push_default c)) "apns") as [->|_].
    { destruct (PushConfig.client_send _ _ _ _ _); [done|].
      intros [= <- _]. split; [done|]. set_solver. }
    destruct (String.eqb_spec (js_or_str provider (push_default c)) "fcm") as [->|_].
    { destruct (PushConfig.client_send _ _ _ _ _); [done|].
      intros [= <- _]. split; [done|]. set_solver. }
    done.
  - intros mock result Hname Hcache tokens nt o.
    set (name := js_or_str provider (push_default c)) in *.
    assert (push_getClient now_ provider c = push_getClient now_ (Some name) c) as Hsame.
    { unfold PushConfig.getClient. fold name.
      assert (js_or_str (Some name) (push_default c) = name) as ->; [|done].
      unfold js_or_str, js_or. simpl.
      destruct (String.eqb_spec name "") as [Heq|_]; [|done].
      exfalso. rewrite Heq in Hname. by destruct Hname as [[? _]|[? _]]. }
    destruct (push_getClient_mock now_ name mock c) as (c1 & Hget & _ & Hnet & _ & Hdef).
    { destruct Hname as [(-> & -> & _)|(-> & -> & _)]; [by left|by right]. }
    { intros Heq. rewrite Heq in Hname. by destruct Hname as [[? _]|[? _]]. }
    { exact Hcache. }
    unfold PushConfig.sendNotification. rewrite Hsame, Hget, Hdef. fold name.
    destruct Hname as [(-> & -> & ->)|(-> & -> & ->)]; simpl;
      (eexists; split; [reflexivity|exact Hnet]).
Qed.

End PushFacts.

(* ===================================================================== *)
(** ** Runs on the mocked vendors *)
(* ===================================================================== *)

Section Runs.
Import Mock.
Local Existing Instance email_types.
Local Existing Instance email.

Local Abbreviation send_to to_ :=
  (mkSendData (ty := email_types) 1 (mail to_) None EmailConfig.no_options).

(** A send that the vendor refuses: the row is [failed] with the vendor's
    message, and the error is thrown. *)
Lemma sendOne_failure_recorded_and_raised_witness :
  let w' := (sendOne (send_to "bad@example.com") email_world).2 in
  (sendOne (send_to "bad@example.com") email_world).1 = inl (Error "550 mailbox unavailable") ∧
  status <$> (rows w' !! 1) = Some "failed" ∧
  errorMessage <$> (rows w' !! 1) = Some (Some "550 mailbox unavailable").
Proof.
  edestruct (sendOne_failure_recorded_and_raised (send_to "bad@example.com") email_world)
    as (Hthrown & Hpending & Hrow & Htrace).
  - reflexivity.
  - reflexivity.
  - split; [exact Hthrown|]. simpl in Hrow. cbv zeta. rewrite Hrow. split; reflexivity.
Defined.

(** Three items in batches of two, the second batch through before the
    first: the results come in input order all the same, and count two
    successes and one failure; the second result is what came of the
    second item. *)
Local Abbreviation three := (bulk ["good1"; "bad1"; "good2"] 2).
Local Abbreviation second_batch_first :=
  [Elapse 1000; TimerFires; Resume 1; Resume 1; Resume 1;
   Resume 0; Resume 0; Resume 0; Resume 0; Resume 0; Resume 0].



Example sendBulk_partial_failure :
  let '(res, w') := sendBulk three second_batch_first email_world in
  (λ r, (br_total r, br_successful r, br_failed r)) <$> res = Some (3, 2, 1)%nat ∧
  (λ c, (EmailConfig.to (content c), status c)) <$> (snd <$> map_to_list (rows w'))
    ≡ₚ [("good1", "sent"); ("bad1", "failed"); ("good2", "sent")].
Proof. vm_compute. split; [reflexivity|]. by rewrite (Permutation_swap _ _ _). Qed.

(** A listing with a start date and no end date. *)
Local Abbreviation since_only :=
  (mkFilters (Some 1) None None (Some "2024-01-01") None None).

Lemma getLogs_ignores_half_open_date_range_witness :
  getLogs (λ _, InvalidDate) since_only (mkPagination None None) email_world
  = getLogs (λ _, InvalidDate) (mkFilters (Some 1) None None None None None)
      (mkPagination None None) email_world.
Proof.
  apply (getLogs_ignores_half_open_date_range (λ _, InvalidDate) since_only
           (mkPagination None None) email_world).
  left. split; [by eexists|reflexivity].
Defined.

(** C6.  Four items in batches of three ([batchSize: 3] in the one object
    that [sendBulk] takes, the delay at its default), the first item taking
    as long as the pacing delay: when the timer fires the second batch
    starts, and goes through, while the first batch is still on its second
    item and has not touched its third.  The batches do not take turns. *)
Theorem sendBulk_batches_overlap :
  let pw := run (bulk ["a"; "b"; "c"; "d"] 3)
              [Resume 0; Resume 0; Resume 0; Elapse 1000; TimerFires;
               Resume 1; Resume 1; Resume 1]
              (sendBulk_start (bulk ["a"; "b"; "c"; "d"] 3) email_world, email_world) in
  ¬ batches_in_turn pw.1 ∧
  dispatched pw.2 = ["a"; "d"] ∧
  (λ t, EmailConfig.to <$> (it_content <$> tk_items t)) <$> pl_tasks pw.1 = [["b"; "c"]; []].
Proof.
  cbv zeta. split_and!; [|vm_compute; reflexivity|vm_compute; reflexivity].
  intros Hturn.
  assert (untouched (mkTask (ty := email_types) 1700000000000 [mail_item "b"; mail_item "c"]
                       AwaitCreate
                       [mkItemResult (mail_item "a") (inr (mkSendOk 1 (Some "abc123") (Some "smtp")))])
          = []) as Habsurd; [|discriminate Habsurd].
  apply (Hturn 0%nat); [vm_compute; reflexivity|vm_compute; lia].
Qed.

(** C9.  With nothing in the environment, so that every credential of
    [aws-sns] is missing, the first call for that provider builds a client
    all the same: construction does not check credentials. *)
Theorem aws_sns_built_without_credentials :
  ¬ SmsConfig.checks_credentials _ _ twilio ∅ () "aws-sns".
Proof.
  intros Hchecks. destruct Hchecks as (error & c & Hfails).
  - exists "AWS_ACCESS_KEY_ID". split; [vm_compute; by left|reflexivity].
  - vm_compute in Hfails. discriminate Hfails.
Qed.

(** One email to a good address through [smtp]: a single row, [sent]. *)
Example send_end_to_end :
  let '(res, w') :=
    sendEmail _ _ createTransport sendMail
      (mkSendData (ty := email_types) 1 (mail "user@example.com") (Some "smtp")
         EmailConfig.no_options) email_world in
  res = inr (mkSendOk 1 (Some "abc123") (Some "smtp")) ∧
  (λ c, (status c, provider c)) <$> (rows w' !! 1) = Some ("sent", Some "smtp") ∧
  size (rows w') = 1%nat.
Proof. vm_compute. repeat split; reflexivity. Qed.

(** One SMS with no twilio account configured: the client cannot be built,
    the send throws what the constructor threw, and the row is [failed]. *)
Example sms_without_account :
  let '(res, w') :=
    sendSms _ _ twilio twilio_create
      (mkSendData (ty := sms_types) 1 (SmsConfig.mkSmsContent "+15550100" "hello") None
         SmsConfig.no_options) sms_world in
  res = inl (Error "username is required") ∧
  (λ c, (status (ty := sms_types) c, errorMessage c)) <$> (rows w' !! 1)
  = Some ("failed", Some "username is required") ∧
  size (rows w') = 1%nat.
Proof. vm_compute. repeat split; reflexivity. Qed.

(** Two failed rows, one 25 hours old and one 23: the sweep takes the
    second only. *)
Example retry_window_boundary :
  (getFailedLogsForRetry 50
     (seed [(1, seeded "old@example.com" "failed" 25);
            (2, seeded "recent@example.com" "failed" 23)])).1
  = inr [mkLog 2 (seeded "recent@example.com" "failed" 23)].
Proof. vm_compute. reflexivity. Qed.

(** A pending row 200 days old survives a cleanup at 90 days; a sent row of
    the same age does not. *)
Example cleanup_keeps_abandoned_dispatch :
  let w' := (cleanupOld 90 (seed [(1, seeded "a@example.com" "pending" (200 * 24));
                                 (2, seeded "b@example.com" "sent" (200 * 24))])).2 in
  status <$> (rows w' !! 1) = Some "pending" ∧ rows w' !! 2 = None.
Proof. vm_compute. split; reflexivity. Qed.

(** *** Runs of the properties of the rest of the code *)

(** The first row of an empty table. *)
Local Abbreviation first_row :=
  (mkLogData (ty := email_types) 1 (mail "user@example.com") None (Some "smtp") None).

(** The first row made in an empty table is found under id 1, where nothing
    was found before. *)
Lemma getLogById_finds_created_witness :
  (getLogById 1 email_world).1 = inr None ∧
  (getLogById 1 (createLog first_row email_world).2).1
  = inr (Some (new_row first_row email_world)).
Proof.
  destruct (getLogById_finds_created first_row email_world (new_row first_row email_world)
              (createLog first_row email_world).2) as (Hbefore & Hafter & _).
  - reflexivity.
  - split; [exact (f_equal fst Hbefore)|exact (f_equal fst Hafter)].
Defined.

(** That row deleted again: the table is empty as before. *)
Lemma deleteLog_undoes_createLog_witness :
  let w1 := (createLog first_row email_world).2 in
  (deleteLog 1 w1).1 = inr true ∧ rows (deleteLog 1 w1).2 = rows email_world.
Proof.
  destruct (deleteLog_undoes_createLog first_row email_world (new_row first_row email_world)
              (createLog first_row email_world).2) as (Hdeleted & Hrows & _).
  - reflexivity.
  - split; [exact Hdeleted|exact Hrows].
Defined.

(** A sent row two hours old and a failed row one hour old. *)
Local Abbreviation two_rows :=
  (seed [(1, seeded "a@example.com" "sent" 2); (2, seeded "b@example.com" "failed" 1)]).
Local Abbreviation failed_only :=
  (mkFilters (Some 1) (Some "failed") None None None None).
Local Abbreviation of_tenant_1 :=
  (mkFilters (Some 1) None None None None None).

(** The listing of the failed rows of tenant 1: one row, and it is failed. *)
Lemma getLogs_results_match_filters_witness :
  ∃ pg,
    (getLogs (λ _, InvalidDate) failed_only (mkPagination None None) two_rows).1 = inr pg ∧
    p_total pg = 1%nat ∧
    ∀ log : Log, log ∈ p_logs pg → status log = "failed".
Proof.
  set (pg := mkPage [mkLog 2 (seeded "b@example.com" "failed" 1)] 1 10 1 (Num 1)).
  assert ((getLogs (λ _, InvalidDate) failed_only (mkPagination None None) two_rows).1
          = inr pg) as Hrun by (vm_compute; reflexivity).
  destruct (getLogs_results_match_filters (λ _, InvalidDate) failed_only
              (mkPagination None None) two_rows pg Hrun) as (_ & _ & _ & Hmeets & _).
  exists pg. split; [exact Hrun|]. split; [reflexivity|].
  intros log Hin. destruct (Hmeets log Hin) as (_ & _ & Hstatus & _).
  by apply (Hstatus "failed").
Defined.


(** A send that the vendor accepts leaves its row [sent]. *)
Lemma sendOne_settles_its_row_witness :
  ∃ c, rows (sendOne (send_to "user@example.com") email_world).2 !! 1 = Some c ∧
       status c = "sent" ∧ errorMessage c = None.
Proof.
  destruct (sendOne_settles_its_row (send_to "user@example.com") email_world)
    as ((c & table & Hrow & _ & _ & _ & _ & _ & Houtcome) & _).
  - intros i c Hrow. vm_compute in Hrow. discriminate Hrow.
  - apply (bool_decide_unpack _). vm_compute. exact I.
  - exists c. split; [exact Hrow|].
    assert ((sendOne (send_to "user@example.com") email_world).1
            = inr (mkSendOk 1 (Some "abc123") (Some "smtp"))) as Hrun
      by (vm_compute; reflexivity).
    rewrite Hrun in Houtcome. destruct Houtcome as (_ & Hsent & Hnone).
    split; [exact Hsent|exact Hnone].
Defined.

(** Markup in the title and a placeholder in the message come out as they
    went in. *)
Lemma renderTemplate_puts_values_in_verbatim_witness :
  Mailer.renderTemplate "notification"
    (Some (<[ "title" := "<b>Hi</b>" ]> ({[ "message" := "{{title}}" ]} : gmap string string)))
    Mailer.Text
  = inr ("<b>Hi</b>" +:+ Mailer.newline +:+ Mailer.newline +:+ "{{title}}").
Proof.
  destruct (renderTemplate_puts_values_in_verbatim "<b>Hi</b>" "{{title}}") as [Htext _].
  - discriminate.
  - discriminate.
  - exact Htext.
Defined.

(** An email through the provider written [SMTP]. *)
Lemma email_goes_out_under_supported_names_witness :
  ∃ r,
    (EmailConfig.sendEmail _ _ createTransport sendMail (Some "SMTP")
       (mail "user@example.com") EmailConfig.no_options
       (EmailConfig.new_EmailConfig _ _ ∅ ())).1 = inr r ∧
    sr_provider r = Some "SMTP".
Proof.
  set (r := mkSendResult (Some "abc123") (Some "SMTP")).
  assert ((EmailConfig.sendEmail _ _ createTransport sendMail (Some "SMTP")
             (mail "user@example.com") EmailConfig.no_options
             (EmailConfig.new_EmailConfig _ _ ∅ ())).1 = inr r) as Hrun
    by (vm_compute; reflexivity).
  destruct (email_goes_out_under_supported_names _ _ createTransport sendMail (Some "SMTP")
              (mail "user@example.com") EmailConfig.no_options
              (EmailConfig.new_EmailConfig _ _ ∅ ())) as [_ Hreturned].
  - intros q t Hcached. vm_compute in Hcached. discriminate Hcached.
  - exists r. split; [exact Hrun|]. exact (proj1 (Hreturned r Hrun)).
Defined.

(** An SMS through [aws-sns], with no credentials at all. *)
Lemma mock_providers_send_nothing_witness :
  (sendSms _ _ twilio twilio_create
     (mkSendData (ty := sms_types) 1 (SmsConfig.mkSmsContent "+15550100" "hello")
        (Some "aws-sns") SmsConfig.no_options) sms_world).1
  = inr (mkSendOk 1 (Some ("mock-" +:+ pretty 1700000000000)) (Some "aws-sns")).
Proof.
  destruct (mock_providers_send_nothing _ _ twilio twilio_create "aws-sns"
              (SmsConfig.AwsSnsMock _)) as [_ Hservice].
  - left. split; reflexivity.
  - destruct (Hservice 1 (SmsConfig.mkSmsContent "+15550100" "hello") SmsConfig.no_options
                sms_world) as (Hreturned & _).
    + left. reflexivity.
    + intros i c Hrow. vm_compute in Hrow. discriminate Hrow.
    + apply (bool_decide_unpack _). vm_compute. exact I.
    + exact Hreturned.
Defined.

(** An alert of type [disk]. *)
Lemma sms_shortcuts_log_what_they_send_witness :
  ∃ c,
    rows (sendAlertSms _ _ twilio twilio_create 1 "+15550100" (Some "disk") (Some "90% full")
            None SmsConfig.no_options sms_world).2 !! 1 = Some c ∧
    content (ty := sms_types) c = SmsConfig.mkSmsContent "+15550100" "ALERT [DISK]: 90% full".
Proof.
  destruct (sms_shortcuts_log_what_they_send _ _ twilio twilio_create 1 "+15550100" None
              SmsConfig.no_options sms_world) as (_ & Halert & _).
  - intros i c Hrow. vm_compute in Hrow. discriminate Hrow.
  - apply (bool_decide_unpack _). vm_compute. exact I.
  - destruct (Halert "disk" (Some "90% full")) as (c & Hrow & Hcontent & _).
    exists c. split; [exact Hrow|exact Hcontent].
Defined.

(** A service account that is not JSON: not even the [apns] mock is built,
    and nothing is sent through it. *)
Lemma push_needs_sound_service_account_witness :
  MockPush.getClient 0 (Some "apns") (MockPush.with_account "{oops")
  = (inl (mkError "SyntaxError" "Unexpected token in JSON"), MockPush.with_account "{oops") ∧
  MockPush.sendNotification 0 (Some "apns") (PushConfig.OneToken "device-1")
    (PushConfig.mkNotification "Hi" "Test" None) () (MockPush.with_account "{oops")
  = (inl (mkError "SyntaxError" "Unexpected token in JSON"), MockPush.with_account "{oops").
Proof.
  destruct (push_needs_sound_service_account _ MockPush.JSON_parse MockPush.is_truthy
              MockPush.private_key_truthy unit _ _ _ unit _ MockPush.credential_cert
              MockPush.initializeApp MockPush.admin_messaging MockPush.sendEachForMulticast
              0 (Some "apns") (MockPush.with_account "{oops")) as [Hunparsed _].
  - reflexivity.
  - destruct (Hunparsed "{oops" (mkError "SyntaxError" "Unexpected token in JSON"))
      as [Hget Hsend]; [reflexivity|discriminate|reflexivity|].
    split; [exact Hget|apply Hsend].
Defined.

End Runs.
